(** * A shallow embedding of the LSP client and of the LSP-based analyses

    Sources embedded here:
    - [skills/code-quality/scripts/analyze_with_lsp.ts]: the [LSPClient]
      class (framing, request correlation, timers, query wrappers) and the
      detectors of [analyzeProject] (unused symbols, dead parameters,
      similar types);
    - [language-server-client/scripts/lsp_client.ts]: the [sendRequest]
      and [sendNotification] writers of the stand-alone client.

    Conventions.  A JavaScript string is the list of its UTF-16 code
    units, a byte buffer is a list of integers below 256, and JavaScript
    numbers that only ever hold small non-negative integers (request ids,
    lengths, line numbers) are exact integers.  The similarity of two
    types is not an integer: it is an IEEE 754 double, with the
    operations of the Standard Library's [SpecFloat]. *)

From Stdlib Require Import ZArith List Bool Lia String Ascii QArith Qround Sorted.
From Stdlib Require Floats.SpecFloat.
From stdpp Require Import gmap list strings.

Open Scope Z_scope.

(* ================================================================== *)
(** * Part I. Definitions                                              *)
(* ================================================================== *)

(** ** JavaScript strings *)

Abbreviation jsstring := (list Z).

(** An ASCII literal as a JavaScript string. *)
Definition js (s : string) : jsstring :=
  map (fun a => Z.of_nat (nat_of_ascii a)) (list_ascii_of_string s).

Definition CR : Z := 13.
Definition LF : Z := 10.
(** The literal ['\r\n\r\n']. *)
Definition CRLFCRLF : jsstring := [CR; LF; CR; LF].

Definition is_digit (c : Z) : bool := (48 <=? c) && (c <=? 57).

(** [\w] of a regular expression without the [u] flag: [[A-Za-z0-9_]]. *)
Definition is_word (c : Z) : bool :=
  ((65 <=? c) && (c <=? 90)) || ((97 <=? c) && (c <=? 122))
  || is_digit c || (c =? 95).

(** [\s] of a regular expression, which is also what [String.prototype.trim]
    strips: WhiteSpace and LineTerminator code points. *)
Definition is_space (c : Z) : bool :=
  ((9 <=? c) && (c <=? 13)) || (c =? 32) || (c =? 160) || (c =? 5760)
  || ((8192 <=? c) && (c <=? 8202)) || (c =? 8232) || (c =? 8233)
  || (c =? 8239) || (c =? 8287) || (c =? 12288) || (c =? 65279).

(** Canonicalisation of a code unit under the [i] flag, restricted to what
    can reach an ASCII pattern character: a non-ASCII code unit never
    canonicalises to an ASCII one. *)
Definition upper (c : Z) : Z :=
  if (97 <=? c) && (c <=? 122) then c - 32 else c.

(** [s.startsWith(p)], returning the remainder on success. *)
Fixpoint strip_prefix (p s : jsstring) : option jsstring :=
  match p with
  | [] => Some s
  | a :: p' =>
      match s with
      | [] => None
      | b :: s' => if a =? b then strip_prefix p' s' else None
      end
  end.

Definition startsWith (s p : jsstring) : bool :=
  match strip_prefix p s with Some _ => true | None => false end.

(** [s.indexOf(p)] for a non-empty [p]: [None] stands for [-1]. *)
Fixpoint indexOf (p s : jsstring) : option nat :=
  match strip_prefix p s with
  | Some _ => Some 0%nat
  | None =>
      match s with
      | [] => None
      | _ :: s' => option_map S (indexOf p s')
      end
  end.

(** [s.substring(a, b)] for [0 <= a <= b]. *)
Definition substring (s : jsstring) (a b : nat) : jsstring :=
  take (b - a) (drop a s).

(** [s.substring(a)]. *)
Definition substring_from (s : jsstring) (a : nat) : jsstring := drop a s.

(** [s.includes(c)] for a one-character [c], and the number of matches of
    the global one-character pattern [/c/g]. *)
Definition includes_char (c : Z) (s : jsstring) : bool :=
  existsb (Z.eqb c) s.

Definition count_char (c : Z) (s : jsstring) : Z :=
  Z.of_nat (length (filter (fun x => x = c) s)).

(** [s.split(sep)] for a one-character separator: never the empty list. *)
Fixpoint split_on (sep : Z) (s : jsstring) : list jsstring :=
  match s with
  | [] => [[]]
  | c :: s' =>
      if c =? sep then [] :: split_on sep s'
      else match split_on sep s' with
           | [] => [[c]]
           | piece :: pieces => (c :: piece) :: pieces
           end
  end.

(** [pieces.join(sep)]. *)
Fixpoint join (sep : jsstring) (pieces : list jsstring) : jsstring :=
  match pieces with
  | [] => []
  | [p] => p
  | p :: rest => p ++ sep ++ join sep rest
  end.

(** The longest prefix of [s] whose code units satisfy [f], and the rest. *)
Fixpoint span (f : Z -> bool) (s : jsstring) : jsstring * jsstring :=
  match s with
  | [] => ([], [])
  | c :: s' =>
      if f c then let '(a, b) := span f s' in (c :: a, b) else ([], s)
  end.

(** Lexicographic order on code units, the order of the default
    [Array.prototype.sort] on strings. *)
Fixpoint js_lt (a b : jsstring) : bool :=
  match a, b with
  | [], [] => false
  | [], _ :: _ => true
  | _ :: _, [] => false
  | x :: a', y :: b' => (x <? y) || ((x =? y) && js_lt a' b')
  end.

(** Decimal rendering of a non-negative integer. *)
Fixpoint decimal_fuel (fuel : nat) (n : Z) (acc : jsstring) : jsstring :=
  match fuel with
  | O => acc
  | S fuel' =>
      let acc' := (48 + n mod 10) :: acc in
      if n <? 10 then acc' else decimal_fuel fuel' (n / 10) acc'
  end.

Definition decimal (n : Z) : jsstring :=
  decimal_fuel (S (Z.to_nat (Z.log2 n))) n [].

(** [Number.prototype.toString] on an integer. *)
Definition number_toString (n : Z) : jsstring :=
  if n <? 0 then 45 :: decimal (- n) else decimal n.

(** [parseInt(ds, 10)] on a string of decimal digits. *)
Definition parseInt (ds : jsstring) : Z :=
  fold_left (fun acc c => acc * 10 + (c - 48)) ds 0.

(** ** UTF-8 *)

Definition is_high_surrogate (c : Z) : bool := (0xD800 <=? c) && (c <=? 0xDBFF).
Definition is_low_surrogate (c : Z) : bool := (0xDC00 <=? c) && (c <=? 0xDFFF).

(** The UTF-8 encoding of U+FFFD, which replaces a lone surrogate. *)
Definition utf8_replacement : list Z := [0xEF; 0xBF; 0xBD].

(** A code unit that is not a surrogate is a code point of its own, of
    one to three bytes. *)
Definition utf8_of_code_unit (c : Z) : list Z :=
  if c <? 0x80 then [c]
  else if c <? 0x800 then [0xC0 + c / 64; 0x80 + c mod 64]
  else [0xE0 + c / 4096; 0x80 + (c / 64) mod 64; 0x80 + c mod 64].

(** A high and a low surrogate make one code point of four bytes. *)
Definition utf8_of_pair (c d : Z) : list Z :=
  let cp := 0x10000 + (c - 0xD800) * 1024 + (d - 0xDC00) in
  [0xF0 + cp / 262144; 0x80 + (cp / 4096) mod 64;
   0x80 + (cp / 64) mod 64; 0x80 + cp mod 64].

(** The bytes that [stream.write(string)] puts on the pipe (its default
    encoding is UTF-8). *)
Fixpoint utf8_encode (s : jsstring) : list Z :=
  match s with
  | [] => []
  | c :: rest =>
      if is_high_surrogate c then
        match rest with
        | d :: rest' =>
            if is_low_surrogate d then utf8_of_pair c d ++ utf8_encode rest'
            else utf8_replacement ++ utf8_encode rest
        | [] => utf8_replacement
        end
      else if is_low_surrogate c then utf8_replacement ++ utf8_encode rest
      else utf8_of_code_unit c ++ utf8_encode rest
  end.

(** [Buffer.byteLength(s, 'utf8')]: counts without building the buffer. *)
Fixpoint Buffer_byteLength (s : jsstring) : Z :=
  match s with
  | [] => 0
  | c :: rest =>
      if is_high_surrogate c then
        match rest with
        | d :: rest' =>
            if is_low_surrogate d then 4 + Buffer_byteLength rest'
            else 3 + Buffer_byteLength rest
        | [] => 3
        end
      else if c <? 0x80 then 1 + Buffer_byteLength rest
      else if c <? 0x800 then 2 + Buffer_byteLength rest
      else 3 + Buffer_byteLength rest
  end.

Definition is_continuation (b : Z) : bool := (0x80 <=? b) && (b <=? 0xBF).
Definition in_range (lo hi b : Z) : bool := (lo <=? b) && (b <=? hi).

(** The code units of a decoded code point. *)
Definition code_units_of (cp : Z) : jsstring :=
  if cp <? 0x10000 then [cp]
  else [0xD800 + (cp - 0x10000) / 1024; 0xDC00 + (cp - 0x10000) mod 1024].

(** [buffer.toString()]: UTF-8 decoding of one buffer on its own, each
    maximal ill-formed subsequence (also one cut off by the end of the
    buffer) becoming U+FFFD. *)
Fixpoint utf8_decode (bs : list Z) : jsstring :=
  match bs with
  | [] => []
  | b :: r0 =>
      if b <? 0x80 then b :: utf8_decode r0
      else if in_range 0xC2 0xDF b then
        match r0 with
        | b1 :: r1 =>
            if is_continuation b1
            then ((b - 0xC0) * 64 + (b1 - 0x80)) :: utf8_decode r1
            else 0xFFFD :: utf8_decode r0
        | [] => [0xFFFD]
        end
      else if in_range 0xE0 0xEF b then
        let lo := if b =? 0xE0 then 0xA0 else 0x80 in
        let hi := if b =? 0xED then 0x9F else 0xBF in
        match r0 with
        | b1 :: r1 =>
            if in_range lo hi b1 then
              match r1 with
              | b2 :: r2 =>
                  if is_continuation b2
                  then ((b - 0xE0) * 4096 + (b1 - 0x80) * 64 + (b2 - 0x80))
                       :: utf8_decode r2
                  else 0xFFFD :: utf8_decode r1
              | [] => [0xFFFD]
              end
            else 0xFFFD :: utf8_decode r0
        | [] => [0xFFFD]
        end
      else if in_range 0xF0 0xF4 b then
        let lo := if b =? 0xF0 then 0x90 else 0x80 in
        let hi := if b =? 0xF4 then 0x8F else 0xBF in
        match r0 with
        | b1 :: r1 =>
            if in_range lo hi b1 then
              match r1 with
              | b2 :: r2 =>
                  if is_continuation b2 then
                    match r2 with
                    | b3 :: r3 =>
                        if is_continuation b3
                        then code_units_of
                               ((b - 0xF0) * 262144 + (b1 - 0x80) * 4096
                                + (b2 - 0x80) * 64 + (b3 - 0x80))
                             ++ utf8_decode r3
                        else 0xFFFD :: utf8_decode r2
                    | [] => [0xFFFD]
                    end
                  else 0xFFFD :: utf8_decode r1
              | [] => [0xFFFD]
              end
            else 0xFFFD :: utf8_decode r0
        | [] => [0xFFFD]
        end
      else 0xFFFD :: utf8_decode r0
  end.

(** ** JSON values and [JSON.stringify] *)

#[local] Set Warnings "-register-all".

(** Values that travel in messages.  Numbers are the integers; an object is
    the list of its own properties in property order. *)
Inductive json : Type :=
  | JNull
  | JBool (b : bool)
  | JNum (n : Z)
  | JStr (s : jsstring)
  | JArr (items : list json)
  | JObj (fields : list (jsstring * json)).

Definition hex_digit (d : Z) : Z := if d <? 10 then 48 + d else 87 + d.

(** The [\uXXXX] escape, lower-case hexadecimal. *)
Definition unicode_escape (c : Z) : jsstring :=
  [92; 117; hex_digit (c / 4096); hex_digit ((c / 256) mod 16);
   hex_digit ((c / 16) mod 16); hex_digit (c mod 16)].

(** [QuoteJSONString] without the surrounding quotes (well-formed
    [JSON.stringify]: lone surrogates are escaped, pairs are kept). *)
Fixpoint quote_chars (s : jsstring) : jsstring :=
  match s with
  | [] => []
  | c :: rest =>
      if c =? 34 then [92; 34] ++ quote_chars rest
      else if c =? 92 then [92; 92] ++ quote_chars rest
      else if c =? 8 then [92; 98] ++ quote_chars rest
      else if c =? 9 then [92; 116] ++ quote_chars rest
      else if c =? 10 then [92; 110] ++ quote_chars rest
      else if c =? 12 then [92; 102] ++ quote_chars rest
      else if c =? 13 then [92; 114] ++ quote_chars rest
      else if c <? 32 then unicode_escape c ++ quote_chars rest
      else if is_high_surrogate c then
        match rest with
        | d :: rest' =>
            if is_low_surrogate d then c :: d :: quote_chars rest'
            else unicode_escape c ++ quote_chars rest
        | [] => unicode_escape c
        end
      else if is_low_surrogate c then unicode_escape c ++ quote_chars rest
      else c :: quote_chars rest
  end.

Definition quote (s : jsstring) : jsstring := [34] ++ quote_chars s ++ [34].

(** [JSON.stringify(v)] without indentation. *)
Fixpoint JSON_stringify (v : json) : jsstring :=
  match v with
  | JNull => js "null"
  | JBool true => js "true"
  | JBool false => js "false"
  | JNum n => number_toString n
  | JStr s => quote s
  | JArr items =>
      [91] ++ join [44] (map JSON_stringify items) ++ [93]
  | JObj fields =>
      [123]
      ++ join [44] (map (fun kv => quote (fst kv) ++ [58] ++ JSON_stringify (snd kv))
                        fields)
      ++ [125]
  end.

(** Property access [v.k] on a value: [None] is [undefined]. *)
Fixpoint assoc (k : jsstring) (fields : list (jsstring * json)) : option json :=
  match fields with
  | [] => None
  | (k', v) :: rest => if decide (k = k') then Some v else assoc k rest
  end.

Definition get (k : jsstring) (v : json) : option json :=
  match v with JObj fields => assoc k fields | _ => None end.

(** Truthiness of a value that may be [undefined]. *)
Definition truthy (v : option json) : bool :=
  match v with
  | None | Some JNull | Some (JBool false) | Some (JNum 0) | Some (JStr []) => false
  | Some _ => true
  end.

(** [String(v)], as [new Error(v)] applies it to a defined message;
    [None] when the conversion throws a [TypeError].  An array is joined
    with commas, its [null] entries giving the empty text.  An object is
    converted by its [toString] property: a parsed object that has an entry
    of that name holds a value there that cannot be called, and neither it
    nor [valueOf] gives a primitive, so the conversion throws; without
    such an entry the inherited method gives ["[object Object]"]. *)
Fixpoint ToString (v : json) : option jsstring :=
  match v with
  | JNull => Some (js "null")
  | JBool true => Some (js "true")
  | JBool false => Some (js "false")
  | JNum n => Some (number_toString n)
  | JStr s => Some s
  | JArr items =>
      join [44]
        <$> (fix each (items : list json) : option (list jsstring) :=
               match items with
               | [] => Some []
               | x :: rest =>
                   match (match x with JNull => Some [] | _ => ToString x end) with
                   | Some t =>
                       match each rest with
                       | Some ts => Some (t :: ts)
                       | None => None
                       end
                   | None => None
                   end
               end) items
  | JObj fields =>
      match assoc (js "toString") fields with
      | Some _ => None
      | None => Some (js "[object Object]")
      end
  end.

(** ** The message framer of [LSPClient.handleData] *)

(** [s.startsWith(p)] under the [i] flag. *)
Fixpoint strip_prefix_ci (p s : jsstring) : option jsstring :=
  match p with
  | [] => Some s
  | a :: p' =>
      match s with
      | [] => None
      | b :: s' => if upper a =? upper b then strip_prefix_ci p' s' else None
      end
  end.

(** [headers.match(/Content-Length: (\d+)/i)]: the first capture group of
    the leftmost match, [None] for [null]. *)
Fixpoint contentLengthMatch (headers : jsstring) : option jsstring :=
  let here :=
    match strip_prefix_ci (js "Content-Length: ") headers with
    | Some rest =>
        match fst (span is_digit rest) with
        | [] => None
        | ds => Some ds
        end
    | None => None
    end in
  match here with
  | Some ds => Some ds
  | None =>
      match headers with
      | [] => None
      | _ :: headers' => contentLengthMatch headers'
      end
  end.

Section Framer.
(** What is done with each complete message body; the loop hands bodies
over in the order in which it cuts them out of the buffer. *)
Context {St : Type} (deliver : jsstring -> St -> St).

(** The [while (true)] loop of [handleData] on [this.messageBuffer].
Every turn that does not [break] removes at least the four code
units of the header separator, so [S (length buf)] turns are always
enough (see [handleData_loop_fuel]). *)
Fixpoint handleData_loop (fuel : nat) (buf : jsstring) (st : St)
: jsstring * St :=
match fuel with
| O => (buf, st)
| S fuel' =>
match indexOf CRLFCRLF buf with
| None => (buf, st)
| Some headerEnd =>
let headers := substring buf 0 headerEnd in
match contentLengthMatch headers with
| None => ([], st)
| Some digits =>
let contentLength := Z.to_nat (parseInt digits) in
let messageStart := (headerEnd + 4)%nat in
let messageEnd := (messageStart + contentLength)%nat in
if (length buf <? messageEnd)%nat then (buf, st)
else
  let messageContent := substring buf messageStart messageEnd in
  handleData_loop fuel' (substring_from buf messageEnd)
                  (deliver messageContent st)
end
end
end.

(** [handleData(data)] on the buffer alone. *)
Definition handleData_buffer (buf : jsstring) (data : list Z) (st : St)
: jsstring * St :=
let buf' := buf ++ utf8_decode data in
handleData_loop (S (length buf')) buf' st.
End Framer.

(** The decoder seen as [feed]: the bodies surfaced by one chunk. *)
Definition feed (buf : jsstring) (data : list Z) : jsstring * list jsstring :=
  handleData_buffer (fun body out => out ++ [body]) buf data [].

(** Feeding a sequence of chunks in order, collecting all outputs. *)
Fixpoint feed_all (buf : jsstring) (chunks : list (list Z))
  : jsstring * list jsstring :=
  match chunks with
  | [] => (buf, [])
  | data :: chunks' =>
      let '(buf1, out1) := feed buf data in
      let '(buf2, out2) := feed_all buf1 chunks' in
      (buf2, out1 ++ out2)
  end.

(** The string that [sendRequest] and [sendNotification] pass to
    [stdin.write]: [header + content]. *)
Definition header_of (content : jsstring) : jsstring :=
  js "Content-Length: " ++ number_toString (Buffer_byteLength content) ++ CRLFCRLF.

Definition request_content (id : Z) (method : jsstring) (params : json) : jsstring :=
  JSON_stringify
    (JObj [(js "jsonrpc", JStr (js "2.0")); (js "id", JNum id);
           (js "method", JStr method); (js "params", params)]).

Definition notification_content (method : jsstring) (params : json) : jsstring :=
  JSON_stringify
    (JObj [(js "jsonrpc", JStr (js "2.0"));
           (js "method", JStr method); (js "params", params)]).

(** ** The client object of [analyze_with_lsp.ts] *)

(** [new Error(message)]. *)
Record JsError : Type := Error { message : jsstring }.

(** How a promise ends; the value of a fulfilled promise may be
    [undefined] ([None]). *)
Inductive Outcome : Type :=
  | Resolved (value : option json)
  | Rejected (reason : JsError).

(** An entry of [pendingRequests].  [resolve] and [reject] are the two
    capabilities of one promise, named here by its handle. *)
Record PendingRequest : Type := {
  promise : nat;
  timeout : nat;
}.

(** The closure handed to [setTimeout] by [sendRequest]: it captures the
    request id, the method and the promise's [reject]. *)
Record Timer : Type := {
  timer_id : Z;
  timer_method : jsstring;
  timer_reject : nat;
  timer_ms : Z;
}.

(** A call of [this.emit], as seen by the listeners. *)
Inductive Emitted : Type :=
  | EmitNotification (method : json) (params : option json)
  | EmitExit (code : option Z).

(** The fields of the object, followed by the part of the runtime it acts
    on: the child's stdin, the armed timers, the promises it has created
    and the events it has emitted. *)
Record LSPClient : Type := {
  process : bool;
  messageBuffer : jsstring;
  nextRequestId : Z;
  pendingRequests : gmap Z PendingRequest;
  initialized : bool;
  stdin : list Z;
  timers : gmap nat Timer;
  nextTimer : nat;
  promises : gmap nat Outcome;
  nextPromise : nat;
  emitted : list Emitted;
}.

(** [new LSPClient(config)]. *)
Definition new_LSPClient : LSPClient := {|
  process := false; messageBuffer := []; nextRequestId := 1;
  pendingRequests := ∅; initialized := false;
  stdin := []; timers := ∅; nextTimer := 0%nat;
  promises := ∅; nextPromise := 0%nat; emitted := [];
|}.

Definition set_process (b : bool) (s : LSPClient) : LSPClient :=
  {| process := b; messageBuffer := messageBuffer s;
     nextRequestId := nextRequestId s; pendingRequests := pendingRequests s;
     initialized := initialized s; stdin := stdin s; timers := timers s;
     nextTimer := nextTimer s; promises := promises s;
     nextPromise := nextPromise s; emitted := emitted s |}.

Definition set_messageBuffer (b : jsstring) (s : LSPClient) : LSPClient :=
  {| process := process s; messageBuffer := b;
     nextRequestId := nextRequestId s; pendingRequests := pendingRequests s;
     initialized := initialized s; stdin := stdin s; timers := timers s;
     nextTimer := nextTimer s; promises := promises s;
     nextPromise := nextPromise s; emitted := emitted s |}.

Definition set_nextRequestId (n : Z) (s : LSPClient) : LSPClient :=
  {| process := process s; messageBuffer := messageBuffer s;
     nextRequestId := n; pendingRequests := pendingRequests s;
     initialized := initialized s; stdin := stdin s; timers := timers s;
     nextTimer := nextTimer s; promises := promises s;
     nextPromise := nextPromise s; emitted := emitted s |}.

Definition set_pendingRequests (m : gmap Z PendingRequest) (s : LSPClient)
  : LSPClient :=
  {| process := process s; messageBuffer := messageBuffer s;
     nextRequestId := nextRequestId s; pendingRequests := m;
     initialized := initialized s; stdin := stdin s; timers := timers s;
     nextTimer := nextTimer s; promises := promises s;
     nextPromise := nextPromise s; emitted := emitted s |}.

(** [this.process.stdin.write(text)]. *)
Definition write (text : jsstring) (s : LSPClient) : LSPClient :=
  {| process := process s; messageBuffer := messageBuffer s;
     nextRequestId := nextRequestId s; pendingRequests := pendingRequests s;
     initialized := initialized s; stdin := stdin s ++ utf8_encode text;
     timers := timers s; nextTimer := nextTimer s; promises := promises s;
     nextPromise := nextPromise s; emitted := emitted s |}.

(** [setTimeout(closure, ms)]: arms a timer and returns its handle. *)
Definition setTimeout (closure : Timer) (s : LSPClient) : nat * LSPClient :=
  (nextTimer s,
   {| process := process s; messageBuffer := messageBuffer s;
      nextRequestId := nextRequestId s; pendingRequests := pendingRequests s;
      initialized := initialized s; stdin := stdin s;
      timers := <[nextTimer s := closure]> (timers s);
      nextTimer := S (nextTimer s); promises := promises s;
      nextPromise := nextPromise s; emitted := emitted s |}).

(** [clearTimeout(t)]. *)
Definition clearTimeout (t : nat) (s : LSPClient) : LSPClient :=
  {| process := process s; messageBuffer := messageBuffer s;
     nextRequestId := nextRequestId s; pendingRequests := pendingRequests s;
     initialized := initialized s; stdin := stdin s;
     timers := delete t (timers s);
     nextTimer := nextTimer s; promises := promises s;
     nextPromise := nextPromise s; emitted := emitted s |}.

(** [new Promise(...)]: a fresh, unsettled promise. *)
Definition new_Promise (s : LSPClient) : nat * LSPClient :=
  (nextPromise s,
   {| process := process s; messageBuffer := messageBuffer s;
      nextRequestId := nextRequestId s; pendingRequests := pendingRequests s;
      initialized := initialized s; stdin := stdin s; timers := timers s;
      nextTimer := nextTimer s; promises := promises s;
      nextPromise := S (nextPromise s); emitted := emitted s |}).

(** Calling [resolve] or [reject] of promise [p]: only the first call on a
    promise has an effect. *)
Definition settle (p : nat) (o : Outcome) (s : LSPClient) : LSPClient :=
  match promises s !! p with
  | Some _ => s
  | None =>
      {| process := process s; messageBuffer := messageBuffer s;
         nextRequestId := nextRequestId s; pendingRequests := pendingRequests s;
         initialized := initialized s; stdin := stdin s; timers := timers s;
         nextTimer := nextTimer s; promises := <[p := o]> (promises s);
         nextPromise := nextPromise s; emitted := emitted s |}
  end.

(** [this.emit(...)]. *)
Definition emit (e : Emitted) (s : LSPClient) : LSPClient :=
  {| process := process s; messageBuffer := messageBuffer s;
     nextRequestId := nextRequestId s; pendingRequests := pendingRequests s;
     initialized := initialized s; stdin := stdin s; timers := timers s;
     nextTimer := nextTimer s; promises := promises s;
     nextPromise := nextPromise s; emitted := emitted s ++ [e] |}.

(** [pendingRequests.get(message.id)]: the keys are numbers, so only a
    numeric id can find an entry. *)
Definition pending_get (id : json) (s : LSPClient) : option (Z * PendingRequest) :=
  match id with
  | JNum n => (fun p => (n, p)) <$> pendingRequests s !! n
  | _ => None
  end.

(** [new Error(message.error.message)]; [None] when the conversion of
    the message to a string throws. *)
Definition remote_error (error : option json) : option JsError :=
  match error with
  | Some e =>
      match get (js "message") e with
      | Some m => Error <$> ToString m
      | None => Some (Error [])
      end
  | None => Some (Error [])
  end.

(** [LSPClient.handleMessage].  When [new Error] throws, the timer is
    already cleared and the entry deleted, the promise is left as it is,
    and the exception ends in the [catch] of [handleData]. *)
Definition handleMessage (msg : json) (s : LSPClient) : LSPClient :=
  match get (js "id") msg with
  | Some id =>
      match pending_get id s with
      | Some (n, pending) =>
          let s1 := clearTimeout (timeout pending) s in
          let s2 := set_pendingRequests (delete n (pendingRequests s1)) s1 in
          if truthy (get (js "error") msg)
          then match remote_error (get (js "error") msg) with
               | Some reason => settle (promise pending) (Rejected reason) s2
               | None => s2
               end
          else settle (promise pending)
                      (Resolved (get (js "result") msg)) s2
      | None => s
      end
  | None =>
      match get (js "method") msg with
      | Some method =>
          if truthy (Some method)
          then emit (EmitNotification method (get (js "params") msg)) s
          else s
      | None => s
      end
  end.

(** What a message does to the promise of the request it answers:
    [None] when [new Error] throws. *)
Definition completion (msg : json) : option Outcome :=
  if truthy (get (js "error") msg)
  then Rejected <$> remote_error (get (js "error") msg)
  else Some (Resolved (get (js "result") msg)).

Definition settle_with (p : nat) (o : option Outcome) (s : LSPClient)
  : LSPClient :=
  match o with
  | Some o => settle p o s
  | None => s
  end.

(** The error of a request whose timer fired. *)
Definition timed_out (method : jsstring) : JsError :=
  Error (js "Request " ++ method ++ js " timed out").

(** The timer [t] fires: its closure runs, once. *)
Definition timer_fires (t : nat) (s : LSPClient) : LSPClient :=
  match timers s !! t with
  | None => s
  | Some closure =>
      let s1 := clearTimeout t s in
      let s2 := set_pendingRequests
                  (delete (timer_id closure) (pendingRequests s1)) s1 in
      settle (timer_reject closure)
             (Rejected (timed_out (timer_method closure))) s2
  end.

(** The ['exit'] listener installed by [start]:
    [(code) => this.emit('exit', code)]. *)
Definition on_exit (code : option Z) (s : LSPClient) : LSPClient :=
  emit (EmitExit code) s.

(** [LSPClient.sendRequest]: the promise it returns, and the new state. *)
Definition sendRequest (method : jsstring) (params : json) (timeoutMs : Z)
    (s : LSPClient) : nat * LSPClient :=
  let '(p, s0) := new_Promise s in
  if negb (process s) then
    (p, settle p (Rejected (Error (js "Language server not started"))) s0)
  else
    let id := nextRequestId s0 in
    let s1 := set_nextRequestId (id + 1) s0 in
    let content := request_content id method params in
    let s2 := write (header_of content ++ content) s1 in
    let '(t, s3) :=
      setTimeout {| timer_id := id; timer_method := method;
                    timer_reject := p; timer_ms := timeoutMs |} s2 in
    (p, set_pendingRequests
          (<[id := {| promise := p; timeout := t |}]> (pendingRequests s3)) s3).

(** [LSPClient.sendNotification]: [inl] is the error thrown when the
    server is not running. *)
Definition sendNotification (method : jsstring) (params : json) (s : LSPClient)
  : JsError + LSPClient :=
  if negb (process s) then inl (Error (js "Language server not started"))
  else
    let content := notification_content method params in
    inr (write (header_of content ++ content) s).

Section Pump.
(** [JSON.parse]: [None] when it throws. *)
Variable JSON_parse : jsstring -> option json.

(** [try { this.handleMessage(JSON.parse(messageContent)) } catch {}]. *)
Definition dispatch (messageContent : jsstring) (s : LSPClient) : LSPClient :=
match JSON_parse messageContent with
| Some msg => handleMessage msg s
| None => s
end.

(** [LSPClient.handleData]. *)
Definition handleData (data : list Z) (s : LSPClient) : LSPClient :=
let '(buf, s') := handleData_buffer dispatch (messageBuffer s) data s in
set_messageBuffer buf s'.
End Pump.

(** ** The query wrappers of the client *)

Record Position : Type := { line : nat; character : nat }.
Record Range : Type := { range_start : Position; range_end : Position }.
Record Location : Type := { location_uri : jsstring; location_range : Range }.

Definition Position_json (p : Position) : json :=
  JObj [(js "line", JNum (Z.of_nat (line p)));
        (js "character", JNum (Z.of_nat (character p)))].

(** What an [await] of promise [p] has produced so far, seen through the
    code [k] that runs on its outcome: [None] while [p] is unsettled. *)
Definition awaited (k : Outcome -> Outcome) (p : nat) (s : LSPClient)
  : option Outcome :=
  k <$> promises s !! p.

(** [LSPClient.findReferences]: the request it issues ... *)
Definition findReferences (uri : jsstring) (position : Position)
    (includeDeclaration : bool) (s : LSPClient) : nat * LSPClient :=
  sendRequest (js "textDocument/references")
    (JObj [(js "textDocument", JObj [(js "uri", JStr uri)]);
           (js "position", Position_json position);
           (js "context",
            JObj [(js "includeDeclaration", JBool includeDeclaration)])])
    5000 s.

(** ... and its [try { return await ... || [] } catch { return [] }]. *)
Definition findReferences_returns (o : Outcome) : Outcome :=
  match o with
  | Resolved v => if truthy v then Resolved v else Resolved (Some (JArr []))
  | Rejected _ => Resolved (Some (JArr []))
  end.

(** [LSPClient.documentSymbols]. *)
Definition documentSymbols (uri : jsstring) (s : LSPClient) : nat * LSPClient :=
  sendRequest (js "textDocument/documentSymbol")
    (JObj [(js "textDocument", JObj [(js "uri", JStr uri)])]) 5000 s.

Definition documentSymbols_returns (o : Outcome) : Outcome :=
  match o with
  | Resolved v => if truthy v then Resolved v else Resolved (Some (JArr []))
  | Rejected _ => Resolved (Some (JArr []))
  end.

(** [LSPClient.hover]: the request ... *)
Definition hover (uri : jsstring) (position : Position) (s : LSPClient)
  : nat * LSPClient :=
  sendRequest (js "textDocument/hover")
    (JObj [(js "textDocument", JObj [(js "uri", JStr uri)]);
           (js "position", Position_json position)])
    3000 s.

(** ... and its [try { return await ... } catch { return null }]. *)
Definition hover_returns (o : Outcome) : Outcome :=
  match o with
  | Resolved v => Resolved v
  | Rejected _ => Resolved (Some JNull)
  end.

(** The synchronous part of [LSPClient.start]: the child is spawned with
    its three pipes, then [initialize] sends its request (default timeout
    of ten seconds). *)
Definition initialize_params (pid : Z) (rootUri : jsstring)
    (initializationOptions : json) : json :=
  JObj [(js "processId", JNum pid);
        (js "rootUri", JStr rootUri);
        (js "workspaceFolders",
         JArr [JObj [(js "uri", JStr rootUri); (js "name", JStr (js "workspace"))]]);
        (js "capabilities",
         JObj [(js "textDocument",
                JObj [(js "synchronization",
                       JObj [(js "didSave", JBool true); (js "didOpen", JBool true);
                             (js "didClose", JBool true); (js "didChange", JBool true)]);
                      (js "definition", JObj [(js "linkSupport", JBool true)]);
                      (js "references", JObj []);
                      (js "documentSymbol",
                       JObj [(js "hierarchicalDocumentSymbolSupport", JBool true)]);
                      (js "hover",
                       JObj [(js "contentFormat",
                              JArr [JStr (js "markdown"); JStr (js "plaintext")])]);
                      (js "signatureHelp",
                       JObj [(js "signatureInformation",
                              JObj [(js "parameterInformation",
                                     JObj [(js "labelOffsetSupport", JBool true)])])])]);
               (js "workspace",
                JObj [(js "applyEdit", JBool true);
                      (js "workspaceFolders", JBool true)])]);
        (js "initializationOptions", initializationOptions)].

Definition start (pid : Z) (rootUri : jsstring) (initializationOptions : json)
    (s : LSPClient) : nat * LSPClient :=
  sendRequest (js "initialize")
              (initialize_params pid rootUri initializationOptions)
              10000 (set_process true s).

(** ** The client object of [lsp_client.ts] *)

Module lsp_client_ts.

(** This client arms no timer: an entry of [pendingRequests] holds the
promise only. *)
Record LSPClient : Type := {
process : bool;
nextRequestId : Z;
pendingRequests : gmap Z nat;
stdin : list Z;
promises : gmap nat Outcome;
nextPromise : nat;
}.

(** [LSPClient.sendRequest]. *)
Definition sendRequest (method : jsstring) (params : json) (s : LSPClient)
: nat * LSPClient :=
let p := nextPromise s in
if negb (process s) then
(p, {| process := process s; nextRequestId := nextRequestId s;
 pendingRequests := pendingRequests s; stdin := stdin s;
 promises :=
 <[p := Rejected (Error (js "Language server not started"))]>
 (promises s);
 nextPromise := S p |})
else
let id := nextRequestId s in
let content := request_content id method params in
let data := header_of content ++ content in
(p, {| process := process s; nextRequestId := id + 1;
 pendingRequests := <[id := p]> (pendingRequests s);
 stdin := stdin s ++ utf8_encode data;
 promises := promises s; nextPromise := S p |}).

(** [LSPClient.sendNotification]. *)
Definition sendNotification (method : jsstring) (params : json) (s : LSPClient)
: JsError + LSPClient :=
if negb (process s) then inl (Error (js "Language server not started"))
else
let content := notification_content method params in
let data := header_of content ++ content in
inr {| process := process s; nextRequestId := nextRequestId s;
 pendingRequests := pendingRequests s;
 stdin := stdin s ++ utf8_encode data;
 promises := promises s; nextPromise := nextPromise s |}.

End lsp_client_ts.

(** ** The symbol index of [analyzeProject] *)

Definition SYMBOL_KINDS (kind : Z) : option jsstring :=
  match kind with
  | 1 => Some (js "file") | 2 => Some (js "module")
  | 3 => Some (js "namespace") | 4 => Some (js "package")
  | 5 => Some (js "class") | 6 => Some (js "method")
  | 7 => Some (js "property") | 8 => Some (js "field")
  | 9 => Some (js "constructor") | 10 => Some (js "enum")
  | 11 => Some (js "interface") | 12 => Some (js "function")
  | 13 => Some (js "variable") | 14 => Some (js "constant")
  | 15 => Some (js "string") | 16 => Some (js "number")
  | 17 => Some (js "boolean") | 18 => Some (js "array")
  | 19 => Some (js "object") | 20 => Some (js "key")
  | 21 => Some (js "null") | 22 => Some (js "enummember")
  | 23 => Some (js "struct") | 24 => Some (js "event")
  | 25 => Some (js "operator") | 26 => Some (js "typeparameter")
  | _ => None
  end.

(** A node of the outline returned by [documentSymbols]; no children and
    an empty list of children are flattened alike. *)
Inductive DocumentSymbol : Type :=
  | DocSym (name : jsstring) (kind : Z) (range : Range)
           (selectionRange : option Range) (detail : option jsstring)
           (children : list DocumentSymbol).

Record SymbolInfo : Type := {
  name : jsstring;
  fullName : jsstring;
  kind : Z;
  kindName : jsstring;
  uri : jsstring;
  file : jsstring;
  range : Range;
  selectionRange : option Range;
  detail : option jsstring;
}.

(** [flattenSymbols] on one node: the node, then its descendants. *)
Fixpoint flattenSymbol (uri file : jsstring) (parentName : option jsstring)
    (sym : DocumentSymbol) : list SymbolInfo :=
  match sym with
  | DocSym name kind range selectionRange detail children =>
      let fullName :=
        match parentName with
        | Some (c :: p) => (c :: p) ++ [46] ++ name
        | _ => name
        end in
      {| name := name; fullName := fullName; kind := kind;
         kindName := default (js "unknown") (SYMBOL_KINDS kind);
         uri := uri; file := file; range := range;
         selectionRange := selectionRange; detail := detail |}
      :: concat (map (flattenSymbol uri file (Some fullName)) children)
  end.

Definition flattenSymbols (symbols : list DocumentSymbol) (uri file : jsstring)
    (parentName : option jsstring) : list SymbolInfo :=
  concat (map (flattenSymbol uri file parentName) symbols).

(** [sym.selectionRange?.start || sym.range?.start]: [range] is a
    mandatory field of [SymbolInfo], so a position is always found. *)
Definition position_of (sym : SymbolInfo) : Position :=
  match selectionRange sym with
  | Some r => range_start r
  | None => range_start (range sym)
  end.

(** ** Analysis: unused symbols *)

Inductive Confidence : Type := high | medium.

Record UnusedSymbol : Type := {
  unused_name : jsstring;
  unused_kind : jsstring;
  unused_file : jsstring;
  unused_line : nat;
  referenceCount : nat;
  confidence : Confidence;
}.

(** One call of [client.findReferences], as the analysis makes it. *)
Record Query : Type := {
  query_uri : jsstring;
  query_position : Position;
  query_includeDeclaration : bool;
}.

(** class, method, interface, function *)
Definition exportableKinds : list Z := [5; 6; 11; 12].

Section Unused.
(** What [client.findReferences] returns to the analysis; the answer may
depend on how many queries came before. *)
Variable client_findReferences : nat -> Query -> list Location.

(** One turn of the loop over [allSymbols]; the state is the list of
queries made so far and [result.unusedSymbols]. *)
Definition unused_step (st : list Query * list UnusedSymbol) (sym : SymbolInfo)
: list Query * list UnusedSymbol :=
let '(queries, unusedSymbols) := st in
if negb (existsb (Z.eqb (kind sym)) exportableKinds) then st
else if startsWith (name sym) (js "_") || startsWith (name sym) (js "#")
then st
else
let position := position_of sym in
let query := {| query_uri := uri sym; query_position := position;
      query_includeDeclaration := false |} in
let refs := client_findReferences (length queries) query in
if (length refs =? 0)%nat then
(queries ++ [query],
 unusedSymbols ++
 [{| unused_name := name sym; unused_kind := kindName sym;
 unused_file := file sym; unused_line := (line position + 1)%nat;
 referenceCount := 0%nat;
 confidence := if (kind sym =? 5) || (kind sym =? 12)
             then high else medium |}])
else (queries ++ [query], unusedSymbols).

Definition analyze_unused (allSymbols : list SymbolInfo)
: list Query * list UnusedSymbol :=
fold_left unused_step allSymbols ([], []).
End Unused.

(** ** Analysis: dead parameters *)

Record DeadParameter : Type := {
  functionName : jsstring;
  parameterName : jsstring;
  dead_file : jsstring;
  dead_line : nat;
}.

(** [paramMatch[1]] for [sigLine.match] on the pattern "an opening
    parenthesis, a captured run of characters other than the closing
    parenthesis, a closing parenthesis": the capture of the leftmost match
    is the text between the first opening parenthesis and the first
    closing one after it. *)
Definition paramMatch (sigLine : jsstring) : option jsstring :=
  match snd (span (fun c => negb (c =? 40)) sigLine) with
  | [] => None
  | _ :: after =>
      match span (fun c => negb (c =? 41)) after with
      | (_, []) => None
      | (inside, _ :: _) => Some inside
      end
  end.

(** [s.trim()]. *)
Definition trim (s : jsstring) : jsstring :=
  rev (snd (span is_space (rev (snd (span is_space s))))).

(** [nameMatch[1]] for the match of [p.trim()] against a leading run of
    word characters, [None] for [null]. *)
Definition nameMatch (p : jsstring) : option jsstring :=
  match fst (span is_word (trim p)) with
  | [] => None
  | nm => Some nm
  end.

(** [paramMatch[1].split(',').map(...).filter(Boolean)]. *)
Definition params_of (inside : jsstring) : list jsstring :=
  omap nameMatch (split_on 44 inside).

(** [lines.slice(a, b)]. *)
Definition slice (lines : list jsstring) (a b : nat) : list jsstring :=
  take (b - a) (drop a lines).

Definition word_at (c : option Z) : bool :=
  match c with Some x => is_word x | None => false end.

(** The assertion [\b] between two neighbouring positions. *)
Definition boundary (prev next : option Z) : bool :=
  xorb (word_at prev) (word_at next).

(** [paramRegex.test(text)], where [paramRegex] is built from [\b], [param]
    and [\b], for a [param] made of word
    characters (which is what [nameMatch] captures): the pattern is then
    the literal [param] between two [\b] assertions.  [prev] is the code
    unit before the current position. *)
Fixpoint paramRegex_test_from (prev : option Z) (param text : jsstring) : bool :=
  (boundary prev (head text)
   && match strip_prefix param text with
      | Some rest => boundary (last param) (head rest)
      | None => false
      end)
  || match text with
     | [] => false
     | c :: text' => paramRegex_test_from (Some c) param text'
     end.

Definition paramRegex_test (param text : jsstring) : bool :=
  paramRegex_test_from None param text.

Definition is_receiver (param : jsstring) : bool :=
  bool_decide (param = js "self") || bool_decide (param = js "this")
  || bool_decide (param = js "cls").

Section Files.
(** [path.join], the project path and the contents read in phase 1. *)
Variable path_join : jsstring -> jsstring -> jsstring.
Variable projectPath : jsstring.
Variable fileContents : gmap jsstring jsstring.

(** [bodyLines] of a symbol in a file of the given lines. *)
Definition bodyLines_of (lines : list jsstring) (sym : SymbolInfo) : jsstring :=
let startLine := line (range_start (range sym)) in
let endLine := Nat.min (line (range_end (range sym))) (length lines - 1) in
join [LF] (slice lines (startLine + 1) (endLine + 1)).

(** One turn of the loop over [allSymbols]. *)
Definition dead_step (deadParameters : list DeadParameter) (sym : SymbolInfo)
: list DeadParameter :=
if negb (bool_decide (kindName sym = js "function")
 || bool_decide (kindName sym = js "method"))
then deadParameters
else
match fileContents !! path_join projectPath (file sym) with
| None | Some [] => deadParameters
| Some content =>
let lines := split_on LF content in
let startLine := line (range_start (range sym)) in
let sigLine := default [] (lines !! startLine) in
match paramMatch sigLine with
| None => deadParameters
| Some inside =>
let bodyLines := bodyLines_of lines sym in
fold_left
(fun out param =>
   if is_receiver param then out
   else if negb (paramRegex_test param bodyLines) then
     out ++ [{| functionName := fullName sym;
                parameterName := param;
                dead_file := file sym;
                dead_line := (startLine + 1)%nat |}]
   else out)
(params_of inside) deadParameters
end
end.

Definition analyze_dead_params (allSymbols : list SymbolInfo)
: list DeadParameter :=
fold_left dead_step allSymbols [].
End Files.

(** ** Analysis: similar types *)

Record TypeInfo : Type := {
  type_name : jsstring;
  type_file : jsstring;
  type_line : nat;
  properties : list jsstring;
}.

Record SimilarTypeGroup : Type := {
  types : TypeInfo * TypeInfo;
  sharedProperties : list jsstring;
  similarity : Z;
}.

(** [propMatch[1]] for the match of a line against "optional white space,
    a captured run of word characters, optional white space, an optional
    question mark, optional white space, a colon", anchored at the start
    of the line. *)
Definition propMatch (text : jsstring) : option jsstring :=
  let '(w, r1) := span is_word (snd (span is_space text)) in
  match w with
  | [] => None
  | _ =>
      let r2 := snd (span is_space r1) in
      let r3 := match r2 with 63 :: r => r | _ => r2 end in
      match snd (span is_space r3) with
      | 58 :: _ => Some w
      | _ => None
      end
  end.

(** The [for] loop of [extractTypeProperties] over the lines still to
    visit. *)
Fixpoint extract_loop (lines : list jsstring) (braceCount : Z) (started : bool)
    (properties : list jsstring) : list jsstring :=
  match lines with
  | [] => properties
  | text :: rest =>
      let started1 := started || includes_char 123 text in
      let braceCount1 :=
        if includes_char 123 text then braceCount + count_char 123 text
        else braceCount in
      let braceCount2 :=
        if includes_char 125 text then braceCount1 - count_char 125 text
        else braceCount1 in
      let properties1 :=
        if started1 && (0 <? braceCount2) then
          match propMatch text with
          | Some p => properties ++ [p]
          | None => properties
          end
        else properties in
      if started1 && (braceCount2 =? 0) then properties1
      else extract_loop rest braceCount2 started1 properties1
  end.

(** [extractTypeProperties]: at most fifty lines from [startLine] on.  The
    third parameter of the source function is not used by it. *)
Definition extractTypeProperties (content : jsstring) (startLine : nat)
    (name : jsstring) : list jsstring :=
  let lines := split_on LF content in
  extract_loop (take 50 (drop startLine lines)) 0 false [].

(** [calculateSimilarity].  The second component is the quotient
    [shared.length / union.size] as the fraction of the two counts, not
    reduced; the Number that the division gives is [to_double] of it. *)
Definition calculateSimilarity (props1 props2 : list jsstring)
  : list jsstring * Q :=
  let set2 : gset jsstring := list_to_set props2 in
  let shared := filter (fun p => p ∈ set2) props1 in
  let union : gset jsstring := list_to_set (props1 ++ props2) in
  let similarity :=
    if (0 <? size union)%nat
    then Qmake (Z.of_nat (length shared)) (Pos.of_nat (size union))
    else 0%Q in
  (shared, similarity).

(** A Number: an IEEE 754 double, of precision 53 and exponents up to
    1024. *)
Definition double : Type := SpecFloat.spec_float.

(** The Number of an integer, which is exact below [2 ^ 53]. *)
Definition Number (n : Z) : double :=
  SpecFloat.binary_normalize 53 1024 n 0 false.

(** [x / y] and [x * y], rounded to nearest, ties to even. *)
Definition double_div (x y : double) : double := SpecFloat.SFdiv 53 1024 x y.
Definition double_mul (x y : double) : double := SpecFloat.SFmul 53 1024 x y.

(** [x >= y]. *)
Definition double_ge (x y : double) : bool := SpecFloat.SFleb y x.

(** The rational number that a finite double stands for. *)
Definition double_value (x : double) : option Q :=
  match x with
  | SpecFloat.S754_zero _ => Some 0%Q
  | SpecFloat.S754_finite sign m e =>
      let n := if sign then Z.neg m else Z.pos m in
      Some (if 0 <=? e then inject_Z (n * 2 ^ e)
            else Qmake n (Z.to_pos (2 ^ (- e))))
  | _ => None
  end.

(** [Math.round(x)] for a finite [x]: the integer nearest to the value of
    [x], the larger one of the two when [x] is half-way.  [Math.round]
    gives back an infinity or [NaN] as it is; such a value is no integer
    and is not met here, where [x] is a hundred times a quotient of two
    counts. *)
Definition Math_round (x : double) : Z :=
  match double_value x with
  | Some q => Qfloor (q + (1 # 2))%Q
  | None => 0
  end.

(** The Number of [shared.length / union.size]. *)
Definition to_double (q : Q) : double :=
  double_div (Number (Qnum q)) (Number (Z.pos (Qden q))).

(** [0.5] *)
Definition SIMILARITY_THRESHOLD : double :=
  SpecFloat.S754_finite false 4503599627370496 (-53).

(** [[a, b].sort().join('|')]. *)
Definition pairKey (a b : jsstring) : jsstring :=
  if js_lt b a then b ++ [124] ++ a else a ++ [124] ++ b.

(** The body of the inner loop on the pair [(t1, t2)]; the state is
    [processedPairs] and [result.similarTypes]. *)
Definition compare_types (t1 t2 : TypeInfo)
    (st : gset jsstring * list SimilarTypeGroup)
  : gset jsstring * list SimilarTypeGroup :=
  let '(processedPairs, similarTypes) := st in
  if bool_decide (type_name t1 = type_name t2) then st
  else
    let key := pairKey (type_name t1) (type_name t2) in
    if bool_decide (key ∈ processedPairs) then st
    else
      let processedPairs1 := processedPairs ∪ {[key]} in
      let '(shared, sim) := calculateSimilarity (properties t1) (properties t2) in
      let similarity := to_double sim in
      if double_ge similarity SIMILARITY_THRESHOLD && (2 <=? length shared)%nat then
        (processedPairs1,
         similarTypes ++ [{| types := (t1, t2); sharedProperties := shared;
                             similarity :=
                               Math_round (double_mul similarity (Number 100)) |}])
      else (processedPairs1, similarTypes).

(** The test that [compare_types] makes on a pair, and the group that it
    pushes when the test passes. *)
Definition similarity_test (t1 t2 : TypeInfo) : bool :=
  let '(shared, sim) := calculateSimilarity (properties t1) (properties t2) in
  double_ge (to_double sim) SIMILARITY_THRESHOLD && (2 <=? length shared)%nat.

Definition pushed_group (t1 t2 : TypeInfo) : SimilarTypeGroup :=
  let '(shared, sim) := calculateSimilarity (properties t1) (properties t2) in
  {| types := (t1, t2); sharedProperties := shared;
     similarity := Math_round (double_mul (to_double sim) (Number 100)) |}.

(** The loop on [j] for a fixed [i], then the loop on [i]. *)
Definition compare_with (t1 : TypeInfo) (later : list TypeInfo)
    (st : gset jsstring * list SimilarTypeGroup)
  : gset jsstring * list SimilarTypeGroup :=
  fold_left (fun st t2 => compare_types t1 t2 st) later st.

Fixpoint compare_all (ts : list TypeInfo)
    (st : gset jsstring * list SimilarTypeGroup)
  : gset jsstring * list SimilarTypeGroup :=
  match ts with
  | [] => st
  | t1 :: later => compare_all later (compare_with t1 later st)
  end.

(** [similarTypes.sort((a, b) => b.similarity - a.similarity)]: the sort
    is stable, so a group goes after the groups that are at least as
    similar. *)
Fixpoint insert_by_similarity (g : SimilarTypeGroup) (sorted : list SimilarTypeGroup)
  : list SimilarTypeGroup :=
  match sorted with
  | [] => [g]
  | h :: rest =>
      if similarity h <? similarity g then g :: sorted
      else h :: insert_by_similarity g rest
  end.

Definition sort_by_similarity (groups : list SimilarTypeGroup)
  : list SimilarTypeGroup :=
  fold_left (fun sorted g => insert_by_similarity g sorted) groups [].

Section SimilarTypes.
Variable path_join : jsstring -> jsstring -> jsstring.
Variable projectPath : jsstring.
Variable fileContents : gmap jsstring jsstring.

(** The first loop: the candidate list [types]. *)
Definition collect_step (ts : list TypeInfo) (sym : SymbolInfo) : list TypeInfo :=
if negb (bool_decide (kindName sym = js "interface")
 || bool_decide (kindName sym = js "class"))
then ts
else
match fileContents !! path_join projectPath (file sym) with
| None | Some [] => ts
| Some content =>
let props :=
extractTypeProperties content (line (range_start (range sym)))
                  (name sym) in
if (2 <=? length props)%nat then
ts ++ [{| type_name := fullName sym; type_file := file sym;
      type_line := (line (range_start (range sym)) + 1)%nat;
      properties := props |}]
else ts
end.

Definition collect_types (allSymbols : list SymbolInfo) : list TypeInfo :=
fold_left collect_step allSymbols [].

Definition analyze_similar_types (allSymbols : list SymbolInfo)
: list SimilarTypeGroup :=
sort_by_similarity (snd (compare_all (collect_types allSymbols) (∅, []))).
End SimilarTypes.

(** ** Runs of the client *)

(** What can happen to a client: calls of its methods and callbacks of the
    runtime (a message handed to [handleMessage], a timer firing, the
    child's exit). *)
Inductive Action : Type :=
  | CallSendRequest (method : jsstring) (params : json) (timeoutMs : Z)
  | CallSendNotification (method : jsstring) (params : json)
  | OnMessage (msg : json)
  | OnTimer (t : nat)
  | OnExit (code : option Z).

Definition step (s : LSPClient) (a : Action) : LSPClient :=
  match a with
  | CallSendRequest method params timeoutMs =>
      snd (sendRequest method params timeoutMs s)
  | CallSendNotification method params =>
      match sendNotification method params s with
      | inr s' => s'
      | inl _ => s
      end
  | OnMessage msg => handleMessage msg s
  | OnTimer t => timer_fires t s
  | OnExit code => on_exit code s
  end.

Definition run (s : LSPClient) (actions : list Action) : LSPClient :=
  fold_left step actions s.

(** The request ids allocated along a run, in order. *)
Fixpoint issued_ids (s : LSPClient) (actions : list Action) : list Z :=
  match actions with
  | [] => []
  | a :: rest =>
      match a with
      | CallSendRequest _ _ _ =>
          if process s then nextRequestId s :: issued_ids (step s a) rest
          else issued_ids (step s a) rest
      | _ => issued_ids (step s a) rest
      end
  end.

(** Several requests sent one after the other, none awaited: the promises
    returned to the callers, in order. *)
Fixpoint send_all (reqs : list (jsstring * json * Z)) (s : LSPClient)
  : list nat * LSPClient :=
  match reqs with
  | [] => ([], s)
  | (method, params, timeoutMs) :: rest =>
      let '(p, s1) := sendRequest method params timeoutMs s in
      let '(ps, s2) := send_all rest s1 in
      (p :: ps, s2)
  end.

(** A response message carrying a result, and one carrying an error. *)
Definition response (id : Z) (result : json) : json :=
  JObj [(js "jsonrpc", JStr (js "2.0")); (js "id", JNum id);
        (js "result", result)].

Definition error_response (id : Z) (code : Z) (msg : jsstring) : json :=
  JObj [(js "jsonrpc", JStr (js "2.0")); (js "id", JNum id);
        (js "error", JObj [(js "code", JNum code); (js "message", JStr msg)])].

(** The invariant of the client: every pending request has its own armed
    timer and its own unsettled promise, every armed timer belongs to a
    pending request, and the counters are ahead of everything in use. *)
Record client_inv (s : LSPClient) : Prop := {
  inv_pending :
    forall id e, pendingRequests s !! id = Some e ->
      id < nextRequestId s /\ (promise e < nextPromise s)%nat
      /\ promises s !! promise e = None
      /\ exists c, timers s !! timeout e = Some c
                   /\ timer_id c = id /\ timer_reject c = promise e;
  inv_timers :
    forall t c, timers s !! t = Some c ->
      (t < nextTimer s)%nat
      /\ pendingRequests s !! timer_id c
         = Some {| promise := timer_reject c; timeout := t |};
  inv_promises :
    forall p o, promises s !! p = Some o -> (p < nextPromise s)%nat;
  inv_callers :
    forall id1 id2 e1 e2,
      pendingRequests s !! id1 = Some e1 ->
      pendingRequests s !! id2 = Some e2 ->
      promise e1 = promise e2 -> id1 = id2;
}.

(** ** Statements of the specification, for comparison *)

(** The wire format as the specification words it, in bytes:
    ["Length: " + byteLengthOfBody + "\r\n\r\n" + body]. *)
Definition spec_wire_message (body : jsstring) : list Z :=
  js "Length: " ++ number_toString (Z.of_nat (length (utf8_encode body)))
  ++ CRLFCRLF ++ utf8_encode body.

(** The same with the header field of the Language Server Protocol,
    [Content-Length]. *)
Definition lsp_wire_message (body : jsstring) : list Z :=
  js "Content-Length: "
  ++ number_toString (Z.of_nat (length (utf8_encode body)))
  ++ CRLFCRLF ++ utf8_encode body.

(** A client whose server is running, before any request. *)
Definition started_client : LSPClient := set_process true new_LSPClient.

Definition started_client_ts : lsp_client_ts.LSPClient :=
  {| lsp_client_ts.process := true; lsp_client_ts.nextRequestId := 1;
     lsp_client_ts.pendingRequests := ∅; lsp_client_ts.stdin := [];
     lsp_client_ts.promises := ∅; lsp_client_ts.nextPromise := 0%nat |}.

(** The Jaccard similarity of two sets of names: the size of the
    intersection over the size of the union. *)
Definition jaccard (a b : gset jsstring) : Q :=
  Qmake (Z.of_nat (size (a ∩ b))) (Pos.of_nat (size (a ∪ b))).

(** [param] occurs in [text] as a whole word: no word character right
    before it and none right after it. *)
Definition occurs_as_word (param text : jsstring) : Prop :=
  exists before after,
    text = before ++ param ++ after
    /\ word_at (last before) = false
    /\ word_at (head after) = false.

(** A string whose code units are all in the ASCII range. *)
Definition is_ascii (s : jsstring) : Prop := Forall (fun c => c < 128) s.


(** ** What the unused-symbol detector is expected to look at *)

(** A symbol of exportable kind (class 5, method 6, interface 11,
    function 12) whose name does not start with ['_'] or ['#']. *)
Definition unused_candidate (sym : SymbolInfo) : Prop :=
  (kind sym = 5 \/ kind sym = 6 \/ kind sym = 11 \/ kind sym = 12)
  /\ startsWith (name sym) (js "_") = false
  /\ startsWith (name sym) (js "#") = false.

#[global] Instance unused_candidate_dec sym : Decision (unused_candidate sym).
Proof. unfold unused_candidate. apply _. Defined.

(** The query made for a symbol and the finding reported for it. *)
Definition unused_query (sym : SymbolInfo) : Query :=
  {| query_uri := uri sym; query_position := position_of sym;
     query_includeDeclaration := false |}.

Definition unused_finding (sym : SymbolInfo) : UnusedSymbol :=
  {| unused_name := name sym; unused_kind := kindName sym;
     unused_file := file sym; unused_line := (line (position_of sym) + 1)%nat;
     referenceCount := 0%nat;
     confidence := if decide (kind sym = 5 \/ kind sym = 12)
                   then high else medium |}.


(** ** Sample inputs *)

Definition sample_range (first last : nat) : Range :=
  {| range_start := {| line := first; character := 0 |};
     range_end := {| line := last; character := 1 |} |}.

(** A symbol as [flattenSymbols] builds it for a top-level declaration. *)
Definition sample_symbol (nm : string) (k : Z) (path : string)
    (first last : nat) : SymbolInfo :=
  {| name := js nm; fullName := js nm; kind := k;
     kindName := default (js "unknown") (SYMBOL_KINDS k);
     uri := js "file:///project/" ++ js path; file := js path;
     range := sample_range first last; selectionRange := None;
     detail := None |}.

(** [path.join] on a directory and a relative path without dots. *)
Definition sample_join (dir rel : jsstring) : jsstring := dir ++ [47] ++ rel.

(** The text of a file given by its lines. *)
Definition text_of (lines : list string) : jsstring := join [LF] (map js lines).


(** A source file with four interfaces: [A] and [B] share two of their
    properties, [C] and [D] are textually identical and have one. *)
Definition sample_types_ts : jsstring :=
  text_of ["interface A {"; "  label: string;"; "  data: number;"; "}";
           "interface B {"; "  label: string;"; "  data: number;";
           "  extra?: boolean;"; "}";
           "interface C {"; "  label: string;"; "}";
           "interface D {"; "  label: string;"; "}"].

Definition sample_types_files : gmap jsstring jsstring :=
  {[ js "/project/types.ts" := sample_types_ts ]}.

Definition sample_A : SymbolInfo := sample_symbol "A" 11 "types.ts" 0 3.
Definition sample_B : SymbolInfo := sample_symbol "B" 11 "types.ts" 4 8.
Definition sample_C : SymbolInfo := sample_symbol "C" 11 "types.ts" 9 11.
Definition sample_D : SymbolInfo := sample_symbol "D" 11 "types.ts" 12 14.

Definition sample_type_A : TypeInfo :=
  {| type_name := js "A"; type_file := js "types.ts"; type_line := 1;
     properties := [js "label"; js "data"] |}.

Definition sample_type_B : TypeInfo :=
  {| type_name := js "B"; type_file := js "types.ts"; type_line := 5;
     properties := [js "label"; js "data"; js "extra"] |}.

Definition sample_group_AB : SimilarTypeGroup :=
  {| types := (sample_type_A, sample_type_B);
     sharedProperties := [js "label"; js "data"]; similarity := 67 |}.


(** ** What the similar-types detector is expected to report *)

Definition property_set (t : TypeInfo) : gset jsstring :=
  list_to_set (properties t).

(** The test of the specification on a pair of types: Jaccard similarity
    at or above the floor of one half, and at least two shared
    properties. *)
Definition similar_enough (t1 t2 : TypeInfo) : Prop :=
  (1 # 2 <= jaccard (property_set t1) (property_set t2))%Q
  /\ (2 <= size (property_set t1 ∩ property_set t2))%nat.

(** The pair of the candidates at [i] and [j] comes after a pair of
    differently named candidates that has the key [key]: the loops meet
    the pairs [(i', j')], [i' < j'], row by row. *)
Definition compared_before (candidates : list TypeInfo) (i j : nat)
    (key : jsstring) : Prop :=
  exists i' j' a b,
    (i' < j')%nat /\ (i' < i \/ (i' = i /\ j' < j))%nat
    /\ candidates !! i' = Some a /\ candidates !! j' = Some b
    /\ type_name a <> type_name b
    /\ pairKey (type_name a) (type_name b) = key.

(** The pairs that the detector compares: two candidates [t1] and [t2],
    [t1] before [t2] in the list, of different names, not preceded by a
    pair of differently named candidates that has the same key. *)
Definition compared_pair (candidates : list TypeInfo) (i j : nat)
    (t1 t2 : TypeInfo) : Prop :=
  (i < j)%nat /\ candidates !! i = Some t1 /\ candidates !! j = Some t2
  /\ type_name t1 <> type_name t2
  /\ ~ compared_before candidates i j
        (pairKey (type_name t1) (type_name t2)).

(** The key of the pair of types of a finding. *)
Definition group_key (g : SimilarTypeGroup) : jsstring :=
  pairKey (type_name (fst (types g))) (type_name (snd (types g))).

(** [z] is an integer nearest to [q]. *)
Definition nearest_integer (q : Q) (z : Z) : Prop :=
  (q - (1 # 2) <= inject_Z z <= q + (1 # 2))%Q.


(** Three files: interface [A] with properties [x], [y]; an interface [B]
    with [p], [q]; another interface [B] with [x], [y]. *)
Definition sample_xy (nm : string) : jsstring :=
  text_of [("interface " ++ nm ++ " {")%string; "  x: number;"; "  y: number;"; "}"].

Definition sample_pq (nm : string) : jsstring :=
  text_of [("interface " ++ nm ++ " {")%string; "  p: number;"; "  q: number;"; "}"].

Definition sample_three_files : gmap jsstring jsstring :=
  {[ js "/project/a.ts" := sample_xy "A";
     js "/project/b.ts" := sample_pq "B";
     js "/project/c.ts" := sample_xy "B" ]}.

Definition sample_three_symbols : list SymbolInfo :=
  [sample_symbol "A" 11 "a.ts" 0 3; sample_symbol "B" 11 "b.ts" 0 3;
   sample_symbol "B" 11 "c.ts" 0 3].

(** A file in which the interface [P] has a nested object type: the
    scanner returns [x] twice for it, [x; inner; x], and [x; y; z] for
    [Q]. *)
Definition sample_nested_ts : jsstring :=
  text_of ["interface P {"; "  x: number;"; "  inner: {"; "    x: number;";
           "  };"; "}";
           "interface Q {"; "  x: number;"; "  y: number;"; "  z: number;"; "}"].

Definition sample_nested_files : gmap jsstring jsstring :=
  {[ js "/project/nested.ts" := sample_nested_ts ]}.

Definition sample_P : SymbolInfo := sample_symbol "P" 11 "nested.ts" 0 5.
Definition sample_Q : SymbolInfo := sample_symbol "Q" 11 "nested.ts" 6 10.

Definition sample_type (nm path : string) (props : list string) : TypeInfo :=
  {| type_name := js nm; type_file := js path; type_line := 1;
     properties := map js props |}.


(** ** What the dead-parameter detector is expected to report *)

Definition dead_parameter (sym : SymbolInfo) (param : jsstring) : DeadParameter :=
  {| functionName := fullName sym; parameterName := param;
     dead_file := file sym;
     dead_line := (line (range_start (range sym)) + 1)%nat |}.

(** The declaration line of a symbol in a file. *)
Definition sigLine_of (content : jsstring) (sym : SymbolInfo) : jsstring :=
  default [] (split_on LF content !! line (range_start (range sym))).


(** ** Streams of framed messages *)

(** The text of one message on the wire: [header + content]. *)
Definition framed (body : jsstring) : jsstring := header_of body ++ body.

(** [partial] is the beginning of [whole], with something still missing. *)
Definition proper_prefix (partial whole : jsstring) : Prop :=
  exists missing, missing <> [] /\ whole = partial ++ missing.


(** The chunks of a stream handed to [handleData] one after the other. *)
Definition handleData_all (JSON_parse : jsstring -> option json)
    (chunks : list (list Z)) (s : LSPClient) : LSPClient :=
  fold_left (fun s data => handleData JSON_parse data s) chunks s.


(** A stand-in for [JSON.parse] on the texts of a few known messages:
    the first known message whose serialisation is the text. *)
Definition sample_parse (known : list json) (text : jsstring) : option json :=
  List.find (fun m => bool_decide (JSON_stringify m = text)) known.


(** ** Histories of a client *)

(** Everything that happens to a client: an action, or a chunk of bytes
    read from the child's stdout. *)
Inductive Event : Type :=
  | Act (a : Action)
  | Data (data : list Z).

Definition react (JSON_parse : jsstring -> option json) (s : LSPClient)
    (ev : Event) : LSPClient :=
  match ev with
  | Act a => step s a
  | Data data => handleData JSON_parse data s
  end.

Definition history (JSON_parse : jsstring -> option json) (s : LSPClient)
    (events : list Event) : LSPClient :=
  fold_left (react JSON_parse) events s.

(** A notification message, and what the handlers receive for it. *)
Definition notification (method : jsstring) (params : json) : json :=
  JObj [(js "jsonrpc", JStr (js "2.0")); (js "method", JStr method);
        (js "params", params)].

Definition notified (note : jsstring * json) : Emitted :=
  EmitNotification (JStr (fst note)) (Some (snd note)).

(** ** Outlines and their flattening *)

Definition symbol_name (sym : DocumentSymbol) : jsstring :=
  match sym with DocSym name _ _ _ _ _ => name end.

Definition symbol_children (sym : DocumentSymbol) : list DocumentSymbol :=
  match sym with DocSym _ _ _ _ _ children => children end.

(** [nested_in symbols ancestors sym]: [sym] is a node of the outline
    [symbols], below the nodes named [ancestors] (outermost first). *)
Inductive nested_in : list DocumentSymbol -> list jsstring -> DocumentSymbol -> Prop :=
  | nested_here symbols sym :
      sym ∈ symbols -> nested_in symbols [] sym
  | nested_below symbols parent ancestors sym :
      parent ∈ symbols ->
      nested_in (symbol_children parent) ancestors sym ->
      nested_in symbols (symbol_name parent :: ancestors) sym.

(** The number of nodes of an outline. *)
Fixpoint count_symbols (sym : DocumentSymbol) : nat :=
  match sym with
  | DocSym _ _ _ _ _ children => S (list_sum (map count_symbols children))
  end.

(** The text put before the name of a node below [parentName]. *)
Definition qualifier (parentName : option jsstring) : jsstring :=
  match parentName with
  | Some (c :: p) => (c :: p) ++ [46]
  | _ => []
  end.

(** The entry of a node, once its qualified name is known. *)
Definition symbol_info (uri file qualified : jsstring) (sym : DocumentSymbol)
  : SymbolInfo :=
  match sym with
  | DocSym name kind range selectionRange detail _ =>
      {| name := name; fullName := qualified; kind := kind;
         kindName := default (js "unknown") (SYMBOL_KINDS kind);
         uri := uri; file := file; range := range;
         selectionRange := selectionRange; detail := detail |}
  end.

(** An outline as the TypeScript server reports it for a class with two
    methods followed by a function. *)
Definition sample_outline : list DocumentSymbol :=
  [DocSym (js "Store") 5 (sample_range 0 9) None None
     [DocSym (js "get") 6 (sample_range 1 3) None None [];
      DocSym (js "put") 6 (sample_range 4 8) None None
        [DocSym (js "entry") 13 (sample_range 5 5) None None []]];
   DocSym (js "open") 12 (sample_range 11 13) None None []].

(** ** The life cycle of the client *)

Definition set_initialized (b : bool) (s : LSPClient) : LSPClient :=
  {| process := process s; messageBuffer := messageBuffer s;
     nextRequestId := nextRequestId s; pendingRequests := pendingRequests s;
     initialized := b; stdin := stdin s; timers := timers s;
     nextTimer := nextTimer s; promises := promises s;
     nextPromise := nextPromise s; emitted := emitted s |}.

(** The rest of [LSPClient.start], run when the promise of the
    [initialize] request has settled with [o]: [initialize] sends the
    [initialized] notification, then [start] sets [this.initialized].
    [inl] is the reason with which the promise of [start] is rejected. *)
Definition start_resumes (o : Outcome) (s : LSPClient) : JsError + LSPClient :=
  match o with
  | Rejected reason => inl reason
  | Resolved _ =>
      match sendNotification (js "initialized") (JObj []) s with
      | inl reason => inl reason
      | inr s' => inr (set_initialized true s')
      end
  end.

(** [LSPClient.shutdown] up to its [await]: the promise it waits for, if
    any. *)
Definition shutdown (s : LSPClient) : option nat * LSPClient :=
  if negb (initialized s) then (None, s)
  else
    let '(p, s') := sendRequest (js "shutdown") (JObj []) 2000 s in
    (Some p, s').

(** The rest of [shutdown], run when that promise has settled with [o]:
    the [exit] notification is sent only after an answer, whatever is
    thrown on the way is dropped, and the child is killed and forgotten
    in every case. *)
Definition shutdown_resumes (o : Outcome) (s : LSPClient) : LSPClient :=
  let s1 :=
    match o with
    | Resolved _ =>
        match sendNotification (js "exit") (JObj []) s with
        | inr s' => s'
        | inl _ => s
        end
    | Rejected _ => s
    end in
  set_initialized false (set_process false s1).

(** ** Analysis: hotspots *)

Record Hotspot : Type := {
  hotspot_name : jsstring;
  hotspot_kind : jsstring;
  hotspot_file : jsstring;
  hotspot_line : nat;
  hotspot_referenceCount : nat;
  referencingFiles : list jsstring;
}.

Definition HOTSPOT_THRESHOLD : nat := 10.

(** [uriToPath]: a leading ["file://"] is removed. *)
Definition uriToPath (uri : jsstring) : jsstring :=
  match strip_prefix (js "file://") uri with
  | Some rest => rest
  | None => uri
  end.

(** [[...new Set(xs)]]: the distinct elements, each at the place of its
    first occurrence. *)
Definition Set_values (xs : list jsstring) : list jsstring :=
  fold_left (fun seen x => if bool_decide (x ∈ seen) then seen else seen ++ [x])
            xs [].

(** [xs.sort((a, b) => key(b) - key(a))] for an integer key: the sort is
    stable, so an element goes after the elements whose key is at least
    as large. *)
Section SortDescending.
Context {A : Type} (key : A -> Z).

Fixpoint insert_descending (x : A) (sorted : list A) : list A :=
match sorted with
| [] => [x]
| h :: rest =>
if key h <? key x then x :: sorted
else h :: insert_descending x rest
end.

Definition sort_descending (xs : list A) : list A :=
fold_left (fun sorted x => insert_descending x sorted) xs [].
End SortDescending.

Section Hotspots.
Variable client_findReferences : nat -> Query -> list Location.
(** [path.relative] and the project path. *)
Variable path_relative : jsstring -> jsstring -> jsstring.
Variable projectPath : jsstring.

(** One turn of the loop over [allSymbols]; the state is the list of
queries made so far and [result.hotspots]. *)
Definition hotspot_step (st : list Query * list Hotspot) (sym : SymbolInfo)
: list Query * list Hotspot :=
let '(queries, hotspots) := st in
if negb (bool_decide (kindName sym = js "function")
 || bool_decide (kindName sym = js "class")
 || bool_decide (kindName sym = js "interface"))
then st
else if startsWith (name sym) (js "_") then st
else
let position := position_of sym in
let query := {| query_uri := uri sym; query_position := position;
      query_includeDeclaration := false |} in
let refs := client_findReferences (length queries) query in
if (HOTSPOT_THRESHOLD <=? length refs)%nat then
(queries ++ [query],
 hotspots ++
 [{| hotspot_name := fullName sym; hotspot_kind := kindName sym;
 hotspot_file := file sym; hotspot_line := (line position + 1)%nat;
 hotspot_referenceCount := length refs;
 referencingFiles :=
 Set_values
   (map (fun r => path_relative projectPath
                    (uriToPath (location_uri r))) refs) |}])
else (queries ++ [query], hotspots).

Definition analyze_hotspots (allSymbols : list SymbolInfo)
: list Query * list Hotspot :=
let '(queries, hotspots) := fold_left hotspot_step allSymbols ([], []) in
(queries,
 sort_descending (fun h => Z.of_nat (hotspot_referenceCount h)) hotspots).
End Hotspots.

(** A symbol the hotspot detector asks the server about: a function, a
    class or an interface whose name does not start with ['_']. *)
Definition hotspot_candidate (sym : SymbolInfo) : Prop :=
  (kindName sym = js "function" \/ kindName sym = js "class"
   \/ kindName sym = js "interface")
  /\ startsWith (name sym) (js "_") = false.

#[global] Instance hotspot_candidate_dec sym : Decision (hotspot_candidate sym).
Proof. unfold hotspot_candidate. apply _. Defined.

(** The finding reported for a symbol with the given references. *)
Definition hotspot_finding (path_relative : jsstring -> jsstring -> jsstring)
    (projectPath : jsstring) (sym : SymbolInfo) (refs : list Location) : Hotspot :=
  {| hotspot_name := fullName sym; hotspot_kind := kindName sym;
     hotspot_file := file sym;
     hotspot_line := (line (position_of sym) + 1)%nat;
     hotspot_referenceCount := length refs;
     referencingFiles :=
       Set_values
         (map (fun r => path_relative projectPath (uriToPath (location_uri r)))
              refs) |}.

(** [path.relative] from a directory to a path inside it. *)
Definition sample_relative (dir path : jsstring) : jsstring :=
  match strip_prefix (dir ++ [47]) path with
  | Some rest => rest
  | None => path
  end.

(** Twelve references to one symbol, from three files. *)
Definition sample_references : list Location :=
  let at_line (f : string) (n : nat) :=
    {| location_uri := js "file:///project/" ++ js f;
       location_range := sample_range n n |} in
  map (at_line "a.ts") (seq 0 5) ++ map (at_line "b.ts") (seq 0 4)
  ++ map (at_line "c.ts") (seq 0 3).

(** ** Analysis: similar signatures *)

(** The length of the match of "a run of word characters, optional white
    space, a colon, optional white space" at the start of [s], if there is
    one.  The runs are matched greedily and giving characters back never
    helps: after a shorter run of word characters comes a word character,
    after a shorter run of white space comes white space, and neither is
    a colon. *)
Definition name_match_length (s : jsstring) : option nat :=
  let '(w, r1) := span is_word s in
  match w with
  | [] => None
  | _ =>
      let '(sp1, r2) := span is_space r1 in
      match r2 with
      | 58 :: r3 =>
          let '(sp2, _) := span is_space r3 in
          Some (length w + length sp1 + 1 + length sp2)%nat
      | _ => None
      end
  end.

(** The first [replace] of [extractSignature], with the empty string for
    every match; [skip] counts the code units of the current match that
    are still to be dropped. *)
Fixpoint remove_names (skip : nat) (s : jsstring) : jsstring :=
  match s with
  | [] => []
  | c :: rest =>
      match skip with
      | S k => remove_names k rest
      | O =>
          match name_match_length s with
          | Some n => remove_names (n - 1) rest
          | None => c :: remove_names 0 rest
          end
      end
  end.

(** The second [replace]: every run of white space becomes one space;
    [in_run] tells whether the previous code unit was white space. *)
Fixpoint collapse_spaces (in_run : bool) (s : jsstring) : jsstring :=
  match s with
  | [] => []
  | c :: rest =>
      if is_space c then
        if in_run then collapse_spaces true rest
        else 32 :: collapse_spaces true rest
      else c :: collapse_spaces false rest
  end.

(** [extractSignature]; [None] is [undefined]. *)
Definition extractSignature (detail : option jsstring) : jsstring :=
  match detail with
  | None | Some [] => js "unknown"
  | Some d => trim (collapse_spaces false (remove_names 0 d))
  end.

(** [hover?.contents?.value || hover?.contents || ''], then the text
    handed to [extractSignature]: the value itself if it is a string, its
    serialisation otherwise. *)
Definition hoverContent (hover : option json) : json :=
  let contents := hover ≫= get (js "contents") in
  let value := contents ≫= get (js "value") in
  if truthy value then default JNull value
  else if truthy contents then default JNull contents
  else JStr [].

Definition hover_text (hover : option json) : jsstring :=
  match hoverContent hover with
  | JStr s => s
  | v => JSON_stringify v
  end.

Record SignatureFunction : Type := {
  sf_name : jsstring;
  sf_file : jsstring;
  sf_line : nat;
}.

Record SignatureGroup : Type := {
  signature : jsstring;
  functions : list SignatureFunction;
}.

(** [signatureMap]: the entries in the order in which their keys were
    first set; [push] appends to the list of an existing key, or adds the
    key at the end with a one-element list. *)
Fixpoint signatureMap_push (key : jsstring) (f : SignatureFunction)
    (m : list (jsstring * list SignatureFunction))
  : list (jsstring * list SignatureFunction) :=
  match m with
  | [] => [(key, [f])]
  | (k, fs) :: rest =>
      if decide (k = key) then (k, fs ++ [f]) :: rest
      else (k, fs) :: signatureMap_push key f rest
  end.

Section Signatures.
(** What [client.hover] returns to the analysis at its k-th call. *)
Variable client_hover : nat -> jsstring * Position -> option json.

(** One turn of the loop over [allSymbols]; the state is the number of
calls made so far and [signatureMap]. *)
Definition signature_step
(st : nat * list (jsstring * list SignatureFunction)) (sym : SymbolInfo)
: nat * list (jsstring * list SignatureFunction) :=
let '(calls, signatureMap) := st in
if negb (bool_decide (kindName sym = js "function")
 || bool_decide (kindName sym = js "method"))
then st
else if startsWith (name sym) (js "_") then st
else
let position := position_of sym in
let hover := client_hover calls (uri sym, position) in
let signature := extractSignature (Some (hover_text hover)) in
if negb (bool_decide (signature = []))
 && negb (bool_decide (signature = js "unknown"))
then (S calls,
signatureMap_push signature
{| sf_name := fullName sym; sf_file := file sym;
 sf_line := (line position + 1)%nat |} signatureMap)
else (S calls, signatureMap).

Definition analyze_signatures (allSymbols : list SymbolInfo)
: list SignatureGroup :=
let signatureMap := snd (fold_left signature_step allSymbols (0%nat, [])) in
sort_descending (fun g => Z.of_nat (length (functions g)))
(map (fun kv => {| signature := fst kv; functions := snd kv |})
 (filter (fun kv => (2 <= length (snd kv))%nat) signatureMap)).
End Signatures.

(** A function or method whose name does not start with ['_']. *)
Definition signature_candidate (sym : SymbolInfo) : Prop :=
  (kindName sym = js "function" \/ kindName sym = js "method")
  /\ startsWith (name sym) (js "_") = false.

#[global] Instance signature_candidate_dec sym : Decision (signature_candidate sym).
Proof. unfold signature_candidate. apply _. Defined.

(** The entry pushed for a symbol. *)
Definition signature_function (sym : SymbolInfo) : SignatureFunction :=
  {| sf_name := fullName sym; sf_file := file sym;
     sf_line := (line (position_of sym) + 1)%nat |}.

(** The signature computed for the k-th candidate. *)
Definition signature_at (client_hover : nat -> jsstring * Position -> option json)
    (k : nat) (sym : SymbolInfo) : jsstring :=
  extractSignature (Some (hover_text (client_hover k (uri sym, position_of sym)))).

(** The signature and the entry of every candidate, in the order of the
    symbol list; [k] is the number of calls of [client.hover] made
    before. *)
Fixpoint signature_entries
    (client_hover : nat -> jsstring * Position -> option json) (k : nat)
    (candidates : list SymbolInfo) : list (jsstring * SignatureFunction) :=
  match candidates with
  | [] => []
  | sym :: rest =>
      (signature_at client_hover k sym, signature_function sym)
      :: signature_entries client_hover (S k) rest
  end.

(** The entries with a given signature, in order. *)
Definition functions_with (sig : jsstring)
    (entries : list (jsstring * SignatureFunction)) : list SignatureFunction :=
  map snd (filter (fun e => fst e = sig) entries).

(** What [signatureMap] holds after the entries [es] have been pushed:
    one key for each signature that occurs, with the entries of that
    signature in order. *)
Definition signatureMap_of (m : list (jsstring * list SignatureFunction))
    (es : list (jsstring * SignatureFunction)) : Prop :=
  NoDup (map fst m)
  /\ forall k fs, (k, fs) ∈ m <-> fs = functions_with k es /\ fs <> [].

(** An entry whose signature is kept by the loop. *)
Definition signature_kept (e : jsstring * SignatureFunction) : Prop :=
  fst e <> [] /\ fst e <> js "unknown".

#[global] Instance signature_kept_dec e : Decision (signature_kept e).
Proof. unfold signature_kept. apply _. Defined.

(** A hover answer in the shape the TypeScript server gives. *)
Definition sample_hover (text : string) : option json :=
  Some (JObj [(js "contents",
               JObj [(js "kind", JStr (js "markdown"));
                     (js "value", JStr (js text))])]).

(** ** Analysis: symbol co-occurrence *)

Record CooccurrenceGroup : Type := {
  co_symbols : option jsstring * option jsstring;
  co_files : list jsstring;
  occurrenceCount : nat;
}.

(** A [Map] with string keys, as the list of its entries in the order in
    which the keys were first set.  [Map_update upd empty key m] is the
    idiom [if (!m.has(key)) m.set(key, empty)] followed by an update of
    [m.get(key)] in place. *)
Fixpoint Map_update {V : Type} (upd : V -> V) (empty : V) (key : jsstring)
    (m : list (jsstring * V)) : list (jsstring * V) :=
  match m with
  | [] => [(key, upd empty)]
  | (k, v) :: rest =>
      if decide (k = key) then (k, upd v) :: rest
      else (k, v) :: Map_update upd empty key rest
  end.

(** [set.add(x)] on the elements of a [Set] in insertion order. *)
Definition Set_add (x : jsstring) (xs : list jsstring) : list jsstring :=
  if bool_decide (x ∈ xs) then xs else xs ++ [x].

(** The first loop: the names declared in each file. *)
Definition cooccurrence_step (symbolsByFile : list (jsstring * list jsstring))
    (sym : SymbolInfo) : list (jsstring * list jsstring) :=
  if negb (bool_decide (kindName sym = js "function")
           || bool_decide (kindName sym = js "class")
           || bool_decide (kindName sym = js "interface"))
  then symbolsByFile
  else Map_update (Set_add (name sym)) [] (file sym) symbolsByFile.

(** The pairs [(symArray[i], symArray[j])] with [i < j], in the order of
    the two nested loops. *)
Fixpoint pairs_of (symArray : list jsstring) : list (jsstring * jsstring) :=
  match symArray with
  | [] => []
  | a :: rest => map (pair a) rest ++ pairs_of rest
  end.

(** [data.files.add(file); data.count++]. *)
Definition count_pair (file : jsstring) (data : list jsstring * nat)
  : list jsstring * nat :=
  (Set_add file (fst data), S (snd data)).

(** The body of the loop over [symbolsByFile]. *)
Definition pairCounts_file (pairCounts : list (jsstring * (list jsstring * nat)))
    (entry : jsstring * list jsstring)
  : list (jsstring * (list jsstring * nat)) :=
  fold_left
    (fun pc ab =>
       Map_update (count_pair (fst entry)) ([], 0%nat)
                  (pairKey (fst ab) (snd ab)) pc)
    (pairs_of (snd entry)) pairCounts.

(** The group pushed for an entry of [pairCounts]: the two symbols are
    the first two pieces of the key. *)
Definition cooccurrence_group (kv : jsstring * (list jsstring * nat))
  : CooccurrenceGroup :=
  let pieces := split_on 124 (fst kv) in
  {| co_symbols := (pieces !! 0%nat, pieces !! 1%nat);
     co_files := fst (snd kv);
     occurrenceCount := snd (snd kv) |}.

Definition analyze_cooccurrence (allSymbols : list SymbolInfo)
  : list CooccurrenceGroup :=
  let symbolsByFile := fold_left cooccurrence_step allSymbols [] in
  let pairCounts := fold_left pairCounts_file symbolsByFile [] in
  sort_descending (fun g => Z.of_nat (occurrenceCount g))
    (map cooccurrence_group
         (filter (fun kv => (3 <= length (fst (snd kv)))%nat) pairCounts)).

(** The values that the events of key [k] carry, in order. *)
Definition events_for {E : Type} (k : jsstring) (es : list (jsstring * E))
  : list E :=
  map snd (filter (fun e => fst e = k) es).

(** What a [Map] holds after the updates [es], each made with
    [Map_update (fun v => acc v e) empty k] for an event [(k, e)]: the keys
    in the order of their first event, each with the events of that key
    folded in order. *)
Definition Map_of {V E : Type} (acc : V -> E -> V) (empty : V)
    (m : list (jsstring * V)) (es : list (jsstring * E)) : Prop :=
  map fst m = Set_values (map fst es)
  /\ forall k v,
       (k, v) ∈ m <->
       v = fold_left acc (events_for k es) empty /\ events_for k es <> [].

(** A function, a class or an interface. *)
Definition cooccurrence_candidate (sym : SymbolInfo) : Prop :=
  kindName sym = js "function" \/ kindName sym = js "class"
  \/ kindName sym = js "interface".

#[global] Instance cooccurrence_candidate_dec sym :
  Decision (cooccurrence_candidate sym).
Proof. unfold cooccurrence_candidate. apply _. Defined.

(** The files with a candidate, in the order of their first candidate,
    and the candidate names declared in a file. *)
Definition candidate_files (allSymbols : list SymbolInfo) : list jsstring :=
  Set_values (map file (filter cooccurrence_candidate allSymbols)).

Definition declared_in (allSymbols : list SymbolInfo) (f : jsstring)
  : list jsstring :=
  map name (filter (fun sym => cooccurrence_candidate sym /\ file sym = f)
                   allSymbols).

(** The files in which both names are declared. *)
Definition shared_files (allSymbols : list SymbolInfo) (a b : jsstring)
  : list jsstring :=
  filter (fun f => a ∈ declared_in allSymbols f /\ b ∈ declared_in allSymbols f)
         (candidate_files allSymbols).

(** The updates of [pairCounts], in order: one for every pair of every
    file. *)
Definition pair_events (symbolsByFile : list (jsstring * list jsstring))
  : list (jsstring * jsstring) :=
  flat_map
    (fun entry =>
       map (fun ab => (pairKey (fst ab) (snd ab), fst entry))
           (pairs_of (snd entry)))
    symbolsByFile.

(** The updates of [symbolsByFile], in order: one for every candidate. *)
Definition declarations (allSymbols : list SymbolInfo)
  : list (jsstring * jsstring) :=
  map (fun sym => (file sym, name sym))
      (filter cooccurrence_candidate allSymbols).

(** ** The diagnostics of [analyzeProject] *)

Record Diagnostic : Type := {
  diag_range : Range;
  severity : Z;
  code : option json;
  source : option jsstring;
  diag_message : jsstring;
}.

(** An entry of [result.diagnostics]. *)
Record ReportedDiagnostic : Type := {
  reported_file : jsstring;
  reported_line : nat;
  reported_severity : jsstring;
  reported_message : jsstring;
  reported_code : option json;
}.

(** A notification as the listener of [analyzeProject] reads it: the
    method, [params.uri] and [params.diagnostics] ([None] when the field
    is missing). *)
Record Published : Type := {
  published_method : jsstring;
  published_uri : jsstring;
  published_diagnostics : option (list Diagnostic);
}.

(** The listener: [diagnosticsMap.set(params.uri, params.diagnostics || [])]
    for a [publishDiagnostics] notification.  Setting a key that is
    present replaces its value and keeps its place. *)
Definition diagnostics_listener (diagnosticsMap : list (jsstring * list Diagnostic))
    (note : Published) : list (jsstring * list Diagnostic) :=
  if bool_decide (published_method note = js "textDocument/publishDiagnostics")
  then
    let diags := default [] (published_diagnostics note) in
    Map_update (fun _ => diags) diags (published_uri note) diagnosticsMap
  else diagnosticsMap.

Definition severity_name (severity : Z) : jsstring :=
  if severity =? 1 then js "error"
  else if severity =? 2 then js "warning"
  else js "info".

Section Diagnostics.
Variable path_relative : jsstring -> jsstring -> jsstring.
Variable projectPath : jsstring.

Definition report_diagnostic (uri : jsstring) (diag : Diagnostic)
: ReportedDiagnostic :=
{| reported_file := path_relative projectPath (uriToPath uri);
 reported_line := (line (range_start (diag_range diag)) + 1)%nat;
 reported_severity := severity_name (severity diag);
 reported_message := diag_message diag;
 reported_code := code diag |}.

(** The loop over [diagnosticsMap] that fills [result.diagnostics]. *)
Definition collect_diagnostics (diagnosticsMap : list (jsstring * list Diagnostic))
: list ReportedDiagnostic :=
flat_map (fun entry => map (report_diagnostic (fst entry)) (snd entry))
 diagnosticsMap.

(** The diagnostics reported after the notifications [notes]. *)
Definition analyze_diagnostics (notes : list Published)
: list ReportedDiagnostic :=
collect_diagnostics (fold_left diagnostics_listener notes []).
End Diagnostics.

(** The [publishDiagnostics] notifications among [notes], as pairs of a
    uri and the diagnostics kept for it. *)
Definition publications (notes : list Published)
  : list (jsstring * list Diagnostic) :=
  map (fun note => (published_uri note, default [] (published_diagnostics note)))
      (filter (fun note =>
                 published_method note = js "textDocument/publishDiagnostics")
              notes).

(** The diagnostics of the last publication for [uri]. *)
Definition last_published (notes : list Published) (uri : jsstring)
  : list Diagnostic :=
  default [] (last (events_for uri (publications notes))).

(** A diagnostic at a line, with a severity. *)
Definition sample_diagnostic (n : nat) (sev : Z) (msg : string) : Diagnostic :=
  {| diag_range := sample_range n n; severity := sev; code := None;
     source := None; diag_message := js msg |}.

(** ** The message handler of [lsp_client.ts] *)

Module lsp_client_ts_messages.

(** Calling [resolve] or [reject] of promise [p]: only the first call has
an effect. *)
Definition settle (p : nat) (o : Outcome) (s : lsp_client_ts.LSPClient)
: lsp_client_ts.LSPClient :=
match lsp_client_ts.promises s !! p with
| Some _ => s
| None =>
{| lsp_client_ts.process := lsp_client_ts.process s;
 lsp_client_ts.nextRequestId := lsp_client_ts.nextRequestId s;
 lsp_client_ts.pendingRequests := lsp_client_ts.pendingRequests s;
 lsp_client_ts.stdin := lsp_client_ts.stdin s;
 lsp_client_ts.promises := <[p := o]> (lsp_client_ts.promises s);
 lsp_client_ts.nextPromise := lsp_client_ts.nextPromise s |}
end.

(** [LSPClient.handleMessage] of [lsp_client.ts]: the new state and the
event emitted, if any.  There is no timer to clear.  When [new Error]
throws, the entry is already deleted and the promise is left as it is. *)
Definition handleMessage (msg : json) (s : lsp_client_ts.LSPClient)
: lsp_client_ts.LSPClient * option Emitted :=
match get (js "id") msg with
| Some id =>
match id with
| JNum n =>
match lsp_client_ts.pendingRequests s !! n with
| Some p =>
    let s1 :=
      {| lsp_client_ts.process := lsp_client_ts.process s;
         lsp_client_ts.nextRequestId := lsp_client_ts.nextRequestId s;
         lsp_client_ts.pendingRequests :=
           delete n (lsp_client_ts.pendingRequests s);
         lsp_client_ts.stdin := lsp_client_ts.stdin s;
         lsp_client_ts.promises := lsp_client_ts.promises s;
         lsp_client_ts.nextPromise := lsp_client_ts.nextPromise s |} in
    if truthy (get (js "error") msg)
    then match remote_error (get (js "error") msg) with
         | Some reason => (settle p (Rejected reason) s1, None)
         | None => (s1, None)
         end
    else (settle p (Resolved (get (js "result") msg)) s1, None)
| None => (s, None)
end
| _ => (s, None)
end
| None =>
match get (js "method") msg with
| Some method =>
if truthy (Some method)
then (s, Some (EmitNotification method (get (js "params") msg)))
else (s, None)
| None => (s, None)
end
end.

(** What can happen to this client. *)
Inductive Action : Type :=
| CallSendRequest (method : jsstring) (params : json)
| CallSendNotification (method : jsstring) (params : json)
| OnMessage (msg : json).

Definition step (s : lsp_client_ts.LSPClient) (a : Action)
: lsp_client_ts.LSPClient :=
match a with
| CallSendRequest method params =>
snd (lsp_client_ts.sendRequest method params s)
| CallSendNotification method params =>
match lsp_client_ts.sendNotification method params s with
| inr s' => s'
| inl _ => s
end
| OnMessage msg => fst (handleMessage msg s)
end.

Definition run (s : lsp_client_ts.LSPClient) (actions : list Action)
: lsp_client_ts.LSPClient :=
fold_left step actions s.

(** A message that does not carry the request id [id]. *)
Definition not_answering (id : Z) (a : Action) : Prop :=
match a with
| OnMessage msg => get (js "id") msg <> Some (JNum id)
| _ => True
end.

(** The invariant of this client: a pending request has its own
unsettled promise, and the counters are ahead of everything in use. *)
Record client_inv (s : lsp_client_ts.LSPClient) : Prop := {
inv_pending :
forall id p, lsp_client_ts.pendingRequests s !! id = Some p ->
id < lsp_client_ts.nextRequestId s
/\ (p < lsp_client_ts.nextPromise s)%nat
/\ lsp_client_ts.promises s !! p = None;
inv_promises :
forall p o, lsp_client_ts.promises s !! p = Some o ->
(p < lsp_client_ts.nextPromise s)%nat;
inv_callers :
forall id1 id2 p,
lsp_client_ts.pendingRequests s !! id1 = Some p ->
lsp_client_ts.pendingRequests s !! id2 = Some p -> id1 = id2;
}.

End lsp_client_ts_messages.

(** ** Promises that nothing can settle *)


(* ================================================================== *)
(** * Part II. Properties                                              *)
(* ================================================================== *)

Arguments request_content : simpl never.
Arguments notification_content : simpl never.
Arguments header_of : simpl never.

(** Boolean comparisons on integers in the hypotheses, as propositions. *)
Ltac zbool :=
  repeat match goal with
  | H : andb _ _ = true |- _ => apply andb_true_iff in H; destruct H
  | H : andb _ _ = false |- _ => apply andb_false_iff in H
  | H : orb _ _ = true |- _ => apply orb_true_iff in H
  | H : orb _ _ = false |- _ => apply orb_false_iff in H; destruct H
  | H : negb _ = true |- _ => apply negb_true_iff in H
  | H : negb _ = false |- _ => apply negb_false_iff in H
  | H : (_ <=? _) = true |- _ => apply Z.leb_le in H
  | H : (_ <=? _) = false |- _ => apply Z.leb_gt in H
  | H : (_ <? _) = true |- _ => apply Z.ltb_lt in H
  | H : (_ <? _) = false |- _ => apply Z.ltb_ge in H
  | H : (_ =? _) = true |- _ => apply Z.eqb_eq in H
  | H : (_ =? _) = false |- _ => apply Z.eqb_neq in H
  end.

(** ** Strings and UTF-8 *)

(** [Buffer.byteLength] is the number of bytes that writing the string
    produces. *)
Lemma Buffer_byteLength_spec s :
  Buffer_byteLength s = Z.of_nat (length (utf8_encode s)).
Proof.
  remember (length s) as n eqn:Hn.
  revert s Hn. induction n as [n IH] using lt_wf_ind. intros s Hn.
  destruct s as [|c rest]; [reflexivity|].
  cbn [Buffer_byteLength utf8_encode].
  destruct (is_high_surrogate c) eqn:Hh.
  - destruct rest as [|d rest']; [reflexivity|].
    destruct (is_low_surrogate d) eqn:Hl.
    + rewrite length_app.
      rewrite (IH (length rest')) by (subst n; simpl; lia || reflexivity).
      simpl. lia.
    + rewrite length_app. rewrite (IH (length (d :: rest'))) by (subst n; simpl; lia || reflexivity).
      simpl. lia.
  - rewrite (IH (length rest)) by (subst n; simpl; lia || reflexivity).
    unfold is_low_surrogate, is_high_surrogate, utf8_of_code_unit in *.
    repeat case_match; zbool; rewrite ?length_app; simpl length; lia.
Qed.

(** A string of ASCII code units is written as itself. *)
Lemma utf8_encode_ascii_app a b :
  is_ascii a -> utf8_encode (a ++ b) = a ++ utf8_encode b.
Proof.
  induction 1 as [|c a Hc Ha IH]; [reflexivity|].
  simpl. unfold is_high_surrogate, is_low_surrogate, utf8_of_code_unit.
  repeat case_match; zbool; try lia. simpl. by rewrite IH.
Qed.

Lemma utf8_encode_ascii a : is_ascii a -> utf8_encode a = a.
Proof.
  intros H. rewrite <- (app_nil_r a) at 1.
  rewrite utf8_encode_ascii_app by done. by rewrite app_nil_r.
Qed.

Lemma decimal_fuel_ascii fuel n acc :
  is_ascii acc -> is_ascii (decimal_fuel fuel n acc).
Proof.
  revert n acc. induction fuel as [|fuel IH]; intros n acc Hacc; [done|].
  simpl. assert (is_ascii ((48 + n mod 10) :: acc)).
  { constructor; [|done]. pose proof (Z.mod_pos_bound n 10). lia. }
  case_match; [done|]. by apply IH.
Qed.

Lemma number_toString_ascii n : is_ascii (number_toString n).
Proof.
  unfold number_toString, decimal.
  case_match; [constructor; [lia|]|]; apply decimal_fuel_ascii; constructor.
Qed.

Lemma header_of_ascii content : is_ascii (header_of content).
Proof.
  unfold header_of, is_ascii. rewrite !Forall_app. split_and!.
  - vm_compute. repeat constructor.
  - apply number_toString_ascii.
  - vm_compute. repeat constructor.
Qed.

(** ** The wire format *)

Lemma written_message content :
  utf8_encode (header_of content ++ content) = lsp_wire_message content.
Proof.
  rewrite utf8_encode_ascii_app by apply header_of_ascii.
  unfold header_of, lsp_wire_message.
  rewrite Buffer_byteLength_spec. by rewrite <- !app_assoc.
Qed.

(** C3, as amended: every message written to the child's stdin, by
    [sendRequest] and [sendNotification] of either client, is the header
    string "Content-Length: " (not "Length: "), the declared length in
    decimal, "\r\n\r\n" and the body, and the declared length is the
    number of bytes of the UTF-8 encoding of the serialised body (not its
    number of characters). *)
Theorem C3_content_length_wire_format
    (method : jsstring) (params : json) (timeoutMs : Z)
    (s : LSPClient) (c : lsp_client_ts.LSPClient) :
  process s = true ->
  lsp_client_ts.process c = true ->
  stdin (snd (sendRequest method params timeoutMs s))
  = stdin s ++ lsp_wire_message (request_content (nextRequestId s) method params)
  /\ (exists s', sendNotification method params s = inr s'
        /\ stdin s' = stdin s ++ lsp_wire_message (notification_content method params))
  /\ lsp_client_ts.stdin (snd (lsp_client_ts.sendRequest method params c))
     = lsp_client_ts.stdin c
       ++ lsp_wire_message
            (request_content (lsp_client_ts.nextRequestId c) method params)
  /\ (exists c', lsp_client_ts.sendNotification method params c = inr c'
        /\ lsp_client_ts.stdin c'
           = lsp_client_ts.stdin c
             ++ lsp_wire_message (notification_content method params)).
Proof.
  intros Hs Hc. split_and!.
  - unfold sendRequest. cbn -[header_of utf8_encode request_content].
    rewrite Hs. cbn -[header_of utf8_encode request_content].
    by rewrite written_message.
  - unfold sendNotification. rewrite Hs.
    eexists; split; [reflexivity|].
    cbn -[header_of utf8_encode notification_content].
    by rewrite written_message.
  - unfold lsp_client_ts.sendRequest. rewrite Hc.
    cbn -[header_of utf8_encode request_content].
    by rewrite written_message.
  - unfold lsp_client_ts.sendNotification. rewrite Hc.
    eexists; split; [reflexivity|].
    cbn -[header_of utf8_encode notification_content].
    by rewrite written_message.
Qed.

(** The amended format at a concrete request whose body holds a
    non-ASCII character: 50 code units, 51 bytes declared. *)
Lemma C3_content_length_wire_format_witness :
  process started_client = true
  /\ lsp_client_ts.process started_client_ts = true
  /\ length (request_content 1 (js "x") (JStr [233])) = 50%nat
  /\ stdin (snd (sendRequest (js "x") (JStr [233]) 5000 started_client))
     = js "Content-Length: 51" ++ CRLFCRLF
       ++ utf8_encode (request_content 1 (js "x") (JStr [233])).
Proof.
  split; [reflexivity|]. split; [reflexivity|].
  split; [vm_compute; reflexivity|].
  destruct (C3_content_length_wire_format (js "x") (JStr [233]) 5000
              started_client started_client_ts eq_refl eq_refl) as [H _].
  rewrite H. vm_compute. reflexivity.
Defined.

(** C3, as the specification states it, fails: the [shutdown] request
    written by a fresh client does not start with "Length: ". *)
Lemma C3_length_header_counterexample :
  stdin (snd (sendRequest (js "shutdown") (JObj []) 2000 started_client))
  <> stdin started_client
     ++ spec_wire_message (request_content 1 (js "shutdown") (JObj [])).
Proof. vm_compute. discriminate. Qed.

(** ** The framer *)

(** The fuel of [handleData_buffer] always suffices: any two amounts of
    fuel above the length of the buffer give the same result. *)
Lemma strip_prefix_app p s r : strip_prefix p s = Some r -> s = p ++ r.
Proof.
  revert s. induction p as [|a p IH]; intros s; simpl; [by intros [= ->]|].
  destruct s as [|b s]; [discriminate|].
  destruct (a =? b) eqn:E; [|discriminate]. zbool. subst b.
  intros H. by rewrite (IH _ H).
Qed.

Lemma strip_prefix_app_eq p r : strip_prefix p (p ++ r) = Some r.
Proof. induction p as [|a p IH]; simpl; [done|]. by rewrite Z.eqb_refl. Qed.

Lemma indexOf_bound p s i :
  indexOf p s = Some i -> (i + length p <= length s)%nat.
Proof.
  revert i. induction s as [|c s IH]; intros i; simpl.
  - destruct p; simpl; [intros [= <-]; simpl; lia|discriminate].
  - destruct (strip_prefix p (c :: s)) eqn:Hp.
    + intros [= <-]. apply strip_prefix_app in Hp.
      change (S (length s)) with (length (c :: s)).
      rewrite Hp, length_app. lia.
    + destruct (indexOf p s) as [j|] eqn:Hj; [|discriminate].
      intros [= <-]. specialize (IH j eq_refl). simpl. lia.
Qed.

Lemma handleData_loop_fuel {St} (deliver : jsstring -> St -> St)
    fuel1 fuel2 buf st :
  (length buf < fuel1)%nat -> (length buf < fuel2)%nat ->
  handleData_loop deliver fuel1 buf st = handleData_loop deliver fuel2 buf st.
Proof.
  revert fuel2 buf st.
  induction fuel1 as [|fuel1 IH]; intros fuel2 buf st H1 H2; [lia|].
  destruct fuel2 as [|fuel2]; [lia|]. simpl.
  destruct (indexOf CRLFCRLF buf) as [headerEnd|] eqn:Hi; [|done].
  apply indexOf_bound in Hi. simpl in Hi.
  destruct (contentLengthMatch _); [|done].
  destruct (_ <? _)%nat eqn:Hlt; [done|].
  apply Nat.ltb_ge in Hlt.
  apply IH; unfold substring_from; rewrite length_drop; lia.
Qed.

(** C1: the decoder cuts bodies by counting UTF-16 code units against a
    length declared in bytes.  The response [{"jsonrpc":"2.0","id":1,
    "result":"é"}] has 37 code units and 38 bytes: fed whole, it is never
    surfaced; followed by a second message, the first one is surfaced
    with the leading "C" of the next header glued to it and the second
    one is lost with the rest of the buffer. *)
Theorem C1_non_ascii_body_breaks_framing :
  let m1 := JSON_stringify (response 1 (JStr [233])) in
  let m2 := JSON_stringify (response 2 (JStr (js "ok"))) in
  length m1 = 37%nat
  /\ Buffer_byteLength m1 = 38
  /\ feed [] (lsp_wire_message m1) = (js "Content-Length: 38" ++ CRLFCRLF ++ m1, [])
  /\ feed_all [] [lsp_wire_message m1 ++ lsp_wire_message m2]
     = ([], [m1 ++ js "C"])
  /\ feed_all [] [lsp_wire_message m1; lsp_wire_message m2]
     = ([], [m1 ++ js "C"])
  /\ feed [] (lsp_wire_message m2) = ([], [m2]).
Proof. vm_compute. repeat split. Qed.

(** ** The invariant of the client *)

Arguments js : simpl never.
Arguments utf8_encode : simpl never.

(** Reduction of the field accesses of a client after an update. *)
Ltac fields :=
  cbn [fst snd negb process messageBuffer nextRequestId pendingRequests
       initialized stdin timers nextTimer promises nextPromise emitted
       set_process set_messageBuffer set_nextRequestId set_pendingRequests
       write setTimeout clearTimeout new_Promise emit on_exit
       promise timeout timer_id timer_method timer_reject timer_ms].

Lemma new_LSPClient_inv : client_inv new_LSPClient.
Proof. split; simpl; intros *; rewrite ?lookup_empty; done. Qed.

Lemma set_process_inv b s : client_inv s -> client_inv (set_process b s).
Proof. intros [H1 H2 H3 H4]. split; simpl; eauto. Qed.

Lemma emit_inv e s : client_inv s -> client_inv (emit e s).
Proof. intros [H1 H2 H3 H4]. split; simpl; eauto. Qed.

Lemma write_inv text s : client_inv s -> client_inv (write text s).
Proof. intros [H1 H2 H3 H4]. split; simpl; eauto. Qed.

Lemma set_messageBuffer_inv b s :
  client_inv s -> client_inv (set_messageBuffer b s).
Proof. intros [H1 H2 H3 H4]. split; simpl; eauto. Qed.

(** Completing the pending request [n], by its response or by its timer:
    the entry and the timer go away and the promise is settled. *)
Lemma complete_inv n e o s :
  client_inv s ->
  pendingRequests s !! n = Some e ->
  client_inv
    (settle (promise e) o
       (set_pendingRequests (delete n (pendingRequests s))
          (clearTimeout (timeout e) s))).
Proof.
  intros [H1 H2 H3 H4] Hn.
  destruct (H1 _ _ Hn) as (Hid & Hp & Hnone & c & Hc & Hcid & Hcp).
  unfold settle. simpl. rewrite Hnone.
  split; simpl.
  - intros id e' He'. apply lookup_delete_Some in He' as [Hne He'].
    destruct (H1 _ _ He') as (? & ? & ? & c' & Hc' & ? & ?).
    split_and!; [done|done| |].
    + rewrite lookup_insert_ne; [done|]. intros Heq.
      apply Hne. symmetry. by eapply H4.
    + exists c'. split_and!; [|done|done].
      rewrite lookup_delete_ne; [done|]. intros Heq.
      rewrite Heq in Hc. congruence.
  - intros t c' Hc'. apply lookup_delete_Some in Hc' as [Hne Hc'].
    destruct (H2 _ _ Hc') as [? Hpend]. split; [done|].
    rewrite lookup_delete_ne; [done|]. intros Heq.
    rewrite <- Heq in Hpend. rewrite Hn in Hpend.
    injection Hpend as ->. by simpl in Hne.
  - intros p o' Hp'. apply lookup_insert_Some in Hp' as [[<- _]|[_ Hp']]; eauto.
  - intros id1 id2 e1 e2 He1 He2.
    apply lookup_delete_Some in He1 as [_ He1].
    apply lookup_delete_Some in He2 as [_ He2]. eauto.
Qed.

(** Dropping the pending request [n] without settling its promise, as
    happens when [new Error] throws. *)
Lemma drop_inv n e s :
  client_inv s ->
  pendingRequests s !! n = Some e ->
  client_inv (set_pendingRequests (delete n (pendingRequests s))
                (clearTimeout (timeout e) s)).
Proof.
  intros [H1 H2 H3 H4] Hn.
  destruct (H1 _ _ Hn) as (Hid & Hp & Hnone & c & Hc & Hcid & Hcp).
  split; simpl.
  - intros id e' He'. apply lookup_delete_Some in He' as [Hne He'].
    destruct (H1 _ _ He') as (? & ? & ? & c' & Hc' & ? & ?).
    split_and!; [done|done|done|].
    exists c'. split_and!; [|done|done].
    rewrite lookup_delete_ne; [done|]. intros Heq.
    rewrite Heq in Hc. congruence.
  - intros t c' Hc'. apply lookup_delete_Some in Hc' as [Hne Hc'].
    destruct (H2 _ _ Hc') as [? Hpend]. split; [done|].
    rewrite lookup_delete_ne; [done|]. intros Heq.
    rewrite <- Heq in Hpend. rewrite Hn in Hpend.
    injection Hpend as ->. by simpl in Hne.
  - exact H3.
  - intros id1 id2 e1 e2 He1 He2.
    apply lookup_delete_Some in He1 as [_ He1].
    apply lookup_delete_Some in He2 as [_ He2]. eauto.
Qed.

Lemma handleMessage_inv msg s : client_inv s -> client_inv (handleMessage msg s).
Proof.
  intros Hinv. unfold handleMessage.
  destruct (get (js "id") msg) as [id|].
  - destruct (pending_get id s) as [[n e]|] eqn:Hget; [|done].
    assert (pendingRequests s !! n = Some e) as Hn.
    { unfold pending_get in Hget. destruct id; try discriminate.
      destruct (pendingRequests s !! n0) eqn:E; simpl in Hget; [|discriminate].
      by injection Hget as <- <-. }
    destruct (truthy _); [|exact (complete_inv n e _ s Hinv Hn)].
    destruct (remote_error _);
      [exact (complete_inv n e _ s Hinv Hn)|exact (drop_inv n e s Hinv Hn)].
  - destruct (get (js "method") msg); [|done].
    destruct (truthy _); [by apply emit_inv|done].
Qed.

Lemma timer_fires_inv t s : client_inv s -> client_inv (timer_fires t s).
Proof.
  intros Hinv. unfold timer_fires.
  destruct (timers s !! t) as [c|] eqn:Hc; [|done].
  destruct (inv_timers _ Hinv _ _ Hc) as [_ Hp].
  exact (complete_inv _ _ _ s Hinv Hp).
Qed.

Lemma sendRequest_inv method params timeoutMs s :
  client_inv s -> client_inv (snd (sendRequest method params timeoutMs s)).
Proof.
  intros [H1 H2 H3 H4]. unfold sendRequest. fields.
  assert (promises s !! nextPromise s = None) as Hfresh.
  { destruct (promises s !! nextPromise s) eqn:E; [|done].
    apply H3 in E. lia. }
  destruct (process s); fields.
  - split; fields.
    + intros id e He. apply lookup_insert_Some in He as [[<- <-]|[Hne He]]; fields.
      * split_and!; [lia|lia|done|]. eexists. rewrite lookup_insert_eq. done.
      * destruct (H1 _ _ He) as (? & ? & ? & c & Hc & ? & ?).
        split_and!; [lia|lia|done|]. exists c. split_and!; [|done|done].
        rewrite lookup_insert_ne; [done|]. apply H2 in Hc. lia.
    + intros t c Hc. apply lookup_insert_Some in Hc as [[<- <-]|[Hne Hc]]; fields.
      * split; [lia|]. by rewrite lookup_insert_eq.
      * destruct (H2 _ _ Hc) as [? Hp]. split; [lia|].
        rewrite lookup_insert_ne; [done|]. apply H1 in Hp. lia.
    + intros p o Hp. apply H3 in Hp. lia.
    + intros id1 id2 e1 e2 He1 He2.
      apply lookup_insert_Some in He1 as [[<- <-]|[Hne1 He1]];
        apply lookup_insert_Some in He2 as [[<- <-]|[Hne2 He2]]; fields; eauto.
      * intros Heq. apply H1 in He2. lia.
      * intros Heq. apply H1 in He1. lia.
  - unfold settle. fields. rewrite Hfresh. split; fields.
    + intros id e He. destruct (H1 _ _ He) as (? & ? & ? & c & Hc & ? & ?).
      split_and!; [done|lia| |by exists c].
      rewrite lookup_insert_ne; [done|lia].
    + eauto.
    + intros p o Hp. apply lookup_insert_Some in Hp as [[<- _]|[_ Hp]]; [lia|].
      apply H3 in Hp. lia.
    + eauto.
Qed.

Lemma step_inv s a : client_inv s -> client_inv (step s a).
Proof.
  intros Hinv. destruct a; cbn [step].
  - by apply sendRequest_inv.
  - unfold sendNotification. destruct (process s); fields; [|done].
    by apply write_inv.
  - by apply handleMessage_inv.
  - by apply timer_fires_inv.
  - by apply emit_inv.
Qed.

Lemma run_inv actions s : client_inv s -> client_inv (run s actions).
Proof.
  revert s. induction actions as [|a actions IH]; intros s Hinv; [done|].
  simpl. apply IH. by apply step_inv.
Qed.

Section PumpInvariant.
Variable JSON_parse : jsstring -> option json.

Lemma dispatch_inv body s : client_inv s -> client_inv (dispatch JSON_parse body s).
Proof.
intros H. unfold dispatch. destruct (JSON_parse body); [|done].
by apply handleMessage_inv.
Qed.

Lemma handleData_loop_inv fuel buf s :
client_inv s ->
client_inv (snd (handleData_loop (dispatch JSON_parse) fuel buf s)).
Proof.
revert buf s. induction fuel as [|fuel IH]; intros buf s Hinv; [done|].
simpl. destruct (indexOf _ _); [|done].
destruct (contentLengthMatch _); [|done].
destruct (_ <? _)%nat; [done|]. apply IH. by apply dispatch_inv.
Qed.

Lemma handleData_inv data s :
client_inv s -> client_inv (handleData JSON_parse data s).
Proof.
intros Hinv. unfold handleData, handleData_buffer.
pose proof (handleData_loop_inv
  (S (length (messageBuffer s ++ utf8_decode data)))
  (messageBuffer s ++ utf8_decode data) s Hinv) as H.
destruct (handleData_loop _ _ _ _) as [buf s']. simpl in H.
by apply set_messageBuffer_inv.
Qed.
End PumpInvariant.

(** ** Requests, responses and timers *)

Lemma get_id_response id r : get (js "id") (response id r) = Some (JNum id).
Proof. reflexivity. Qed.

Lemma get_error_response id r : get (js "error") (response id r) = None.
Proof. reflexivity. Qed.

Lemma get_result_response id r : get (js "result") (response id r) = Some r.
Proof. reflexivity. Qed.

(** A message whose id is the number of a pending request completes that
    request. *)
Lemma handleMessage_pending msg s n e :
  get (js "id") msg = Some (JNum n) ->
  pendingRequests s !! n = Some e ->
  handleMessage msg s
  = settle_with (promise e) (completion msg)
      (set_pendingRequests (delete n (pendingRequests s))
         (clearTimeout (timeout e) s)).
Proof.
  intros Hid Hn. unfold handleMessage, pending_get, completion. rewrite Hid, Hn.
  cbn [fmap option_fmap option_map]. destruct (truthy _); [|done].
  by destruct (remote_error _).
Qed.

Lemma completion_response id r :
  completion (response id r) = Some (Resolved (Some r)).
Proof. reflexivity. Qed.

(** A message whose id finds no pending request leaves the client as it
    is. *)
Lemma handleMessage_unknown msg s id :
  get (js "id") msg = Some id ->
  pending_get id s = None ->
  handleMessage msg s = s.
Proof. intros Hid Hn. unfold handleMessage. by rewrite Hid, Hn. Qed.

Lemma settle_fresh p o s :
  promises s !! p = None ->
  promises (settle p o s) = <[p := o]> (promises s).
Proof. intros H. unfold settle. by rewrite H. Qed.

Lemma settle_other_fields p o s :
  pendingRequests (settle p o s) = pendingRequests s
  /\ timers (settle p o s) = timers s
  /\ nextRequestId (settle p o s) = nextRequestId s
  /\ nextTimer (settle p o s) = nextTimer s
  /\ nextPromise (settle p o s) = nextPromise s
  /\ process (settle p o s) = process s
  /\ emitted (settle p o s) = emitted s
  /\ stdin (settle p o s) = stdin s.
Proof. unfold settle. by destruct (promises s !! p). Qed.

(** A settled promise keeps its outcome whatever happens next. *)
Lemma settle_keeps p o q o' s :
  promises s !! q = Some o' -> promises (settle p o s) !! q = Some o'.
Proof.
  intros H. unfold settle. destruct (promises s !! p) eqn:E; [done|].
  fields. rewrite lookup_insert_ne; [done|]. congruence.
Qed.

Lemma step_keeps_outcome s a q o :
  promises s !! q = Some o -> promises (step s a) !! q = Some o.
Proof.
  intros H. destruct a; cbn [step].
  - unfold sendRequest. fields. destruct (process s); fields; [done|].
    by apply settle_keeps.
  - unfold sendNotification. by destruct (process s).
  - unfold handleMessage. destruct (get (js "id") msg).
    + destruct (pending_get _ _) as [[n e]|]; [|done].
      destruct (truthy _); [|by apply settle_keeps].
      destruct (remote_error _); [by apply settle_keeps|done].
    + destruct (get (js "method") msg); [|done]. by destruct (truthy _).
  - unfold timer_fires. destruct (timers s !! t); [|done]. by apply settle_keeps.
  - done.
Qed.

(** The effect of completing request [n] on the client's tables. *)
Lemma complete_effect n e o s :
  client_inv s ->
  pendingRequests s !! n = Some e ->
  let s' := settle (promise e) o
              (set_pendingRequests (delete n (pendingRequests s))
                 (clearTimeout (timeout e) s)) in
  pendingRequests s' = delete n (pendingRequests s)
  /\ timers s' = delete (timeout e) (timers s)
  /\ promises s' = <[promise e := o]> (promises s)
  /\ nextRequestId s' = nextRequestId s
  /\ process s' = process s
  /\ nextTimer s' = nextTimer s
  /\ nextPromise s' = nextPromise s
  /\ emitted s' = emitted s.
Proof.
  intros Hinv Hn. destruct (inv_pending _ Hinv _ _ Hn) as (_ & _ & Hnone & _).
  cbv zeta. unfold settle. fields. rewrite Hnone. by fields.
Qed.

(** What [sendRequest] does to a running client. *)
Lemma sendRequest_started method params timeoutMs s :
  process s = true ->
  let '(p, s') := sendRequest method params timeoutMs s in
  p = nextPromise s
  /\ pendingRequests s'
     = <[nextRequestId s := {| promise := p; timeout := nextTimer s |}]>
         (pendingRequests s)
  /\ timers s'
     = <[nextTimer s := {| timer_id := nextRequestId s; timer_method := method;
                           timer_reject := p; timer_ms := timeoutMs |}]>
         (timers s)
  /\ promises s' = promises s
  /\ nextRequestId s' = nextRequestId s + 1
  /\ nextTimer s' = S (nextTimer s)
  /\ nextPromise s' = S (nextPromise s)
  /\ process s' = true
  /\ emitted s' = emitted s.
Proof. intros H. unfold sendRequest. fields. rewrite H. by fields. Qed.

(** C4: when the timer of a pending request fires, its entry is removed
    and its promise is rejected with the timed-out error of its method; a
    response that arrives later for that id finds no entry and changes
    nothing; every other pending request keeps its entry, its timer and its
    unsettled promise and is still resolved by its own response; and a
    request sent afterwards is registered under a fresh id. *)
Theorem C4_timeout_is_local (s : LSPClient) (id : Z) (e : PendingRequest) :
  client_inv s ->
  pendingRequests s !! id = Some e ->
  exists c,
    timers s !! timeout e = Some c /\ timer_id c = id
    /\ let s' := timer_fires (timeout e) s in
       pendingRequests s' !! id = None
       /\ promises s' !! promise e = Some (Rejected (timed_out (timer_method c)))
       /\ (forall msg, get (js "id") msg = Some (JNum id) ->
             handleMessage msg s' = s')
       /\ (forall id' e', id' <> id -> pendingRequests s !! id' = Some e' ->
             pendingRequests s' !! id' = Some e'
             /\ timers s' !! timeout e' = timers s !! timeout e'
             /\ promises s' !! promise e' = None
             /\ forall result,
                  promises (handleMessage (response id' result) s') !! promise e'
                  = Some (Resolved (Some result)))
       /\ (forall method params timeoutMs,
             process s = true ->
             let '(p, s'') := sendRequest method params timeoutMs s' in
             pendingRequests s'' !! nextRequestId s
             = Some {| promise := p; timeout := nextTimer s |}
             /\ promises s'' !! p = None
             /\ pendingRequests s'' !! id = None).
Proof.
  intros Hinv He.
  destruct (inv_pending _ Hinv _ _ He) as (Hlt & _ & Hnone & c & Hc & Hcid & Hcp).
  exists c. split; [done|]. split; [done|].
  assert (timer_fires (timeout e) s
          = settle (promise e) (Rejected (timed_out (timer_method c)))
              (set_pendingRequests (delete id (pendingRequests s))
                 (clearTimeout (timeout e) s))) as Hfire.
  { unfold timer_fires. rewrite Hc. fields. by rewrite Hcid, Hcp. }
  cbv zeta. rewrite Hfire.
  pose proof (complete_inv id e (Rejected (timed_out (timer_method c))) s Hinv He)
    as Hinv'.
  destruct (complete_effect id e (Rejected (timed_out (timer_method c))) s Hinv He)
    as (Hp & Ht & Hpr & Hnext & Hproc & Hnt & Hnp & _).
  set (s' := settle _ _ _) in *.
  assert (forall id' e', id' <> id -> pendingRequests s !! id' = Some e' ->
            pendingRequests s' !! id' = Some e') as Hkeep.
  { intros id' e' Hne He'. rewrite Hp. by rewrite lookup_delete_ne. }
  split_and!.
  - rewrite Hp. apply lookup_delete_eq.
  - rewrite Hpr. apply lookup_insert_eq.
  - intros msg Hid. apply (handleMessage_unknown msg s' (JNum id) Hid).
    unfold pending_get. rewrite Hp, lookup_delete_eq. done.
  - intros id' e' Hne He'. pose proof (Hkeep _ _ Hne He') as He''.
    destruct (inv_pending _ Hinv' _ _ He'') as (_ & _ & Hnone' & _).
    split_and!; [done| |done|].
    + rewrite Ht. rewrite lookup_delete_ne; [done|]. intros Heq.
      destruct (inv_pending _ Hinv _ _ He') as (_ & _ & _ & c' & Hc' & Hid' & _).
      rewrite <- Heq in Hc'. congruence.
    + intros result.
      rewrite (handleMessage_pending _ s' id' e' (get_id_response _ _) He'').
      rewrite completion_response. cbn [settle_with].
      destruct (complete_effect id' e' (Resolved (Some result)) s' Hinv' He'')
        as (_ & _ & -> & _). apply lookup_insert_eq.
  - intros method params timeoutMs Hrun.
    pose proof (sendRequest_started method params timeoutMs s') as Hsend.
    destruct (sendRequest method params timeoutMs s') as [p s''].
    destruct Hsend as (-> & Hp'' & _ & Hpr'' & _); [congruence|].
    rewrite Hp'', Hpr'', Hnext, Hnt, Hnp. split_and!.
    + apply lookup_insert_eq.
    + rewrite Hpr. destruct (promises s !! nextPromise s) eqn:E.
      * apply (inv_promises _ Hinv) in E. lia.
      * rewrite lookup_insert_ne; [done|].
        destruct (inv_pending _ Hinv _ _ He) as (_ & ? & _). lia.
    + rewrite lookup_insert_ne by lia. rewrite Hp. apply lookup_delete_eq.
Qed.

(** Two requests in flight on a fresh running client; the first one times
    out. *)
Lemma C4_timeout_is_local_witness :
  let s := run started_client
             [CallSendRequest (js "textDocument/hover") JNull 3000;
              CallSendRequest (js "textDocument/references") JNull 5000] in
  let e := {| promise := 0; timeout := 0 |} in
  client_inv s
  /\ pendingRequests s !! 1 = Some e
  /\ exists c,
       timers s !! timeout e = Some c /\ timer_id c = 1
       /\ pendingRequests (timer_fires (timeout e) s) !! 1 = None
       /\ promises (timer_fires (timeout e) s) !! promise e
          = Some (Rejected (timed_out (timer_method c))).
Proof.
  intros s e.
  assert (client_inv s) as Hinv.
  { apply run_inv, set_process_inv, new_LSPClient_inv. }
  assert (pendingRequests s !! 1 = Some e) as He by (vm_compute; reflexivity).
  split; [exact Hinv|]. split; [exact He|].
  destruct (C4_timeout_is_local s 1 e Hinv He) as (c & Hc & Hid & H1 & H2 & _).
  exists c. auto.
Defined.

(** ** The exit of the child process *)

(** The timer of a pending request, when it fires, removes the entry and
    rejects the promise. *)
Lemma timer_fires_pending s id e :
  client_inv s ->
  pendingRequests s !! id = Some e ->
  exists c,
    timers s !! timeout e = Some c /\ timer_id c = id
    /\ pendingRequests (timer_fires (timeout e) s) !! id = None
    /\ promises (timer_fires (timeout e) s) !! promise e
       = Some (Rejected (timed_out (timer_method c))).
Proof.
  intros Hinv He.
  destruct (inv_pending _ Hinv _ _ He) as (_ & _ & _ & c & Hc & Hcid & Hcp).
  exists c. split; [done|]. split; [done|].
  unfold timer_fires. rewrite Hc. fields. rewrite Hcid, Hcp.
  destruct (complete_effect id e (Rejected (timed_out (timer_method c))) s Hinv He)
    as (-> & _ & -> & _).
  by rewrite lookup_delete_eq, lookup_insert_eq.
Qed.

(** C2, as amended: when the child process exits the client only emits
    its own ['exit'] event.  No request is failed at that point: the
    table of pending requests, the timers and the promises are unchanged,
    every outstanding request still has its timer armed and is failed
    with the timed-out error of its method when that timer fires, and a
    notification that arrives after the exit is still emitted to the
    handlers. *)
Theorem C2_exit_leaves_requests_to_their_timers
    (s : LSPClient) (code : option Z) :
  client_inv s ->
  let s' := on_exit code s in
  client_inv s'
  /\ pendingRequests s' = pendingRequests s
  /\ timers s' = timers s
  /\ promises s' = promises s
  /\ emitted s' = emitted s ++ [EmitExit code]
  /\ (forall id e, pendingRequests s !! id = Some e ->
        promises s' !! promise e = None
        /\ exists c,
             timers s' !! timeout e = Some c /\ timer_id c = id
             /\ pendingRequests (timer_fires (timeout e) s') !! id = None
             /\ promises (timer_fires (timeout e) s') !! promise e
                = Some (Rejected (timed_out (timer_method c))))
  /\ (forall msg method,
        get (js "id") msg = None ->
        get (js "method") msg = Some method ->
        truthy (Some method) = true ->
        emitted (handleMessage msg s')
        = emitted s ++ [EmitExit code; EmitNotification method (get (js "params") msg)]).
Proof.
  intros Hinv s'.
  assert (client_inv s') as Hinv' by by apply emit_inv.
  split_and!; try done.
  - intros id e He.
    destruct (timer_fires_pending s' id e Hinv' He)
      as (c & Hc & Hid & Hgone & Hrej).
    split; [by apply (inv_pending _ Hinv' _ _ He)|]. by exists c.
  - intros msg method Hid Hm Ht. unfold handleMessage.
    rewrite Hid, Hm, Ht. subst s'. fields. by rewrite <- app_assoc.
Qed.

(** The exit of the child right after [start], with the [initialize]
    request outstanding. *)
Lemma C2_exit_leaves_requests_to_their_timers_witness :
  let s := snd (start 4242 (js "file:///project") (JObj []) new_LSPClient) in
  client_inv s
  /\ pendingRequests (on_exit (Some 1) s) = pendingRequests s
  /\ promises (on_exit (Some 1) s) = promises s
  /\ emitted (on_exit (Some 1) s) = emitted s ++ [EmitExit (Some 1)].
Proof.
  intros s.
  assert (client_inv s) as Hinv.
  { apply sendRequest_inv, set_process_inv, new_LSPClient_inv. }
  split; [exact Hinv|].
  destruct (C2_exit_leaves_requests_to_their_timers s (Some 1) Hinv)
    as (_ & H1 & _ & H2 & H3 & _).
  auto.
Defined.

(** C2, as the specification states it, fails: the child exits while the
    [initialize] request (id 1) is outstanding; after the exit the request
    is still pending, its promise is still unsettled (no request has been
    failed, with any error), and a diagnostics notification that arrives
    next is handed to the handlers. *)
Lemma C2_exit_fails_no_request_counterexample :
  let s := snd (start 4242 (js "file:///project") (JObj []) new_LSPClient) in
  let s' := on_exit (Some 1) s in
  let note := JObj [(js "jsonrpc", JStr (js "2.0"));
                    (js "method", JStr (js "textDocument/publishDiagnostics"));
                    (js "params", JObj [])] in
  pendingRequests s !! 1 = Some {| promise := 0; timeout := 0 |}
  /\ pendingRequests s' !! 1 = Some {| promise := 0; timeout := 0 |}
  /\ promises s' = ∅
  /\ emitted (handleMessage note s')
     = [EmitExit (Some 1);
        EmitNotification (JStr (js "textDocument/publishDiagnostics"))
                         (Some (JObj []))].
Proof. vm_compute. repeat split. Qed.

(** ** The query wrappers *)

(** Sending a request and then completing it, by its timer or by a
    message that carries its id. *)
Lemma sendRequest_then_complete method params timeoutMs s :
  client_inv s ->
  process s = true ->
  let '(p, s1) := sendRequest method params timeoutMs s in
  promises (timer_fires (nextTimer s) s1) !! p
  = Some (Rejected (timed_out method))
  /\ forall msg,
       get (js "id") msg = Some (JNum (nextRequestId s)) ->
       promises (handleMessage msg s1) !! p = completion msg.
Proof.
  intros Hinv Hrun.
  pose proof (sendRequest_inv method params timeoutMs s Hinv) as Hinv1.
  pose proof (sendRequest_started method params timeoutMs s Hrun) as Hs.
  destruct (sendRequest method params timeoutMs s) as [p s1].
  cbn [snd] in Hinv1. destruct Hs as (-> & Hp & Ht & Hpr & _).
  assert (pendingRequests s1 !! nextRequestId s
          = Some {| promise := nextPromise s; timeout := nextTimer s |}) as He.
  { rewrite Hp. apply lookup_insert_eq. }
  split.
  - destruct (timer_fires_pending s1 _ _ Hinv1 He) as (c & Hc & _ & _ & Hrej).
    cbn [timeout promise] in *. rewrite Hrej.
    rewrite Ht, lookup_insert_eq in Hc. by injection Hc as <-.
  - intros msg Hid. rewrite (handleMessage_pending msg s1 _ _ Hid He).
    destruct (completion msg) as [o|]; cbn [settle_with].
    + destruct (complete_effect _ _ o s1 Hinv1 He) as (_ & _ & -> & _).
      apply lookup_insert_eq.
    + fields. by destruct (inv_pending _ Hinv1 _ _ He) as (_ & _ & ? & _).
Qed.

(** When the request behind a wrapper is rejected, by its timer or by an
    error response whose error can be built, the wrappers give the empty
    list and [null]. *)
Lemma query_wrappers_on_rejection
    (s : LSPClient) (uri : jsstring) (position : Position)
    (includeDeclaration : bool) :
  client_inv s ->
  process s = true ->
  (let '(p, s1) := findReferences uri position includeDeclaration s in
   awaited findReferences_returns p s1 = None
   /\ awaited findReferences_returns p (timer_fires (nextTimer s) s1)
      = Some (Resolved (Some (JArr [])))
   /\ forall msg reason,
        get (js "id") msg = Some (JNum (nextRequestId s)) ->
        completion msg = Some (Rejected reason) ->
        awaited findReferences_returns p (handleMessage msg s1)
        = Some (Resolved (Some (JArr []))))
  /\ (let '(p, s1) := hover uri position s in
      awaited hover_returns p s1 = None
      /\ awaited hover_returns p (timer_fires (nextTimer s) s1)
         = Some (Resolved (Some JNull))
      /\ forall msg reason,
           get (js "id") msg = Some (JNum (nextRequestId s)) ->
           completion msg = Some (Rejected reason) ->
           awaited hover_returns p (handleMessage msg s1)
           = Some (Resolved (Some JNull))).
Proof.
  intros Hinv Hrun.
  assert (forall method params timeoutMs,
            promises (snd (sendRequest method params timeoutMs s))
              !! fst (sendRequest method params timeoutMs s) = None) as Hfresh.
  { intros. pose proof (sendRequest_started method params timeoutMs s Hrun) as H.
    destruct (sendRequest _ _ _ s) as [p s1]. cbn [fst snd].
    destruct H as (-> & _ & _ & -> & _). destruct (promises s !! nextPromise s) eqn:E; [|done].
    apply (inv_promises _ Hinv) in E. lia. }
  split.
  - unfold findReferences.
    pose proof (sendRequest_then_complete (js "textDocument/references")
                  (JObj [(js "textDocument", JObj [(js "uri", JStr uri)]);
                         (js "position", Position_json position);
                         (js "context",
                          JObj [(js "includeDeclaration", JBool includeDeclaration)])])
                  5000 s Hinv Hrun) as H.
    specialize (Hfresh (js "textDocument/references")
                  (JObj [(js "textDocument", JObj [(js "uri", JStr uri)]);
                         (js "position", Position_json position);
                         (js "context",
                          JObj [(js "includeDeclaration", JBool includeDeclaration)])])
                  5000).
    destruct (sendRequest _ _ _ s) as [p s1]. cbn [fst snd] in Hfresh.
    destruct H as [Ht Hm]. unfold awaited. split_and!.
    + by rewrite Hfresh.
    + by rewrite Ht.
    + intros msg reason Hid Herr. rewrite (Hm msg Hid), Herr. done.
  - unfold hover.
    pose proof (sendRequest_then_complete (js "textDocument/hover")
                  (JObj [(js "textDocument", JObj [(js "uri", JStr uri)]);
                         (js "position", Position_json position)])
                  3000 s Hinv Hrun) as H.
    specialize (Hfresh (js "textDocument/hover")
                  (JObj [(js "textDocument", JObj [(js "uri", JStr uri)]);
                         (js "position", Position_json position)])
                  3000).
    destruct (sendRequest _ _ _ s) as [p s1]. cbn [fst snd] in Hfresh.
    destruct H as [Ht Hm]. unfold awaited. split_and!.
    + by rewrite Hfresh.
    + by rewrite Ht.
    + intros msg reason Hid Herr. rewrite (Hm msg Hid), Herr. done.
Qed.




Section Abandoned.
Variable JSON_parse : jsstring -> option json.



End Abandoned.

(** ** Request ids and correlation *)

Lemma step_nextRequestId s a : nextRequestId s <= nextRequestId (step s a).
Proof.
  destruct a; cbn [step].
  - unfold sendRequest. fields. destruct (process s); fields.
    + lia.
    + rewrite (proj1 (proj2 (proj2 (settle_other_fields _ _ _)))). fields. lia.
  - unfold sendNotification. destruct (process s); fields; lia.
  - unfold handleMessage. destruct (get (js "id") msg).
    + destruct (pending_get _ _) as [[n e]|]; [|lia].
      destruct (truthy _); [destruct (remote_error _)|];
        rewrite ?(proj1 (proj2 (proj2 (settle_other_fields _ _ _)))); fields; lia.
    + destruct (get (js "method") msg); [|lia]. destruct (truthy _); fields; lia.
  - unfold timer_fires. destruct (timers s !! t); [|lia].
    rewrite (proj1 (proj2 (proj2 (settle_other_fields _ _ _)))). fields. lia.
  - fields. lia.
Qed.

Lemma run_cons s a actions : run s (a :: actions) = run (step s a) actions.
Proof. reflexivity. Qed.

Lemma run_nextRequestId actions s : nextRequestId s <= nextRequestId (run s actions).
Proof.
  revert s. induction actions as [|a actions IH]; intros s; [simpl; lia|].
  rewrite run_cons.
  pose proof (step_nextRequestId s a). pose proof (IH (step s a)). lia.
Qed.

(** The ids allocated along a run lie between the counter at its start
    and the counter at its end, and each is above the ones before it. *)
Lemma issued_ids_sorted actions s :
  Forall (fun id => nextRequestId s <= id < nextRequestId (run s actions))
         (issued_ids s actions)
  /\ StronglySorted Z.lt (issued_ids s actions).
Proof.
  revert s. induction actions as [|a actions IH]; intros s.
  { split; constructor. }
  destruct (IH (step s a)) as [Hall Hsorted].
  pose proof (step_nextRequestId s a) as Hmono.
  assert (Forall (fun id => nextRequestId s <= id < nextRequestId (run s (a :: actions)))
                 (issued_ids (step s a) actions)) as Hall'.
  { eapply Forall_impl; [exact Hall|]. cbn beta. rewrite run_cons.
    intros id ?. lia. }
  destruct a; cbn [issued_ids]; try (split; assumption).
  destruct (process s) eqn:Hrun; [|split; assumption].
  assert (nextRequestId (step s (CallSendRequest method params timeoutMs))
          = nextRequestId s + 1) as Hnext.
  { cbn [step].
    pose proof (sendRequest_started method params timeoutMs s Hrun) as H.
    destruct (sendRequest _ _ _ s) as [p s1]. cbn [snd]. tauto. }
  split.
  - constructor; [|done].
    pose proof (run_nextRequestId actions
                  (step s (CallSendRequest method params timeoutMs))).
    rewrite run_cons. lia.
  - constructor; [done|]. eapply Forall_impl; [exact Hall|].
    cbn beta. intros id ?. lia.
Qed.

Lemma StronglySorted_lt_NoDup (l : list Z) : StronglySorted Z.lt l -> NoDup l.
Proof.
  induction 1 as [|x l Hs IH Hall]; constructor; [|done].
  intros Hin. rewrite Forall_forall in Hall. specialize (Hall _ Hin). lia.
Qed.

(** Several requests sent in a row get consecutive ids and distinct
    promises, and leave the requests that were pending alone. *)
Lemma send_all_spec reqs s :
  client_inv s ->
  process s = true ->
  let '(ps, s1) := send_all reqs s in
  client_inv s1
  /\ length ps = length reqs
  /\ Forall (fun p => nextPromise s <= p < nextPromise s1)%nat ps
  /\ NoDup ps
  /\ (nextPromise s <= nextPromise s1)%nat
  /\ (forall n e, pendingRequests s !! n = Some e ->
        pendingRequests s1 !! n = Some e)
  /\ (forall k p, ps !! k = Some p ->
        exists t, pendingRequests s1 !! (nextRequestId s + Z.of_nat k)
                  = Some {| promise := p; timeout := t |}).
Proof.
  revert s. induction reqs as [|[[method params] timeoutMs] reqs IH];
    intros s Hinv Hrun; cbn [send_all].
  { split_and!; try done; try constructor; lia. }
  pose proof (sendRequest_inv method params timeoutMs s Hinv) as Hinv1.
  pose proof (sendRequest_started method params timeoutMs s Hrun) as Hs.
  destruct (sendRequest method params timeoutMs s) as [p s1].
  cbn [snd] in Hinv1.
  destruct Hs as (-> & Hp & _ & _ & Hnext & _ & Hnp & Hrun1 & _).
  specialize (IH s1 Hinv1 Hrun1).
  destruct (send_all reqs s1) as [ps s2].
  destruct IH as (Hinv2 & Hlen & Hall & Hnd & Hle & Hkeep & Hpend).
  split_and!.
  - done.
  - simpl. lia.
  - constructor; [lia|]. eapply Forall_impl; [exact Hall|]. simpl. lia.
  - constructor; [|done]. intros Hin.
    rewrite Forall_forall in Hall. specialize (Hall _ Hin). lia.
  - lia.
  - intros n e He. apply Hkeep. rewrite Hp.
    rewrite lookup_insert_ne; [done|]. apply (inv_pending _ Hinv) in He. lia.
  - intros [|k] q Hq.
    + cbn in Hq. injection Hq as <-. exists (nextTimer s).
      replace (nextRequestId s + Z.of_nat 0) with (nextRequestId s) by lia.
      apply Hkeep. rewrite Hp. apply lookup_insert_eq.
    + cbn in Hq. destruct (Hpend k q Hq) as [t Ht]. exists t.
      rewrite <- Ht. f_equal. lia.
Qed.

Lemma handleMessage_response_other id r s n :
  n <> id ->
  pendingRequests (handleMessage (response id r) s) !! n
  = pendingRequests s !! n.
Proof.
  intros Hne. unfold handleMessage. rewrite get_id_response.
  unfold pending_get.
  destruct (pendingRequests s !! id) as [e|]; cbn [fmap option_fmap option_map];
    [|done].
  rewrite get_error_response. cbn [truthy].
  rewrite (proj1 (settle_other_fields _ _ _)). fields.
  by rewrite lookup_delete_ne.
Qed.

(** The responses to pending requests, delivered in any order, settle
    each promise with the result that carries its request's id. *)
Lemma deliver_responses (msgs : list (Z * json)) s :
  client_inv s ->
  NoDup (msgs.*1) ->
  forall id r e,
    (id, r) ∈ msgs ->
    pendingRequests s !! id = Some e ->
    promises (fold_left (fun s '(id, r) => handleMessage (response id r) s) msgs s)
      !! promise e
    = Some (Resolved (Some r)).
Proof.
  revert s. induction msgs as [|[id0 r0] msgs IH]; intros s Hinv Hnd id r e Hin He.
  { by apply elem_of_nil in Hin. }
  cbn [fold_left]. apply NoDup_cons in Hnd as [Hnotin Hnd].
  apply elem_of_cons in Hin as [[= -> ->]|Hin].
  - assert (promises (handleMessage (response id0 r0) s) !! promise e
            = Some (Resolved (Some r0))) as Hdone.
    { rewrite (handleMessage_pending _ s id0 e (get_id_response _ _) He).
      rewrite completion_response. cbn [settle_with].
      destruct (complete_effect id0 e (Resolved (Some r0)) s Hinv He)
        as (_ & _ & -> & _). apply lookup_insert_eq. }
    revert Hdone. generalize (handleMessage (response id0 r0) s).
    clear. induction msgs as [|[id1 r1] msgs IH]; intros s Hs; [done|].
    cbn [fold_left]. apply IH.
    by apply (step_keeps_outcome s (OnMessage (response id1 r1))).
  - eapply IH; [by apply handleMessage_inv|done|exact Hin|].
    rewrite handleMessage_response_other; [done|].
    intros ->. apply Hnotin. apply list_elem_of_fmap. by exists (id0, r).
Qed.

(** C9: along any run of the client the request ids that [sendRequest]
    allocates are strictly increasing, hence never reused; requests sent
    in a row get consecutive ids and distinct promises; and when the
    responses to these requests are delivered in any order, each
    caller's promise is fulfilled with the result that carries its own
    request's id. *)
Theorem C9_request_ids_unique_and_correlated
    (s : LSPClient) (actions : list Action)
    (reqs : list (jsstring * json * Z)) (results : list json)
    (shuffled : list (Z * json)) :
  client_inv s ->
  process s = true ->
  length results = length reqs ->
  shuffled ≡ₚ zip (seqZ (nextRequestId s) (Z.of_nat (length reqs))) results ->
  (StronglySorted Z.lt (issued_ids s actions)
   /\ NoDup (issued_ids s actions)
   /\ Forall (fun id => nextRequestId s <= id < nextRequestId (run s actions))
             (issued_ids s actions))
  /\ let '(ps, s1) := send_all reqs s in
     length ps = length reqs
     /\ NoDup ps
     /\ (forall k p, ps !! k = Some p ->
           exists t, pendingRequests s1 !! (nextRequestId s + Z.of_nat k)
                     = Some {| promise := p; timeout := t |})
     /\ let s2 := fold_left (fun s '(id, r) => handleMessage (response id r) s)
                            shuffled s1 in
        forall k p r,
          ps !! k = Some p -> results !! k = Some r ->
          promises s2 !! p = Some (Resolved (Some r)).
Proof.
  intros Hinv Hrun Hlen Hperm. split.
  { destruct (issued_ids_sorted actions s) as [Hall Hsorted].
    split_and!; [done|by apply StronglySorted_lt_NoDup|done]. }
  pose proof (send_all_spec reqs s Hinv Hrun) as Hsend.
  destruct (send_all reqs s) as [ps s1].
  destruct Hsend as (Hinv1 & Hlenps & _ & Hnd & _ & _ & Hpend).
  split_and!; [done|done|done|].
  intros s2 k p r Hp Hr.
  destruct (Hpend k p Hp) as [t Ht].
  set (ids := seqZ (nextRequestId s) (Z.of_nat (length reqs))) in *.
  assert (length ids = length results) as Hlenids.
  { unfold ids. rewrite length_seqZ. lia. }
  assert (NoDup (shuffled.*1)) as Hndm.
  { rewrite Hperm. rewrite fst_zip by lia. apply NoDup_seqZ. }
  assert ((nextRequestId s + Z.of_nat k, r) ∈ shuffled) as Hin.
  { rewrite Hperm. apply list_elem_of_lookup. exists k.
    apply lookup_zip_with_Some. eexists _, _. split_and!; [done| |done].
    apply lookup_seqZ. apply lookup_lt_Some in Hr. lia. }
  exact (deliver_responses shuffled s1 Hinv1 Hndm _ r _ Hin Ht).
Qed.

(** Three requests in flight on a fresh client, answered in the order
    third, first, second. *)
Lemma C9_request_ids_unique_and_correlated_witness :
  let reqs := [(js "textDocument/hover", JNull, 3000);
               (js "textDocument/references", JNull, 5000);
               (js "textDocument/documentSymbol", JNull, 5000)] in
  let results := [JStr (js "one"); JStr (js "two"); JStr (js "three")] in
  let shuffled := [(3, JStr (js "three")); (1, JStr (js "one"));
                   (2, JStr (js "two"))] in
  client_inv started_client
  /\ process started_client = true
  /\ let '(ps, s1) := send_all reqs started_client in
     let s2 := fold_left (fun s '(id, r) => handleMessage (response id r) s)
                         shuffled s1 in
     forall k p r,
       ps !! k = Some p -> results !! k = Some r ->
       promises s2 !! p = Some (Resolved (Some r)).
Proof.
  intros reqs results shuffled.
  assert (client_inv started_client) as Hinv.
  { apply set_process_inv, new_LSPClient_inv. }
  split; [exact Hinv|]. split; [reflexivity|].
  assert (shuffled ≡ₚ zip (seqZ (nextRequestId started_client)
                                (Z.of_nat (length reqs))) results) as Hperm.
  { change (zip _ results)
      with [(1, JStr (js "one")); (2, JStr (js "two")); (3, JStr (js "three"))].
    unfold shuffled. apply Permutation_cons_append with (l := [_; _]). }
  destruct (C9_request_ids_unique_and_correlated started_client [] reqs results
              shuffled Hinv eq_refl eq_refl Hperm) as [_ H].
  destruct (send_all reqs started_client) as [ps s1].
  destruct H as (_ & _ & _ & H). exact H.
Defined.

(** ** The unused-symbol detector *)

Lemma unused_step_candidate refs qs out sym :
  unused_candidate sym ->
  unused_step refs (qs, out) sym
  = (qs ++ [unused_query sym],
     if (length (refs (length qs) (unused_query sym)) =? 0)%nat
     then out ++ [unused_finding sym] else out).
Proof.
  intros (Hk & H1 & H2). unfold unused_step.
  assert (existsb (Z.eqb (kind sym)) exportableKinds = true) as ->.
  { unfold exportableKinds. cbn [existsb].
    destruct Hk as [Hk|[Hk|[Hk|Hk]]]; rewrite Hk; reflexivity. }
  rewrite H1, H2. cbn [negb orb].
  fold (unused_query sym).
  destruct (_ =? _)%nat; [|done].
  do 2 f_equal. unfold unused_finding. do 2 f_equal.
  destruct (decide _) as [[Hd|Hd]|Hn]; [by rewrite Hd|by rewrite Hd|].
  destruct (kind sym =? 5) eqn:E1; zbool; [tauto|].
  destruct (kind sym =? 12) eqn:E2; zbool; [tauto|done].
Qed.

Lemma unused_step_other refs st sym :
  ~ unused_candidate sym -> unused_step refs st sym = st.
Proof.
  intros Hn. destruct st as [qs out]. unfold unused_step.
  destruct (existsb _ _) eqn:Hk; [|done]. cbn [negb].
  destruct (startsWith (name sym) (js "_")) eqn:H1; [done|].
  destruct (startsWith (name sym) (js "#")) eqn:H2; [done|].
  exfalso. apply Hn. split; [|done].
  unfold exportableKinds in Hk. cbn [existsb] in Hk. zbool. lia.
Qed.

Lemma analyze_unused_fold refs syms qs out :
  let '(qs', out') := fold_left (unused_step refs) syms (qs, out) in
  qs' = qs ++ map unused_query (filter unused_candidate syms)
  /\ forall f,
       f ∈ out' <->
       f ∈ out \/
       exists k sym,
         filter unused_candidate syms !! k = Some sym
         /\ refs (length qs + k)%nat (unused_query sym) = []
         /\ f = unused_finding sym.
Proof.
  revert qs out. induction syms as [|sym syms IH]; intros qs out.
  { cbn. split; [by rewrite app_nil_r|]. intros f. split; [by left|].
    intros [?|(k & sym & Hk & _)]; [done|]. by rewrite lookup_nil in Hk. }
  cbn [fold_left]. destruct (decide (unused_candidate sym)) as [Hc|Hc].
  - rewrite (unused_step_candidate refs qs out sym Hc).
    rewrite filter_cons_True by done.
    specialize (IH (qs ++ [unused_query sym])
                   (if (length (refs (length qs) (unused_query sym)) =? 0)%nat
                    then out ++ [unused_finding sym] else out)).
    destruct (fold_left _ _ _) as [qs' out'].
    destruct IH as [-> IH]. split.
    { cbn [map]. by rewrite <- app_assoc. }
    intros f. rewrite IH. rewrite length_app. cbn [length]. split.
    + intros [Hin|(k & sym' & Hk & Hr & ->)].
      * destruct (_ =? _)%nat eqn:E; [|by left].
        apply elem_of_app in Hin as [?|Hin]; [by left|].
        apply list_elem_of_singleton in Hin as ->. right.
        exists 0%nat, sym. split_and!; [done| |done].
        apply Nat.eqb_eq in E. rewrite Nat.add_0_r.
        by destruct (refs _ _).
      * right. exists (S k), sym'. split_and!; [done| |done].
        rewrite <- Hr. f_equal. lia.
    + intros [Hin|(k & sym' & Hk & Hr & ->)].
      * left. destruct (_ =? _)%nat; [|done]. apply elem_of_app. by left.
      * destruct k as [|k].
        -- cbn in Hk. injection Hk as <-. left.
           rewrite Nat.add_0_r in Hr. rewrite Hr. cbn.
           apply elem_of_app. right. by apply list_elem_of_singleton.
        -- right. exists k, sym'. split_and!; [done| |done].
           rewrite <- Hr. f_equal. lia.
  - rewrite (unused_step_other refs _ sym Hc).
    rewrite filter_cons_False by done. apply IH.
Qed.

(** C6: the detector queries references, with [includeDeclaration] set to
    [false], for exactly the symbols of exportable kind (class, method,
    interface, function) whose name starts with neither ['_'] nor ['#'],
    once each and in order; it reports a symbol exactly when its query
    returns no reference, with confidence [high] for a class or a
    function and [medium] otherwise.  This holds for every server and
    every list of symbols.  In particular, when the symbols are two
    functions [f] and [g], the server finds no reference to [f] and at
    least one reference to [g], then [f] gives exactly one finding, of
    confidence [high], and [g] gives none. *)
Theorem C6_unused_detector
    (client_findReferences : nat -> Query -> list Location)
    (allSymbols : list SymbolInfo) :
  (let candidates := filter unused_candidate allSymbols in
   let '(queries, unusedSymbols) := analyze_unused client_findReferences allSymbols in
   queries = map unused_query candidates
   /\ Forall (fun q => query_includeDeclaration q = false) queries
   /\ forall finding,
        finding ∈ unusedSymbols <->
        exists k sym,
          candidates !! k = Some sym
          /\ client_findReferences k (unused_query sym) = []
          /\ finding = unused_finding sym)
  /\ (forall sym, confidence (unused_finding sym)
                  = if decide (kind sym = 5 \/ kind sym = 12) then high else medium)
  /\ (forall (f g : SymbolInfo) (use : Location) (others : list Location),
        kind f = 12 -> kind g = 12 ->
        unused_candidate f -> unused_candidate g ->
        client_findReferences 0%nat (unused_query f) = [] ->
        client_findReferences 1%nat (unused_query g) = use :: others ->
        analyze_unused client_findReferences [f; g]
        = ([unused_query f; unused_query g], [unused_finding f])
        /\ confidence (unused_finding f) = high).
Proof.
  split_and!.
  - cbv zeta. unfold analyze_unused.
    pose proof (analyze_unused_fold client_findReferences allSymbols [] []) as H.
    destruct (fold_left _ _ _) as [queries unusedSymbols].
    destruct H as [-> H]. split_and!; [done| |].
    + apply Forall_forall. intros q Hq. apply list_elem_of_fmap in Hq.
      by destruct Hq as (sym & -> & _).
    + intros finding. rewrite H. split; [|by right].
      intros [Hin|?]; [|done]. by apply elem_of_nil in Hin.
  - done.
  - intros f g use others Hkf Hkg Hf Hg Hrf Hrg. split.
    + unfold analyze_unused. cbn [fold_left].
      rewrite (unused_step_candidate _ [] [] f Hf). cbn [length app].
      rewrite Hrf. cbn [length Nat.eqb].
      rewrite (unused_step_candidate _ _ _ g Hg). cbn [length app].
      rewrite Hrg. reflexivity.
    + unfold unused_finding. cbn [confidence]. rewrite Hkf.
      by destruct (decide _) as [?|Hn]; [|exfalso; apply Hn; right].
Qed.

(** The scenario of the specification: [f] is never referenced, [g] is
    called once from another file. *)
Lemma C6_unused_detector_witness :
  let f := sample_symbol "f" 12 "a.ts" 0 2 in
  let g := sample_symbol "g" 12 "a.ts" 4 6 in
  let use := {| location_uri := js "file:///project/b.ts";
                location_range := sample_range 7 7 |} in
  let server := fun (n : nat) (q : Query) =>
                  if (line (query_position q) =? 4)%nat then [use] else [] in
  unused_candidate f /\ unused_candidate g
  /\ server 0%nat (unused_query f) = []
  /\ server 1%nat (unused_query g) = [use]
  /\ analyze_unused server [f; g]
     = ([unused_query f; unused_query g], [unused_finding f])
  /\ confidence (unused_finding f) = high.
Proof.
  intros f g use server.
  assert (unused_candidate f) as Hf by (vm_compute; tauto).
  assert (unused_candidate g) as Hg by (vm_compute; tauto).
  assert (server 0%nat (unused_query f) = []) as Hrf by (vm_compute; reflexivity).
  assert (server 1%nat (unused_query g) = [use]) as Hrg
    by (vm_compute; reflexivity).
  split; [exact Hf|]. split; [exact Hg|]. split; [exact Hrf|].
  split; [exact Hrg|].
  destruct (C6_unused_detector server [f; g]) as (_ & _ & H).
  exact (H f g use [] eq_refl eq_refl Hf Hg Hrf Hrg).
Defined.

(** ** The similar-types detector *)

Lemma insert_by_similarity_perm g sorted :
  insert_by_similarity g sorted ≡ₚ g :: sorted.
Proof.
  induction sorted as [|h rest IH]; cbn [insert_by_similarity]; [done|].
  destruct (_ <? _); [done|]. rewrite IH. apply perm_swap.
Qed.

(** Sorting keeps exactly the groups that were pushed. *)
Lemma sort_by_similarity_perm groups : sort_by_similarity groups ≡ₚ groups.
Proof.
  unfold sort_by_similarity.
  assert (forall acc, fold_left (fun sorted g => insert_by_similarity g sorted)
                                groups acc ≡ₚ acc ++ groups) as H.
  { induction groups as [|g groups IH]; intros acc; cbn [fold_left].
    - by rewrite app_nil_r.
    - rewrite IH, insert_by_similarity_perm. apply Permutation_middle. }
  apply (H []).
Qed.

(** The group pushed for a pair that passes the test. *)
Lemma compare_types_cases t1 t2 processed out :
  snd (compare_types t1 t2 (processed, out)) = out
  \/ snd (compare_types t1 t2 (processed, out)) = out ++ [pushed_group t1 t2].
Proof.
  unfold compare_types, pushed_group.
  destruct (bool_decide _); [by left|].
  destruct (bool_decide _); [by left|].
  destruct (calculateSimilarity _ _) as [shared sim]. cbn [fst snd].
  destruct (_ && _); [by right|by left].
Qed.

Lemma compare_with_types t1 later st g :
  g ∈ snd (compare_with t1 later st) ->
  g ∈ snd st \/ (fst (types g) = t1 /\ snd (types g) ∈ later).
Proof.
  unfold compare_with. revert st.
  induction later as [|t2 later IH]; intros [processed out] Hg; [by left|].
  cbn [fold_left] in Hg. apply IH in Hg as [Hg|[? ?]].
  - destruct (compare_types t1 t2 (processed, out)) as [processed' out'] eqn:E.
    destruct (compare_types_cases t1 t2 processed out) as [H|H];
      rewrite E in H; cbn [snd] in *; subst out'; [by left|].
    apply elem_of_app in Hg as [?|Hg]; [by left|].
    apply list_elem_of_singleton in Hg as ->. right. cbn. split; [done|left].
  - right. split; [done|by right].
Qed.

Lemma compare_all_types ts st g :
  g ∈ snd (compare_all ts st) ->
  g ∈ snd st \/ (fst (types g) ∈ ts /\ snd (types g) ∈ ts).
Proof.
  revert st. induction ts as [|t1 later IH]; intros st Hg; [by left|].
  cbn [compare_all] in Hg. apply IH in Hg as [Hg|[? ?]].
  - apply compare_with_types in Hg as [?|[<- ?]]; [by left|].
    right. split; [left|by right].
  - right. split; by right.
Qed.

(** Where the candidates come from. *)
Lemma collect_types_origin path_join projectPath fileContents allSymbols t :
  t ∈ collect_types path_join projectPath fileContents allSymbols ->
  exists sym content,
    sym ∈ allSymbols
    /\ (kindName sym = js "interface" \/ kindName sym = js "class")
    /\ fileContents !! path_join projectPath (file sym) = Some content
    /\ properties t
       = extractTypeProperties content (line (range_start (range sym))) (name sym)
    /\ (2 <= length (properties t))%nat
    /\ type_name t = fullName sym
    /\ type_file t = file sym
    /\ type_line t = (line (range_start (range sym)) + 1)%nat.
Proof.
  unfold collect_types.
  assert (forall acc,
            t ∈ fold_left (collect_step path_join projectPath fileContents)
                          allSymbols acc ->
            t ∈ acc \/
            exists sym content,
              sym ∈ allSymbols
              /\ (kindName sym = js "interface" \/ kindName sym = js "class")
              /\ fileContents !! path_join projectPath (file sym) = Some content
              /\ properties t
                 = extractTypeProperties content
                     (line (range_start (range sym))) (name sym)
              /\ (2 <= length (properties t))%nat
              /\ type_name t = fullName sym
              /\ type_file t = file sym
              /\ type_line t = (line (range_start (range sym)) + 1)%nat) as H.
  { induction allSymbols as [|sym syms IH]; intros acc Ht; [by left|].
    cbn [fold_left] in Ht. apply IH in Ht as [Ht|(sym' & c & ? & ?)].
    - unfold collect_step in Ht.
      destruct (bool_decide (kindName sym = js "interface")) eqn:E1;
        destruct (bool_decide (kindName sym = js "class")) eqn:E2;
        cbn [orb negb] in Ht;
        try (by left);
        (destruct (fileContents !! _) as [[|c0 content]|] eqn:Hc; [by left| |by left];
         destruct (2 <=? _)%nat eqn:Hlen; [|by left];
         apply elem_of_app in Ht as [?|Ht]; [by left|];
         apply list_elem_of_singleton in Ht as ->; right;
         exists sym, (c0 :: content); cbn;
         apply Nat.leb_le in Hlen;
         split_and!; try done; [left|]).
      + left. by apply bool_decide_eq_true in E1.
      + left. by apply bool_decide_eq_true in E1.
      + right. by apply bool_decide_eq_true in E2.
    - right. exists sym', c. split; [by right|done]. }
  intros Ht. apply H in Ht as [Ht|Ht]; [by apply elem_of_nil in Ht|done].
Qed.

Lemma analyze_similar_types_origin path_join projectPath fileContents allSymbols g :
  g ∈ analyze_similar_types path_join projectPath fileContents allSymbols ->
  fst (types g) ∈ collect_types path_join projectPath fileContents allSymbols
  /\ snd (types g) ∈ collect_types path_join projectPath fileContents allSymbols.
Proof.
  unfold analyze_similar_types. rewrite sort_by_similarity_perm.
  intros Hg. apply compare_all_types in Hg as [Hg|?]; [|done].
  by apply elem_of_nil in Hg.
Qed.

(** C10: a class or interface from which fewer than two property names
    are extracted is in no finding: both types of every finding are
    candidates with at least two extracted property names, and none of
    them is the type declared at that symbol's file and line.  When no
    symbol yields two property names (for instance two identical types of
    one property each), nothing is reported at all. *)
Theorem C10_types_with_fewer_than_two_properties_are_never_reported
    (path_join : jsstring -> jsstring -> jsstring) (projectPath : jsstring)
    (fileContents : gmap jsstring jsstring) (allSymbols : list SymbolInfo)
    (sym : SymbolInfo) (content : jsstring) (g : SimilarTypeGroup) :
  fileContents !! path_join projectPath (file sym) = Some content ->
  (length (extractTypeProperties content (line (range_start (range sym)))
                                 (name sym)) < 2)%nat ->
  g ∈ analyze_similar_types path_join projectPath fileContents allSymbols ->
  (forall t, t = fst (types g) \/ t = snd (types g) ->
     t ∈ collect_types path_join projectPath fileContents allSymbols
     /\ (2 <= length (properties t))%nat
     /\ ~ (type_file t = file sym
           /\ type_line t = (line (range_start (range sym)) + 1)%nat))
  /\ (forall symbols : list SymbolInfo,
        (forall s c, s ∈ symbols ->
           fileContents !! path_join projectPath (file s) = Some c ->
           (length (extractTypeProperties c (line (range_start (range s)))
                                          (name s)) < 2)%nat) ->
        analyze_similar_types path_join projectPath fileContents symbols = []).
Proof.
  intros Hc Hlen Hg. split.
  - intros t Ht.
    assert (t ∈ collect_types path_join projectPath fileContents allSymbols) as Hin.
    { destruct (analyze_similar_types_origin _ _ _ _ _ Hg).
      by destruct Ht as [-> | ->]. }
    split; [done|].
    destruct (collect_types_origin _ _ _ _ _ Hin)
      as (sym' & c' & _ & _ & Hc' & Hprops & Hlen' & _ & Hfile & Hline).
    split; [done|]. intros [Hf Hl].
    rewrite Hfile in Hf. rewrite Hf, Hc in Hc'. injection Hc' as <-.
    rewrite Hline in Hl.
    assert (line (range_start (range sym')) = line (range_start (range sym)))
      as Hl' by lia.
    rewrite Hprops in Hlen'. unfold extractTypeProperties in *.
    rewrite Hl' in Hlen'. lia.
  - intros symbols Hall.
    assert (collect_types path_join projectPath fileContents symbols = []) as Hnil.
    { destruct (collect_types _ _ _ symbols) as [|t ts] eqn:E; [done|].
      assert (t ∈ collect_types path_join projectPath fileContents symbols) as Hin
        by (rewrite E; left).
      destruct (collect_types_origin _ _ _ _ _ Hin)
        as (s & c & Hs & _ & Hc' & Hprops & Hlen' & _).
      specialize (Hall s c Hs Hc'). rewrite <- Hprops in Hall. lia. }
    unfold analyze_similar_types. rewrite Hnil. reflexivity.
Qed.

(** The interfaces [C] and [D], of one property each, next to the similar
    pair [A], [B]: only the pair is reported, and [C] and [D] alone give
    nothing. *)
Lemma C10_types_with_fewer_than_two_properties_are_never_reported_witness :
  let symbols := [sample_A; sample_B; sample_C; sample_D] in
  let result := analyze_similar_types sample_join (js "/project")
                  sample_types_files symbols in
  extractTypeProperties sample_types_ts 9 (js "C") = [js "label"]
  /\ result = [sample_group_AB]
  /\ (forall t, t = sample_type_A \/ t = sample_type_B ->
        ~ (type_file t = file sample_C /\ type_line t = 10%nat))
  /\ analyze_similar_types sample_join (js "/project") sample_types_files
       [sample_C; sample_D] = [].
Proof.
  intros symbols result.
  assert (result = [sample_group_AB]) as Hres by (vm_compute; reflexivity).
  split; [vm_compute; reflexivity|]. split; [exact Hres|].
  assert (sample_types_files !! sample_join (js "/project") (file sample_C)
          = Some sample_types_ts) as Hc by (vm_compute; reflexivity).
  assert (length (extractTypeProperties sample_types_ts
                    (line (range_start (range sample_C))) (name sample_C)) < 2)%nat
    as Hlen by (vm_compute; lia).
  assert (sample_group_AB ∈ result) as Hg by (rewrite Hres; left).
  destruct (C10_types_with_fewer_than_two_properties_are_never_reported
              sample_join (js "/project") sample_types_files symbols
              sample_C sample_types_ts sample_group_AB Hc Hlen Hg) as [H1 H2].
  split.
  - intros t Ht. apply (H1 t Ht).
  - vm_compute. reflexivity.
Defined.

(** On a first list without repetition, [calculateSimilarity] computes
    the shared names and the Jaccard similarity of the two sets. *)
Lemma calculateSimilarity_jaccard props1 props2 :
  NoDup props1 ->
  calculateSimilarity props1 props2
  = (filter (fun p => p ∈ props2) props1,
     jaccard (list_to_set props1) (list_to_set props2))
  /\ length (filter (fun p => p ∈ props2) props1)
     = size ((list_to_set props1 : gset jsstring) ∩ list_to_set props2).
Proof.
  intros Hnd.
  assert (filter (fun p => p ∈ (list_to_set props2 : gset jsstring)) props1
          = filter (fun p => p ∈ props2) props1) as Hf.
  { apply list_filter_iff. intros p. by rewrite elem_of_list_to_set. }
  assert (length (filter (fun p => p ∈ props2) props1)
          = size ((list_to_set props1 : gset jsstring) ∩ list_to_set props2))
    as Hlen.
  { rewrite <- (size_list_to_set (C := gset jsstring))
      by by apply NoDup_filter.
    f_equal. apply set_eq. intros p.
    rewrite elem_of_list_to_set, list_elem_of_filter, elem_of_intersection,
      !elem_of_list_to_set. tauto. }
  split; [|done].
  unfold calculateSimilarity, jaccard. rewrite Hf. f_equal.
  rewrite list_to_set_app_L, Hlen.
  destruct (0 <? _)%nat eqn:E; [done|].
  apply Nat.ltb_ge in E.
  assert (size ((list_to_set props1 : gset jsstring) ∪ list_to_set props2) = 0%nat)
    as H0 by lia.
  rewrite H0. apply size_empty_inv in H0.
  assert ((list_to_set props1 : gset jsstring) ∩ list_to_set props2 ≡ ∅) as H1.
  { apply elem_of_equiv_empty. intros p Hp.
    apply elem_of_intersection in Hp as [Hp _].
    apply (proj1 (elem_of_equiv_empty _) H0 p). apply elem_of_union. by left. }
  apply size_empty_iff in H1. by rewrite H1.
Qed.

Lemma bar_split (x y x' y' : jsstring) :
  x ++ [124] ++ y = x' ++ [124] ++ y' ->
  124 ∉ x -> 124 ∉ x' -> x = x' /\ y = y'.
Proof.
  revert x'. induction x as [|c x IH]; intros [|c' x'] H Hx Hx'.
  - by injection H.
  - injection H as H1 H2. exfalso. apply Hx'. rewrite <- H1. left.
  - injection H as H1 H2. exfalso. apply Hx. rewrite H1. left.
  - injection H as H1 H2. subst c'. apply IH in H2 as [-> ->]; [done| |].
    + intros ?. apply Hx. by right.
    + intros ?. apply Hx'. by right.
Qed.

(** Names without ['|'] have the same key only when they are the same
    pair. *)
Lemma pairKey_inj a b c d :
  124 ∉ a -> 124 ∉ b -> 124 ∉ c -> 124 ∉ d ->
  pairKey a b = pairKey c d ->
  (a = c /\ b = d) \/ (a = d /\ b = c).
Proof.
  intros Ha Hb Hc Hd. unfold pairKey.
  destruct (js_lt b a), (js_lt d c); intros H;
    apply bar_split in H as [-> ->]; auto.
Qed.

(** One turn of the inner loop. *)
Lemma compare_types_step t1 t2 processed out :
  compare_types t1 t2 (processed, out)
  = if bool_decide (type_name t1 = type_name t2) then (processed, out)
    else if bool_decide (pairKey (type_name t1) (type_name t2) ∈ processed)
    then (processed, out)
    else (processed ∪ {[pairKey (type_name t1) (type_name t2)]},
          if similarity_test t1 t2 then out ++ [pushed_group t1 t2] else out).
Proof.
  unfold compare_types, similarity_test, pushed_group.
  destruct (bool_decide _); [done|]. destruct (bool_decide _); [done|].
  destruct (calculateSimilarity _ _) as [shared sim]. by destruct (_ && _).
Qed.

(** The inner loop: [t1] against the candidates after it.  A candidate
    of another name is compared when its key is new, that is neither in
    [processed] nor the key of an earlier candidate of the row. *)
Lemma compare_with_spec t1 later :
  forall processed out,
  exists processed' out',
    compare_with t1 later (processed, out) = (processed', out')
    /\ (forall key, key ∈ processed' <->
          key ∈ processed
          \/ exists t2, t2 ∈ later /\ type_name t1 <> type_name t2
                        /\ key = pairKey (type_name t1) (type_name t2))
    /\ (forall g, g ∈ out' <->
          g ∈ out
          \/ exists k t2,
               later !! k = Some t2 /\ type_name t1 <> type_name t2
               /\ (pairKey (type_name t1) (type_name t2) ∉ processed)
               /\ (forall k' t2', (k' < k)%nat -> later !! k' = Some t2' ->
                     type_name t1 <> type_name t2' ->
                     pairKey (type_name t1) (type_name t2')
                     <> pairKey (type_name t1) (type_name t2))
               /\ similarity_test t1 t2 = true /\ g = pushed_group t1 t2).
Proof.
  unfold compare_with.
  induction later as [|t2 later IH]; intros processed out.
  { exists processed, out. split; [done|]. split; intros x; split; auto.
    - intros [?|(t2 & Ht2 & _)]; [done|]. by apply elem_of_nil in Ht2.
    - intros [?|(k & t2 & Hk & _)]; [done|]. by rewrite lookup_nil in Hk. }
  cbn [fold_left]. rewrite compare_types_step.
  destruct (decide (type_name t1 = type_name t2)) as [Heq|Hne].
  - rewrite bool_decide_eq_true_2 by done.
    destruct (IH processed out) as (processed' & out' & -> & Hp & Ho).
    exists processed', out'. split; [done|]. split.
    + intros key. rewrite Hp. split.
      * intros [?|(t & Ht & ? & ?)]; [by left|]. right. exists t.
        split; [by right|done].
      * intros [?|(t & Ht & Hn & ?)]; [by left|]. right. exists t.
        apply elem_of_cons in Ht as [->|Ht]; [done|]. done.
    + intros g. rewrite Ho. split.
      * intros [?|(k & t & Hk & Hn & Hkey & Hfirst & Ht & ->)]; [by left|].
        right. exists (S k), t. split_and!; try done.
        intros [|k'] t' Hlt Hk' Hn'; cbn in Hk'.
        -- injection Hk' as <-. done.
        -- apply (Hfirst k' t'); [lia|done..].
      * intros [?|(k & t & Hk & Hn & Hkey & Hfirst & Ht & ->)]; [by left|].
        destruct k as [|k]; cbn in Hk; [injection Hk as <-; done|].
        right. exists k, t. split_and!; try done.
        intros k' t' Hlt Hk' Hn'. apply (Hfirst (S k') t'); [lia|done..].
  - rewrite bool_decide_eq_false_2 by done.
    destruct (decide (pairKey (type_name t1) (type_name t2) ∈ processed))
      as [Hin|Hnew].
    + rewrite bool_decide_eq_true_2 by done.
      destruct (IH processed out) as (processed' & out' & -> & Hp & Ho).
      exists processed', out'. split; [done|]. split.
      * intros key. rewrite Hp. split.
        -- intros [?|(t & Ht & ? & ?)]; [by left|]. right. exists t.
           split; [by right|done].
        -- intros [?|(t & Ht & Hn & ->)]; [by left|].
           apply elem_of_cons in Ht as [->|Ht]; [by left|].
           right. by exists t.
      * intros g. rewrite Ho. split.
        -- intros [?|(k & t & Hk & Hn & Hkey & Hfirst & Ht & ->)]; [by left|].
           right. exists (S k), t. split_and!; try done.
           intros [|k'] t' Hlt Hk' Hn'; cbn in Hk'.
           ++ injection Hk' as <-. congruence.
           ++ apply (Hfirst k' t'); [lia|done..].
        -- intros [?|(k & t & Hk & Hn & Hkey & Hfirst & Ht & ->)]; [by left|].
           destruct k as [|k]; cbn in Hk; [injection Hk as <-; done|].
           right. exists k, t. split_and!; try done.
           intros k' t' Hlt Hk' Hn'. apply (Hfirst (S k') t'); [lia|done..].
    + rewrite bool_decide_eq_false_2 by done.
      destruct (IH (processed ∪ {[pairKey (type_name t1) (type_name t2)]})
                   (if similarity_test t1 t2
                    then out ++ [pushed_group t1 t2] else out))
        as (processed' & out' & -> & Hp & Ho).
      exists processed', out'. split; [done|]. split.
      * intros key. rewrite Hp, elem_of_union, elem_of_singleton. split.
        -- intros [[?| ->]|(t & Ht & ? & ?)]; [by left| |].
           ++ right. exists t2. split; [left|done].
           ++ right. exists t. split; [by right|done].
        -- intros [?|(t & Ht & Hn & ->)]; [by left; left|].
           apply elem_of_cons in Ht as [->|Ht]; [by left; right|].
           right. by exists t.
      * intros g. rewrite Ho. split.
        -- intros [Hg|(k & t & Hk & Hn & Hkey & Hfirst & Ht & ->)].
           ++ destruct (similarity_test t1 t2) eqn:Etest; [|by left].
              apply elem_of_app in Hg as [?|Hg]; [by left|].
              apply list_elem_of_singleton in Hg as ->. right.
              exists 0%nat, t2. split_and!; try done. intros; lia.
           ++ right. exists (S k), t.
              rewrite elem_of_union, elem_of_singleton in Hkey.
              split_and!; try done; [tauto|].
              intros [|k'] t' Hlt Hk' Hn'; cbn in Hk'.
              ** injection Hk' as <-. intros Hsame. apply Hkey. by right.
              ** apply (Hfirst k' t'); [lia|done..].
        -- intros [Hg|(k & t & Hk & Hn & Hkey & Hfirst & Ht & ->)].
           ++ left. destruct (similarity_test t1 t2); [|done].
              apply elem_of_app. by left.
           ++ destruct k as [|k]; cbn in Hk.
              ** injection Hk as <-. left. rewrite Ht. apply elem_of_app.
                 right. by apply list_elem_of_singleton.
              ** right. exists k, t. split_and!; try done.
                 --- rewrite elem_of_union, elem_of_singleton.
                     intros [?|Hsame]; [done|].
                     apply (Hfirst 0%nat t2); [lia|done|done|done].
                 --- intros k' t' Hlt Hk' Hn'.
                     apply (Hfirst (S k') t'); [lia|done..].
Qed.

(** The two loops: exactly the pairs of differently named candidates
    whose key is met for the first time are compared. *)
Lemma compare_all_spec ts :
  forall processed out g,
    g ∈ snd (compare_all ts (processed, out)) <->
    g ∈ out
    \/ exists i j t1 t2,
         compared_pair ts i j t1 t2
         /\ (pairKey (type_name t1) (type_name t2) ∉ processed)
         /\ similarity_test t1 t2 = true /\ g = pushed_group t1 t2.
Proof.
  unfold compared_pair, compared_before.
  induction ts as [|t1 later IH]; intros processed out g.
  { cbn. split; [by left|].
    intros [?|(i & j & t1 & t2 & (_ & H & _) & _)]; [done|].
    by rewrite lookup_nil in H. }
  cbn [compare_all].
  destruct (compare_with_spec t1 later processed out)
    as (processed' & out' & -> & Hp & Ho).
  rewrite IH, Ho. split.
  - intros [[?|(k & t2 & Hk & Hn & Hkey & Hfirst & Ht & ->)]
           |(i & j & a & b & (Hij & Hi & Hj & Hn & Hfirst) & Hkey & Ht & ->)].
    + by left.
    + right. exists 0%nat, (S k), t1, t2. split_and!; try done; [lia|].
      intros (i' & j' & a & b & Hlt & Hord & Ha & Hb & Hab & Hsame).
      destruct Hord as [?|[-> Hj']]; [lia|]. cbn in Ha. injection Ha as <-.
      destruct j' as [|j']; [lia|]. cbn in Hb.
      apply (Hfirst j' b); [lia|done..].
    + right. exists (S i), (S j), a, b. split_and!; try done; [lia| |].
      * intros (i' & j' & a' & b' & Hlt & Hord & Ha & Hb & Hab & Hsame).
        destruct j' as [|j']; [lia|]. cbn in Hb. destruct i' as [|i'].
        -- cbn in Ha. injection Ha as <-. apply Hkey, Hp. right.
           exists b'. split_and!; [|done|done].
           apply list_elem_of_lookup. by exists j'.
        -- cbn in Ha. apply Hfirst. exists i', j', a', b'.
           split_and!; try done; lia.
      * intros Hin. apply Hkey, Hp. by left.
  - intros [?|(i & j & a & b & (Hij & Hi & Hj & Hn & Hfirst) & Hkey & Ht & ->)];
      [by left; left|].
    destruct j as [|j]; [lia|]. cbn in Hj. destruct i as [|i].
    + cbn in Hi. injection Hi as <-. left. right. exists j, b.
      split_and!; try done.
      intros k' t' Hlt Hk' Hn' Hsame. apply Hfirst.
      exists 0%nat, (S k'), t1, t'. split_and!; try done; lia.
    + cbn in Hi. right. exists i, j, a, b. split_and!; try done; [lia| |].
      * intros (i' & j' & a' & b' & Hlt & Hord & Ha & Hb & Hab & Hsame).
        apply Hfirst. exists (S i'), (S j'), a', b'.
        split_and!; try done; lia.
      * intros Hin. apply Hp in Hin as [?|(t2 & Ht2 & Hn2 & Hsame)]; [done|].
        apply list_elem_of_lookup in Ht2 as [k Hk]. apply Hfirst.
        exists 0%nat, (S k), t1, t2. split_and!; try done; lia.
Qed.

Lemma Zpos_of_nat n : n <> 0%nat -> Z.pos (Pos.of_nat n) = Z.of_nat n.
Proof.
  destruct n as [|n]; [done|]. intros _.
  rewrite <- Pos.of_nat_succ, Zpos_P_of_succ_nat. lia.
Qed.

Lemma size_list_to_set_le (l : list jsstring) :
  (size (list_to_set l : gset jsstring) <= length l)%nat.
Proof.
  induction l as [|x l IH]; cbn [list_to_set length].
  - by rewrite size_empty.
  - rewrite size_union_alt, size_singleton.
    assert (size ((list_to_set l : gset jsstring) ∖ {[x]})
            <= size (list_to_set l : gset jsstring))%nat
      by (apply subseteq_size, subseteq_difference_l; done).
    lia.
Qed.

Lemma extract_loop_length lines :
  forall braceCount started props,
    (length (extract_loop lines braceCount started props)
     <= length props + length lines)%nat.
Proof.
  induction lines as [|text rest IH]; intros braceCount started props;
    cbn [extract_loop length]; [lia|].
  match goal with
  | |- context [if ?c then match propMatch text with
                          | Some p => props ++ [p] | None => props end
                else props] =>
      assert (length (if c then match propMatch text with
                                | Some p => props ++ [p] | None => props end
                      else props) <= S (length props))%nat as Hhere
  end.
  { destruct (_ && _); [|lia]. destruct (propMatch text); [|lia].
    rewrite length_app. cbn [length]. lia. }
  destruct (_ && (_ =? 0)); [lia|].
  etransitivity; [apply IH|]. lia.
Qed.

(** A candidate has between two and fifty property names. *)
Lemma collect_types_bound path_join projectPath fileContents allSymbols t :
  t ∈ collect_types path_join projectPath fileContents allSymbols ->
  (2 <= length (properties t) <= 50)%nat.
Proof.
  intros Ht.
  destruct (collect_types_origin _ _ _ _ _ Ht)
    as (sym & content & _ & _ & _ & Hprops & Hlen & _).
  split; [done|]. rewrite Hprops. unfold extractTypeProperties.
  etransitivity; [apply extract_loop_length|].
  cbn [length]. rewrite length_take. lia.
Qed.

(** The doubles met by the detector: for a quotient of counts up to a
    hundred, the test against [0.5] decides whether the quotient is at
    least one half, and the stored percentage is an integer nearest to a
    hundred times the quotient. *)
Lemma double_table :
  forallb
    (fun d =>
       forallb
         (fun n =>
            let x := double_div (Number (Z.of_nat n)) (Number (Z.of_nat d)) in
            let r := Math_round (double_mul x (Number 100)) in
            Bool.eqb (double_ge x SIMILARITY_THRESHOLD) (d <=? 2 * n)%nat
            && (200 * Z.of_nat n - Z.of_nat d <=? 2 * Z.of_nat d * r)
            && (2 * Z.of_nat d * r <=? 200 * Z.of_nat n + Z.of_nat d))
         (seq 0 (S d)))
    (seq 1 100) = true.
Proof. vm_compute. reflexivity. Qed.

Lemma double_quotient (n d : nat) :
  (1 <= d <= 100)%nat -> (n <= d)%nat ->
  let x := double_div (Number (Z.of_nat n)) (Number (Z.of_nat d)) in
  let r := Math_round (double_mul x (Number 100)) in
  (double_ge x SIMILARITY_THRESHOLD = true <-> (d <= 2 * n)%nat)
  /\ 200 * Z.of_nat n - Z.of_nat d <= 2 * Z.of_nat d * r
     <= 200 * Z.of_nat n + Z.of_nat d.
Proof.
  intros Hd Hn. pose proof double_table as H.
  rewrite forallb_forall in H. specialize (H d).
  rewrite forallb_forall in H.
  assert (In d (seq 1 100)) as Hind by (apply in_seq; lia).
  assert (In n (seq 0 (S d))) as Hinn by (apply in_seq; lia).
  specialize (H Hind n Hinn). cbv zeta in H |- *.
  apply andb_true_iff in H as [H H3]. apply andb_true_iff in H as [H1 H2].
  apply Bool.eqb_prop in H1. rewrite H1, Nat.leb_le. split; [done|lia].
Qed.

Lemma nearest_integer_quotient (n d : nat) (r : Z) :
  (1 <= d)%nat ->
  200 * Z.of_nat n - Z.of_nat d <= 2 * Z.of_nat d * r
  <= 200 * Z.of_nat n + Z.of_nat d ->
  nearest_integer (100 * Qmake (Z.of_nat n) (Pos.of_nat d)) r.
Proof.
  intros Hd H. unfold nearest_integer, Qle, Qminus, Qplus, Qopp, Qmult, inject_Z.
  cbn [Qnum Qden]. rewrite !Pos2Z.inj_mul, Zpos_of_nat by lia. lia.
Qed.

(** The group pushed for a pair, whatever the property lists. *)
Lemma pushed_group_fields t1 t2 :
  types (pushed_group t1 t2) = (t1, t2)
  /\ sharedProperties (pushed_group t1 t2)
     = filter (fun p => p ∈ properties t2) (properties t1).
Proof.
  unfold pushed_group, calculateSimilarity. cbn. split; [done|].
  apply list_filter_iff. intros p. by rewrite elem_of_list_to_set.
Qed.

(** On a first list without repetition, and lists of at most fifty
    names, the test of the code is the test on the Jaccard similarity,
    and the stored similarity is the rounded percentage. *)
Lemma similarity_test_jaccard t1 t2 :
  NoDup (properties t1) ->
  (1 <= length (properties t1) <= 50)%nat ->
  (length (properties t2) <= 50)%nat ->
  (similarity_test t1 t2 = true <-> similar_enough t1 t2)
  /\ similarity (pushed_group t1 t2)
     = Math_round
         (double_mul
            (double_div
               (Number (Z.of_nat (size (property_set t1 ∩ property_set t2))))
               (Number (Z.of_nat (size (property_set t1 ∪ property_set t2)))))
            (Number 100))
  /\ nearest_integer (100 * jaccard (property_set t1) (property_set t2))
                     (similarity (pushed_group t1 t2)).
Proof.
  intros Hnd Hl1 Hl2.
  destruct (calculateSimilarity_jaccard (properties t1) (properties t2) Hnd)
    as [Hc Hlen].
  fold (property_set t1) (property_set t2) in *.
  set (n := size (property_set t1 ∩ property_set t2)) in *.
  set (d := size (property_set t1 ∪ property_set t2)).
  assert (n <= d)%nat as Hnd'.
  { apply subseteq_size. transitivity (property_set t1);
      [apply intersection_subseteq_l|apply union_subseteq_l]. }
  assert (1 <= d <= 100)%nat as Hd.
  { split.
    - assert (size (property_set t1) <= d)%nat
        by apply subseteq_size, union_subseteq_l.
      unfold property_set in *. rewrite size_list_to_set in * by done. lia.
    - unfold d, property_set. rewrite <- list_to_set_app_L.
      etransitivity; [apply size_list_to_set_le|]. rewrite length_app. lia. }
  assert (to_double (jaccard (property_set t1) (property_set t2))
          = double_div (Number (Z.of_nat n)) (Number (Z.of_nat d))) as Hdouble.
  { unfold to_double, jaccard. cbn [Qnum Qden]. fold n d.
    by rewrite Zpos_of_nat by lia. }
  destruct (double_quotient n d Hd Hnd') as [Htest Hround].
  cbv zeta in Htest, Hround.
  unfold similarity_test, pushed_group. rewrite Hc, Hdouble.
  cbn [similarity]. split_and!.
  - rewrite andb_true_iff, Htest, Nat.leb_le, Hlen. unfold similar_enough.
    fold n. unfold jaccard, Qle. cbn [Qnum Qden]. fold n d.
    rewrite Zpos_of_nat by lia. split; intros [? ?]; split; lia.
  - done.
  - unfold jaccard. fold n d. by apply nearest_integer_quotient; [lia|].
Qed.

(** A key is compared once: the groups pushed have different keys, all of
    them processed. *)
Lemma compare_types_keys t1 t2 processed out :
  NoDup (group_key <$> out) ->
  (forall g, g ∈ out -> group_key g ∈ processed) ->
  NoDup (group_key <$> snd (compare_types t1 t2 (processed, out)))
  /\ (forall g, g ∈ snd (compare_types t1 t2 (processed, out)) ->
        group_key g ∈ fst (compare_types t1 t2 (processed, out))).
Proof.
  intros Hnd Hin. rewrite compare_types_step.
  destruct (bool_decide _); [done|].
  destruct (bool_decide _) eqn:E; [done|]. apply bool_decide_eq_false in E.
  cbn [fst snd].
  assert (group_key (pushed_group t1 t2)
          = pairKey (type_name t1) (type_name t2)) as Hkey.
  { unfold group_key. by rewrite (proj1 (pushed_group_fields t1 t2)). }
  destruct (similarity_test t1 t2); split.
  - rewrite fmap_app. apply NoDup_app. split; [done|]. split.
    + intros k Hk Hk'.
      apply list_elem_of_fmap in Hk' as (g' & Hk' & Hg').
      apply list_elem_of_singleton in Hg' as ->.
      apply list_elem_of_fmap in Hk as (g & -> & Hg). apply E.
      rewrite <- Hkey, <- Hk'. by apply Hin.
    + cbn. apply NoDup_singleton.
  - intros g Hg. apply elem_of_app in Hg as [Hg|Hg].
    + apply elem_of_union. left. by apply Hin.
    + apply list_elem_of_singleton in Hg as ->. rewrite Hkey.
      apply elem_of_union. right. by apply elem_of_singleton.
  - done.
  - intros g Hg. apply elem_of_union. left. by apply Hin.
Qed.

Lemma compare_all_keys ts :
  forall processed out,
    NoDup (group_key <$> out) ->
    (forall g, g ∈ out -> group_key g ∈ processed) ->
    NoDup (group_key <$> snd (compare_all ts (processed, out)))
    /\ (forall g, g ∈ snd (compare_all ts (processed, out)) ->
          group_key g ∈ fst (compare_all ts (processed, out))).
Proof.
  assert (forall t1 later processed out,
            NoDup (group_key <$> out) ->
            (forall g, g ∈ out -> group_key g ∈ processed) ->
            NoDup (group_key <$> snd (compare_with t1 later (processed, out)))
            /\ (forall g, g ∈ snd (compare_with t1 later (processed, out)) ->
                  group_key g ∈ fst (compare_with t1 later (processed, out))))
    as Hrow.
  { intros t1 later. unfold compare_with.
    induction later as [|t2 later IH]; intros processed out Hnd Hin; [done|].
    cbn [fold_left].
    destruct (compare_types_keys t1 t2 processed out Hnd Hin) as [H1 H2].
    destruct (compare_types t1 t2 (processed, out)) as [processed1 out1].
    by apply IH. }
  induction ts as [|t1 later IH]; intros processed out Hnd Hin; [done|].
  cbn [compare_all].
  destruct (Hrow t1 later processed out Hnd Hin) as [H1 H2].
  destruct (compare_with t1 later (processed, out)) as [processed1 out1].
  by apply IH.
Qed.

(** C7, as amended: the detector compares the pairs of candidates (class
    and interface symbols with at least two extracted property names)
    that have different names and whose key, the two names sorted and
    joined by ['|'], was not the key of an earlier pair; pairs of equal
    names and pairs whose key was met before are skipped, so that no two
    findings have the same key.  For a compared pair whose first property
    list repeats no name, a finding is emitted exactly when the Jaccard
    similarity of the two property sets is at or above 0.5 and at least
    two properties are shared; the finding lists the shared properties in
    the order of the first type and stores the similarity as a
    percentage, an integer nearest to a hundred times the Jaccard
    similarity (the product is rounded as a double).  Two differently
    named types with properties [label, data] and [label, data, extra]
    give one finding, of similarity 2/3 (stored as 67) and shared
    properties [label, data]. *)
Theorem C7_similar_types_by_jaccard
    (path_join : jsstring -> jsstring -> jsstring) (projectPath : jsstring)
    (fileContents : gmap jsstring jsstring) (allSymbols : list SymbolInfo) :
  let candidates := collect_types path_join projectPath fileContents allSymbols in
  let findings :=
    analyze_similar_types path_join projectPath fileContents allSymbols in
  (forall g,
     g ∈ findings ->
     exists i j t1 t2,
       compared_pair candidates i j t1 t2
       /\ types g = (t1, t2)
       /\ sharedProperties g
          = filter (fun p => p ∈ properties t2) (properties t1)
       /\ (NoDup (properties t1) ->
           similar_enough t1 t2
           /\ nearest_integer
                (100 * jaccard (property_set t1) (property_set t2))
                (similarity g)))
  /\ (forall i j t1 t2,
        compared_pair candidates i j t1 t2 ->
        NoDup (properties t1) ->
        similar_enough t1 t2 ->
        exists g,
          g ∈ findings
          /\ types g = (t1, t2)
          /\ sharedProperties g
             = filter (fun p => p ∈ properties t2) (properties t1)
          /\ similarity g
             = Math_round
                 (double_mul
                    (double_div
                       (Number (Z.of_nat
                                  (size (property_set t1 ∩ property_set t2))))
                       (Number (Z.of_nat
                                  (size (property_set t1 ∪ property_set t2)))))
                    (Number 100))
          /\ nearest_integer
               (100 * jaccard (property_set t1) (property_set t2))
               (similarity g))
  /\ NoDup (group_key <$> findings)
  /\ (forall t1 t2,
        type_name t1 <> type_name t2 ->
        properties t1 = [js "label"; js "data"] ->
        properties t2 = [js "label"; js "data"; js "extra"] ->
        sort_by_similarity (snd (compare_all [t1; t2] (∅, [])))
        = [{| types := (t1, t2); sharedProperties := [js "label"; js "data"];
              similarity := 67 |}]
        /\ (jaccard (property_set t1) (property_set t2) == 2 # 3)%Q).
Proof.
  intros candidates findings.
  assert (forall g,
            g ∈ findings <->
            exists i j t1 t2,
              compared_pair candidates i j t1 t2
              /\ similarity_test t1 t2 = true /\ g = pushed_group t1 t2)
    as Hfind.
  { intros g. unfold findings, analyze_similar_types.
    rewrite sort_by_similarity_perm. fold candidates.
    rewrite (compare_all_spec candidates ∅ [] g). split.
    - intros [Hg|(i & j & t1 & t2 & ? & _ & ? & ?)];
        [by apply elem_of_nil in Hg|]. by exists i, j, t1, t2.
    - intros (i & j & t1 & t2 & ? & ? & ?). right. exists i, j, t1, t2.
      split_and!; try done; apply not_elem_of_empty. }
  assert (forall i j t1 t2,
            compared_pair candidates i j t1 t2 ->
            (2 <= length (properties t1) <= 50)%nat
            /\ (length (properties t2) <= 50)%nat) as Hbound.
  { intros i j t1 t2 (_ & Hi & Hj & _).
    apply list_elem_of_lookup_2 in Hi, Hj.
    apply collect_types_bound in Hi, Hj. lia. }
  split_and!.
  - intros g Hg. apply Hfind in Hg as (i & j & t1 & t2 & Hpair & Htest & ->).
    exists i, j, t1, t2.
    destruct (pushed_group_fields t1 t2) as [Ht Hs].
    split_and!; try done. intros Hnd.
    destruct (Hbound i j t1 t2 Hpair) as [Hl1 Hl2].
    destruct (similarity_test_jaccard t1 t2 Hnd) as (H1 & _ & H3); [lia|lia|].
    split; [by apply H1|done].
  - intros i j t1 t2 Hpair Hnd Hsim. exists (pushed_group t1 t2).
    destruct (pushed_group_fields t1 t2) as [Ht Hs].
    destruct (Hbound i j t1 t2 Hpair) as [Hl1 Hl2].
    destruct (similarity_test_jaccard t1 t2 Hnd) as (H1 & H2 & H3); [lia|lia|].
    split_and!; try done. apply Hfind. exists i, j, t1, t2.
    split_and!; try done. by apply H1.
  - unfold findings, analyze_similar_types.
    rewrite sort_by_similarity_perm. fold candidates.
    apply (compare_all_keys candidates ∅ []); [constructor|].
    intros g Hg. by apply elem_of_nil in Hg.
  - intros t1 t2 Hne H1 H2. split.
    + cbn [compare_all compare_with fold_left]. rewrite compare_types_step.
      rewrite bool_decide_eq_false_2 by done.
      rewrite bool_decide_eq_false_2 by apply not_elem_of_empty.
      unfold similarity_test, pushed_group. rewrite H1, H2.
      replace (calculateSimilarity [js "label"; js "data"]
                 [js "label"; js "data"; js "extra"])
        with ([js "label"; js "data"], (2 # 3)%Q) by (vm_compute; reflexivity).
      replace (double_ge (to_double (2 # 3)) SIMILARITY_THRESHOLD) with true
        by (vm_compute; reflexivity).
      replace (Math_round (double_mul (to_double (2 # 3)) (Number 100)))
        with 67 by (vm_compute; reflexivity).
      reflexivity.
    + unfold property_set. rewrite H1, H2. vm_compute. reflexivity.
Qed.

(** The amended statement on the sample file: [A] and [B] are compared,
    they are similar enough, and their finding is the only one. *)
Lemma C7_similar_types_by_jaccard_witness :
  let candidates := collect_types sample_join (js "/project") sample_types_files
                      [sample_A; sample_B] in
  let findings := analyze_similar_types sample_join (js "/project")
                    sample_types_files [sample_A; sample_B] in
  candidates = [sample_type_A; sample_type_B]
  /\ compared_pair candidates 0 1 sample_type_A sample_type_B
  /\ NoDup (properties sample_type_A)
  /\ similar_enough sample_type_A sample_type_B
  /\ (exists g,
        g ∈ findings /\ types g = (sample_type_A, sample_type_B)
        /\ sharedProperties g = [js "label"; js "data"]
        /\ similarity g = 67)
  /\ findings = [sample_group_AB].
Proof.
  intros candidates findings.
  assert (candidates = [sample_type_A; sample_type_B]) as Hc
    by (vm_compute; reflexivity).
  assert (compared_pair candidates 0 1 sample_type_A sample_type_B) as Hpair.
  { rewrite Hc. unfold compared_pair, compared_before.
    split_and!; [lia|done|done|vm_compute; discriminate|].
    intros (i' & j' & a & b & ? & ? & _). lia. }
  assert (NoDup (properties sample_type_A)) as Hnd.
  { apply (bool_decide_unpack _). vm_compute. exact I. }
  assert (similar_enough sample_type_A sample_type_B) as Hsim.
  { split; [vm_compute; discriminate|vm_compute; lia]. }
  split; [exact Hc|]. split; [exact Hpair|]. split; [exact Hnd|].
  split; [exact Hsim|]. split; [|vm_compute; reflexivity].
  destruct (C7_similar_types_by_jaccard sample_join (js "/project")
              sample_types_files [sample_A; sample_B]) as (_ & H & _).
  destruct (H 0%nat 1%nat sample_type_A sample_type_B Hpair Hnd Hsim)
    as (g & Hg & Ht & Hs & Hr & _).
  exists g. split; [exact Hg|]. split; [exact Ht|]. split.
  - etransitivity; [exact Hs|]. vm_compute. reflexivity.
  - etransitivity; [exact Hr|]. vm_compute. reflexivity.
Defined.

(** C7, as the specification states it, fails.  Interface [A] of
    [a.ts] and interface [B] of [c.ts] are differently named candidates
    with the same two properties (similarity 1, two shared), but the
    pair is skipped, because the name pair [A|B] was already compared
    when [A] met the interface [B] of [b.ts]; and the two interfaces [B],
    equally named, are never compared.  Nothing is reported.  And in
    [nested.ts] the property list of [P] repeats [x], which is counted
    twice among the shared names: [P] and [Q] share one property out of
    four, and are reported with two shared properties and similarity
    50. *)
Lemma C7_same_name_pairs_counterexample :
  let candidates := collect_types sample_join (js "/project") sample_three_files
                      sample_three_symbols in
  let a := sample_type "A" "a.ts" ["x"; "y"] in
  let b := sample_type "B" "c.ts" ["x"; "y"] in
  let p := {| type_name := js "P"; type_file := js "nested.ts"; type_line := 1;
              properties := [js "x"; js "inner"; js "x"] |} in
  let q := {| type_name := js "Q"; type_file := js "nested.ts"; type_line := 7;
              properties := [js "x"; js "y"; js "z"] |} in
  (candidates = [a; sample_type "B" "b.ts" ["p"; "q"]; b]
   /\ type_name a <> type_name b
   /\ similar_enough a b
   /\ analyze_similar_types sample_join (js "/project") sample_three_files
        sample_three_symbols = [])
  /\ (collect_types sample_join (js "/project") sample_nested_files
        [sample_P; sample_Q] = [p; q]
      /\ (jaccard (property_set p) (property_set q) == 1 # 4)%Q
      /\ size (property_set p ∩ property_set q) = 1%nat
      /\ ~ similar_enough p q
      /\ analyze_similar_types sample_join (js "/project") sample_nested_files
           [sample_P; sample_Q]
         = [{| types := (p, q); sharedProperties := [js "x"; js "x"];
               similarity := 50 |}]).
Proof.
  split; split_and!.
  - vm_compute. reflexivity.
  - vm_compute. discriminate.
  - split.
    + vm_compute. discriminate.
    + vm_compute. lia.
  - vm_compute. reflexivity.
  - vm_compute. reflexivity.
  - vm_compute. reflexivity.
  - vm_compute. reflexivity.
  - intros [_ H]. vm_compute in H. lia.
  - vm_compute. reflexivity.
Qed.

(** ** The dead-parameter detector *)

Lemma span_spec f s :
  s = fst (span f s) ++ snd (span f s)
  /\ Forall (fun c => f c = true) (fst (span f s))
  /\ (forall c rest, snd (span f s) = c :: rest -> f c = false).
Proof.
  induction s as [|c s IH]; cbn [span].
  { split_and!; [done|constructor|done]. }
  destruct (f c) eqn:E.
  - destruct (span f s) as [a b]. cbn [fst snd] in *.
    destruct IH as (-> & Hall & Hrest). split_and!; [done| |done].
    by constructor.
  - cbn [fst snd]. split_and!; [done|constructor|]. by intros ? ? [= <- _].
Qed.

(** What [nameMatch] captures is a non-empty run of word characters. *)
Lemma nameMatch_word p nm :
  nameMatch p = Some nm -> nm <> [] /\ Forall (fun c => is_word c = true) nm.
Proof.
  unfold nameMatch. pose proof (span_spec is_word (trim p)) as (_ & Hall & _).
  destruct (fst (span is_word (trim p))) as [|c w]; [done|].
  intros [= <-]. split; [done|exact Hall].
Qed.

Lemma params_of_word inside param :
  param ∈ params_of inside ->
  param <> [] /\ Forall (fun c => is_word c = true) param.
Proof.
  unfold params_of. intros H. apply list_elem_of_omap in H as (p & _ & H).
  by apply nameMatch_word in H.
Qed.

Lemma strip_prefix_Some p s r : strip_prefix p s = Some r <-> s = p ++ r.
Proof.
  split; [apply strip_prefix_app|]. intros ->. apply strip_prefix_app_eq.
Qed.

(** The regular expression test finds [param] exactly where it stands as
    a whole word. *)
Lemma paramRegex_test_from_spec param :
  param <> [] ->
  Forall (fun c => is_word c = true) param ->
  forall text prev,
    paramRegex_test_from prev param text = true <->
    exists before after,
      text = before ++ param ++ after
      /\ word_at (from_option Some prev (last before)) = false
      /\ word_at (head after) = false.
Proof.
  intros Hne Hw.
  assert (word_at (head param) = true) as Hhead.
  { destruct param as [|c param]; [done|]. by apply Forall_cons in Hw as [? _]. }
  assert (word_at (last param) = true) as Hlast.
  { destruct (last param) as [c|] eqn:E.
    - apply last_Some_elem_of in E. rewrite Forall_forall in Hw. by apply Hw.
    - apply last_None in E. done. }
  assert (forall text prev,
            boundary prev (head text)
            && match strip_prefix param text with
               | Some rest => boundary (last param) (head rest)
               | None => false
               end = true
            <-> exists after, text = param ++ after
                              /\ word_at prev = false
                              /\ word_at (head after) = false) as Hhere.
  { intros text prev. destruct (strip_prefix param text) as [rest|] eqn:E.
    - apply strip_prefix_Some in E as ->.
      assert (head (param ++ rest) = head param) as ->.
      { by destruct param. }
      unfold boundary. rewrite Hhead, Hlast. split.
      + intros H. apply andb_true_iff in H as [H1 H2]. exists rest.
        split; [done|]. split.
        * by destruct (word_at prev).
        * by destruct (word_at (head rest)).
      + intros (after & Heq & H1 & H2). apply app_inv_head in Heq as <-.
        by rewrite H1, H2.
    - rewrite andb_false_r. split; [done|]. intros (after & -> & _).
      by rewrite strip_prefix_app_eq in E. }
  induction text as [|c text IH]; intros prev; cbn [paramRegex_test_from].
  - rewrite orb_false_r, Hhere. split.
    + intros (after & ? & ? & ?). by exists [], after.
    + intros (before & after & Heq & ? & ?).
      destruct before; [|done]. by exists after.
  - rewrite orb_true_iff, Hhere, IH. split.
    + intros [(after & ? & ? & ?)|(before & after & -> & H1 & H2)].
      * by exists [], after.
      * exists (c :: before), after. split; [done|]. split; [|done].
        rewrite last_cons. by destruct (last before).
    + intros (before & after & Heq & H1 & H2). destruct before as [|c' before].
      * left. by exists after.
      * right. injection Heq as <- ->. exists before, after.
        split; [done|]. split; [|done].
        rewrite last_cons in H1. by destruct (last before).
Qed.

Lemma paramRegex_test_spec param text :
  param <> [] ->
  Forall (fun c => is_word c = true) param ->
  paramRegex_test param text = true <-> occurs_as_word param text.
Proof.
  intros Hne Hw. unfold paramRegex_test, occurs_as_word.
  rewrite (paramRegex_test_from_spec param Hne Hw).
  split; intros (before & after & ? & H1 & ?); exists before, after;
    (split; [done|]); (split; [|done]);
    by destruct (last before).
Qed.

Lemma is_receiver_false param :
  is_receiver param = false <->
  param <> js "self" /\ param <> js "this" /\ param <> js "cls".
Proof.
  unfold is_receiver. rewrite !orb_false_iff, !bool_decide_eq_false. tauto.
Qed.

(** The loop over the parameters of one symbol. *)
Lemma dead_params_loop sym body params out d :
  d ∈ fold_left
        (fun out param =>
           if is_receiver param then out
           else if negb (paramRegex_test param body) then
             out ++ [{| functionName := fullName sym; parameterName := param;
                        dead_file := file sym;
                        dead_line := (line (range_start (range sym)) + 1)%nat |}]
           else out)
        params out
  <-> d ∈ out
      \/ exists param,
           param ∈ params /\ is_receiver param = false
           /\ paramRegex_test param body = false
           /\ d = dead_parameter sym param.
Proof.
  revert out. induction params as [|p params IH]; intros out; cbn [fold_left].
  { split; [by left|]. intros [?|(p & Hp & _)]; [done|].
    by apply elem_of_nil in Hp. }
  rewrite IH. split.
  - intros [Hd|(q & ? & ? & ? & ->)].
    + destruct (is_receiver p) eqn:E1; [by left|].
      destruct (paramRegex_test p body) eqn:E2; cbn [negb] in Hd; [by left|].
      apply elem_of_app in Hd as [?|Hd]; [by left|].
      apply list_elem_of_singleton in Hd as ->. right. exists p.
      split; [left|done].
    + right. exists q. split; [by right|done].
  - intros [?|(q & Hq & E1 & E2 & ->)].
    + left. destruct (is_receiver p); [done|].
      destruct (negb _); [|done]. apply elem_of_app. by left.
    + apply elem_of_cons in Hq as [->|Hq].
      * left. rewrite E1, E2. cbn [negb]. apply elem_of_app. right.
        by apply list_elem_of_singleton.
      * right. by exists q.
Qed.

(** One symbol. *)
Lemma dead_step_spec path_join projectPath fileContents out sym d :
  d ∈ dead_step path_join projectPath fileContents out sym
  <-> d ∈ out
      \/ exists content inside param,
           (kindName sym = js "function" \/ kindName sym = js "method")
           /\ fileContents !! path_join projectPath (file sym) = Some content
           /\ content <> []
           /\ paramMatch (sigLine_of content sym) = Some inside
           /\ param ∈ params_of inside
           /\ is_receiver param = false
           /\ paramRegex_test param (bodyLines_of (split_on LF content) sym) = false
           /\ d = dead_parameter sym param.
Proof.
  unfold dead_step.
  destruct (bool_decide (kindName sym = js "function")
            || bool_decide (kindName sym = js "method")) eqn:Ek; cbn [negb].
  2:{ split; [by left|]. intros [?|(c & i & p & Hk & _)]; [done|]. exfalso.
      apply orb_false_iff in Ek as [E1 E2].
      apply bool_decide_eq_false in E1, E2. tauto. }
  assert (kindName sym = js "function" \/ kindName sym = js "method") as Hk.
  { apply orb_true_iff in Ek as [E|E]; apply bool_decide_eq_true in E; tauto. }
  destruct (fileContents !! path_join projectPath (file sym))
    as [[|c0 content]|] eqn:Hc.
  - split; [by left|]. intros [?|(c & i & p & _ & [= <-] & ? & _)]; done.
  - fold (sigLine_of (c0 :: content) sym).
    destruct (paramMatch (sigLine_of (c0 :: content) sym)) as [inside|] eqn:Hm.
    + rewrite dead_params_loop. split.
      * intros [?|(p & ? & ? & ? & ->)]; [by left|]. right.
        exists (c0 :: content), inside, p. by split_and!.
      * intros [?|(c & i & p & _ & [= <-] & _ & Hi & ? & ? & ? & ->)]; [by left|].
        rewrite Hm in Hi. injection Hi as <-. right. by exists p.
    + split; [by left|].
      intros [?|(c & i & p & _ & [= <-] & _ & Hi & _)]; [done|].
      by rewrite Hm in Hi.
  - split; [by left|]. intros [?|(c & i & p & _ & [=] & _)]; done.
Qed.

(** What the detector reports, for every list of symbols: the parameters
    captured on the declaration line of a function or method, other than
    [self], [this] and [cls], that do not occur as a whole word in the
    lines after the declaration line, up to the end line of the symbol's
    range. *)
Lemma analyze_dead_params_spec
    (path_join : jsstring -> jsstring -> jsstring) (projectPath : jsstring)
    (fileContents : gmap jsstring jsstring) (allSymbols : list SymbolInfo) :
  (forall d,
     d ∈ analyze_dead_params path_join projectPath fileContents allSymbols <->
     exists sym content inside param,
       sym ∈ allSymbols
       /\ (kindName sym = js "function" \/ kindName sym = js "method")
       /\ fileContents !! path_join projectPath (file sym) = Some content
       /\ content <> []
       /\ paramMatch (sigLine_of content sym) = Some inside
       /\ param ∈ params_of inside
       /\ param <> js "self" /\ param <> js "this" /\ param <> js "cls"
       /\ ~ occurs_as_word param (bodyLines_of (split_on LF content) sym)
       /\ d = dead_parameter sym param)
  /\ (forall inside param,
        param ∈ params_of inside ->
        param <> [] /\ Forall (fun c => is_word c = true) param).
Proof.
  split; [|apply params_of_word].
  unfold analyze_dead_params.
  assert (forall out d,
            d ∈ fold_left (dead_step path_join projectPath fileContents)
                          allSymbols out <->
            d ∈ out
            \/ exists sym content inside param,
                 sym ∈ allSymbols
                 /\ (kindName sym = js "function" \/ kindName sym = js "method")
                 /\ fileContents !! path_join projectPath (file sym) = Some content
                 /\ content <> []
                 /\ paramMatch (sigLine_of content sym) = Some inside
                 /\ param ∈ params_of inside
                 /\ is_receiver param = false
                 /\ paramRegex_test param (bodyLines_of (split_on LF content) sym)
                    = false
                 /\ d = dead_parameter sym param) as H.
  { induction allSymbols as [|sym syms IH]; intros out d; cbn [fold_left].
    - split; [by left|]. intros [?|(s & _ & _ & _ & Hs & _)]; [done|].
      by apply elem_of_nil in Hs.
    - rewrite IH, dead_step_spec. split.
      + intros [[?|(c & i & p & ?)]|(s & c & i & p & ? & ?)].
        * by left.
        * right. exists sym, c, i, p. split; [left|done].
        * right. exists s, c, i, p. split; [by right|done].
      + intros [?|(s & c & i & p & Hs & ?)]; [by left; left|].
        apply elem_of_cons in Hs as [->|Hs].
        * left. right. by exists c, i, p.
        * right. by exists s, c, i, p. }
  intros d. rewrite H. split.
  - intros [Hd|(s & c & i & p & ? & ? & ? & ? & ? & Hp & Hr & Ht & ->)];
      [by apply elem_of_nil in Hd|].
    exists s, c, i, p. apply is_receiver_false in Hr as (? & ? & ?).
    destruct (params_of_word _ _ Hp) as [Hne Hw].
    split_and!; try done.
    rewrite <- (paramRegex_test_spec p _ Hne Hw). by rewrite Ht.
  - intros (s & c & i & p & ? & ? & ? & ? & ? & Hp & ? & ? & ? & Hocc & ->).
    right. exists s, c, i, p.
    destruct (params_of_word _ _ Hp) as [Hne Hw].
    split_and!; try done.
    + by apply is_receiver_false.
    + rewrite <- (paramRegex_test_spec p _ Hne Hw) in Hocc.
      by destruct (paramRegex_test p _).
Qed.

(** C8: a parameter that the body uses on the declaration line is
    reported as dead.  The function [area] is declared on one line; its
    body, the text between the braces, uses both parameters as whole
    words.  The text the detector searches starts on the line after the
    declaration line, so it is empty here, and both parameters are
    reported.  In the same way [name] is reported for a function whose
    body starts on the declaration line and goes on for two more lines,
    while [punct], which is used on a later line, is not. *)
Theorem C8_parameter_used_on_declaration_line_is_reported :
  let area :=
    {| name := js "area"; fullName := js "area"; kind := 12;
       kindName := js "function";
       uri := js "file:///project/geometry.ts"; file := js "geometry.ts";
       range := {| range_start := {| line := 0; character := 0 |};
                   range_end := {| line := 0; character := 37 |} |};
       selectionRange := None; detail := None |} in
  let declaration := js "function area(w, h) " in
  let body := js "{ return w * h; }" in
  let files : gmap jsstring jsstring :=
    {[ js "/project/geometry.ts" := declaration ++ body ]} in
  length (declaration ++ body) = 37%nat
  /\ SYMBOL_KINDS 12 = Some (js "function")
  /\ occurs_as_word (js "w") body
  /\ occurs_as_word (js "h") body
  /\ bodyLines_of (split_on LF (declaration ++ body)) area = []
  /\ analyze_dead_params sample_join (js "/project") files [area]
     = [dead_parameter area (js "w"); dead_parameter area (js "h")]
  /\ (let greet := sample_symbol "greet" 12 "greet.ts" 0 2 in
      let declaration := js "function greet(name, punct) " in
      let body := text_of ["{ const who = name.trim();";
                           "  return who + punct;";
                           "}"] in
      let files : gmap jsstring jsstring :=
        {[ js "/project/greet.ts" := declaration ++ body ]} in
      length (split_on LF (declaration ++ body)) = 3%nat
      /\ occurs_as_word (js "name") body
      /\ occurs_as_word (js "punct") body
      /\ bodyLines_of (split_on LF (declaration ++ body)) greet
         = text_of ["  return who + punct;"; "}"]
      /\ analyze_dead_params sample_join (js "/project") files [greet]
         = [dead_parameter greet (js "name")]).
Proof.
  assert (forall param text : jsstring,
            param <> [] ->
            forallb is_word param = true ->
            paramRegex_test param text = true ->
            occurs_as_word param text) as Hocc.
  { intros param text Hne Hw Ht. apply paramRegex_test_spec; [done| |done].
    apply Forall_forall. intros c Hc. rewrite forallb_forall in Hw.
    apply Hw. by apply list_elem_of_In. }
  cbv zeta.
  split_and!; try (vm_compute; reflexivity);
    apply Hocc; solve [vm_compute; discriminate | vm_compute; reflexivity].
Qed.

(** ** Decoding a stream of ASCII messages *)

Lemma utf8_decode_ascii bs : is_ascii bs -> utf8_decode bs = bs.
Proof.
  induction 1 as [|b bs Hb _ IH]; [done|].
  cbn [utf8_decode]. destruct (b <? 128) eqn:E; [by rewrite IH|]. zbool. lia.
Qed.

Lemma parseInt_app ds1 ds2 a :
  fold_left (fun acc c => acc * 10 + (c - 48)) (ds1 ++ ds2) a
  = fold_left (fun acc c => acc * 10 + (c - 48)) ds2
      (fold_left (fun acc c => acc * 10 + (c - 48)) ds1 a).
Proof. apply fold_left_app. Qed.

(** The digits written for a length are read back as that length. *)
Lemma decimal_fuel_spec fuel n acc :
  0 <= n < 10 ^ Z.of_nat (S fuel) ->
  exists ds,
    decimal_fuel (S fuel) n acc = ds ++ acc
    /\ ds <> []
    /\ Forall (fun c => is_digit c = true) ds
    /\ forall a, fold_left (fun acc c => acc * 10 + (c - 48)) ds a
                 = a * 10 ^ Z.of_nat (length ds) + n.
Proof.
  revert n acc. induction fuel as [|fuel IH]; intros n acc Hn;
    cbn [decimal_fuel]; destruct (n <? 10) eqn:E; zbool.
  - exists [48 + n mod 10]. rewrite Z.mod_small by lia. split_and!; [done|done| |].
    + constructor; [|constructor]. unfold is_digit.
      apply andb_true_iff. split; [apply Z.leb_le|apply Z.leb_le]; lia.
    + intros a. cbn. lia.
  - change (10 ^ Z.of_nat 1) with 10 in Hn. lia.
  - exists [48 + n mod 10]. rewrite Z.mod_small by lia. split_and!; [done|done| |].
    + constructor; [|constructor]. unfold is_digit.
      apply andb_true_iff. split; [apply Z.leb_le|apply Z.leb_le]; lia.
    + intros a. cbn. lia.
  - destruct (IH (n / 10) ((48 + n mod 10) :: acc)) as (ds & Heq & Hne & Hd & Hp).
    { split; [apply Z.div_pos; lia|].
      apply Z.div_lt_upper_bound; [lia|].
      rewrite (Nat2Z.inj_succ (S fuel)), Z.pow_succ_r in Hn by lia. lia. }
    exists (ds ++ [48 + n mod 10]). split_and!.
    + change (decimal_fuel (S fuel) (n / 10) ((48 + n mod 10) :: acc)
              = (ds ++ [48 + n mod 10]) ++ acc).
      rewrite Heq. by rewrite <- app_assoc.
    + by destruct ds.
    + apply Forall_app. split; [done|]. constructor; [|constructor].
      pose proof (Z.mod_pos_bound n 10). unfold is_digit.
      apply andb_true_iff. split; apply Z.leb_le; lia.
    + intros a. rewrite parseInt_app, Hp. cbn [fold_left].
      rewrite length_app. cbn [length]. rewrite Nat.add_1_r, Nat2Z.inj_succ.
      rewrite Z.pow_succ_r by lia.
      pose proof (Z.div_mod n 10). lia.
Qed.

Lemma decimal_spec n :
  0 <= n ->
  decimal n <> []
  /\ Forall (fun c => is_digit c = true) (decimal n)
  /\ parseInt (decimal n) = n.
Proof.
  intros Hn. unfold decimal, parseInt.
  destruct (decimal_fuel_spec (Z.to_nat (Z.log2 n)) n []) as (ds & -> & ? & ? & Hp).
  { split; [done|].
    destruct (Z.eq_dec n 0) as [->|Hne]; [done|].
    pose proof (Z.log2_spec n). pose proof (Z.log2_nonneg n).
    rewrite Nat2Z.inj_succ, Z2Nat.id by lia.
    assert (2 ^ Z.succ (Z.log2 n) <= 10 ^ Z.succ (Z.log2 n)).
    { apply Z.pow_le_mono_l. lia. }
    lia. }
  rewrite app_nil_r. split_and!; [done|done|]. rewrite Hp. lia.
Qed.

Lemma strip_prefix_ci_app p r : strip_prefix_ci p (p ++ r) = Some r.
Proof. induction p as [|a p IH]; cbn; [done|]. by rewrite Z.eqb_refl. Qed.

Lemma span_all f ds rest :
  Forall (fun c => f c = true) ds ->
  (forall c r, rest = c :: r -> f c = false) ->
  span f (ds ++ rest) = (ds, rest).
Proof.
  intros Hds Hrest. induction Hds as [|d ds Hd _ IH]; cbn [app span].
  - destruct rest as [|c r]; [done|]. cbn [span]. by rewrite (Hrest c r).
  - by rewrite Hd, IH.
Qed.

(** The header block written by the client is matched by the header
    pattern of [handleData], which reads the length back. *)
Lemma contentLengthMatch_header ds :
  ds <> [] ->
  Forall (fun c => is_digit c = true) ds ->
  contentLengthMatch (js "Content-Length: " ++ ds) = Some ds.
Proof.
  intros Hne Hds.
  assert (exists c h, js "Content-Length: " ++ ds = c :: h) as (c & h & Heq).
  { by eexists _, _. }
  pose proof (strip_prefix_ci_app (js "Content-Length: ") ds) as Hp.
  pose proof (span_all is_digit ds [] Hds) as Hs.
  rewrite app_nil_r in Hs. rewrite Heq in *.
  cbn [contentLengthMatch]. rewrite Hp, Hs by done. cbn [fst].
  by destruct ds.
Qed.

Lemma indexOf_separator h rest :
  CR ∉ h -> indexOf CRLFCRLF (h ++ CRLFCRLF ++ rest) = Some (length h).
Proof.
  intros Hh. induction h as [|c h IH]; [done|].
  assert (c <> CR) as Hc by (intros ->; apply Hh; left).
  cbn [app indexOf]. unfold CRLFCRLF at 1. cbn [strip_prefix].
  destruct (CR =? c) eqn:E; [zbool; congruence|].
  rewrite IH; [done|]. intros ?. apply Hh. by right.
Qed.

Lemma indexOf_no_separator h p missing :
  CR ∉ h -> missing <> [] -> p ++ missing = h ++ CRLFCRLF ->
  indexOf CRLFCRLF p = None.
Proof.
  intros Hh Hm. revert p. induction h as [|c h IH]; intros p Heq.
  - assert (length p < 4)%nat as Hlen.
    { apply (f_equal length) in Heq. rewrite length_app in Heq.
      destruct missing; [done|]. cbn in Heq. lia. }
    destruct (indexOf CRLFCRLF p) as [i|] eqn:E; [|done].
    apply indexOf_bound in E. cbn in E. lia.
  - assert (c <> CR) as Hc by (intros ->; apply Hh; left).
    destruct p as [|c' p]; [done|]. cbn [app] in Heq. injection Heq as -> Heq.
    cbn [indexOf]. unfold CRLFCRLF at 1. cbn [strip_prefix].
    destruct (CR =? c) eqn:E; [zbool; congruence|].
    rewrite IH; [done| |done]. intros ?. apply Hh. by right.
Qed.

(** The parts of the header written for an ASCII body. *)
Lemma header_of_parts body :
  is_ascii body ->
  exists h ds,
    header_of body = h ++ CRLFCRLF
    /\ (CR ∉ h)
    /\ contentLengthMatch h = Some ds
    /\ parseInt ds = Z.of_nat (length body).
Proof.
  intros Hb.
  assert (Buffer_byteLength body = Z.of_nat (length body)) as Hlen.
  { by rewrite Buffer_byteLength_spec, utf8_encode_ascii. }
  unfold header_of. rewrite Hlen. unfold number_toString.
  destruct (Z.of_nat (length body) <? 0) eqn:E; [zbool; lia|].
  destruct (decimal_spec (Z.of_nat (length body))) as (Hne & Hd & Hp); [lia|].
  exists (js "Content-Length: " ++ decimal (Z.of_nat (length body))),
         (decimal (Z.of_nat (length body))).
  split_and!.
  - by rewrite <- app_assoc.
  - intros Hin. apply elem_of_app in Hin as [Hin|Hin].
    + revert Hin. apply (bool_decide_unpack _). vm_compute. exact I.
    + rewrite Forall_forall in Hd. apply Hd in Hin. by vm_compute in Hin.
  - by apply contentLengthMatch_header.
  - done.
Qed.

Section FramerLoop.
Context {St : Type} (deliver : jsstring -> St -> St).

(** A complete message at the head of the buffer is cut out and handed
over, whatever follows it. *)
Lemma handleData_loop_frame fuel body rest st :
is_ascii body ->
handleData_loop deliver (S fuel) (framed body ++ rest) st
= handleData_loop deliver fuel rest (deliver body st).
Proof.
intros Hb. destruct (header_of_parts body Hb) as (h & ds & Hh & Hcr & Hm & Hp).
unfold framed. rewrite Hh.
assert (((h ++ CRLFCRLF) ++ body) ++ rest = h ++ CRLFCRLF ++ body ++ rest) as ->
by by rewrite <- !app_assoc.
cbn [handleData_loop]. rewrite (indexOf_separator h _ Hcr).
unfold substring, substring_from. rewrite Nat.sub_0_r, drop_0.
rewrite take_app_length, Hm, Hp, Nat2Z.id.
assert (length (h ++ CRLFCRLF ++ body ++ rest)
= (length h + 4 + length body + length rest)%nat) as Hlen.
{ rewrite !length_app. cbn [length CRLFCRLF]. lia. }
rewrite Hlen.
destruct (_ <? _)%nat eqn:E; [apply Nat.ltb_lt in E; lia|].
assert (drop (length h + 4) (h ++ CRLFCRLF ++ body ++ rest) = body ++ rest)
as Hd1.
{ rewrite app_assoc. apply drop_app_length'. rewrite length_app. done. }
assert (drop (length h + 4 + length body) (h ++ CRLFCRLF ++ body ++ rest) = rest)
as Hd2.
{ rewrite <- drop_drop, Hd1. apply drop_app_length. }
rewrite Hd1, Hd2.
replace (length h + 4 + length body - (length h + 4))%nat
with (length body) by lia.
by rewrite take_app_length.
Qed.

(** An incomplete message stays in the buffer and nothing is handed
over. *)
Lemma handleData_loop_partial fuel partial body st :
is_ascii body ->
proper_prefix partial (framed body) ->
handleData_loop deliver fuel partial st = (partial, st).
Proof.
intros Hb (missing & Hne & Heq).
destruct fuel as [|fuel]; [done|].
destruct (header_of_parts body Hb) as (h & ds & Hh & Hcr & Hm & Hp).
unfold framed in Heq. rewrite Hh in Heq. cbn [handleData_loop].
assert ((exists m, m <> [] /\ partial ++ m = h ++ CRLFCRLF)
\/ exists q, partial = h ++ CRLFCRLF ++ q /\ body = q ++ missing)
as [(m & Hm1 & Hm2)|(q & -> & Hq)].
{ apply app_eq_inv in Heq as [(k & Hk1 & Hk2)|(k & Hk1 & Hk2)].
- destruct k as [|c k].
+ right. exists []. rewrite app_nil_r in Hk1. rewrite app_nil_r.
split; [done|]. by rewrite Hk2.
+ left. by exists (c :: k).
- right. exists k. split; [|done]. by rewrite Hk1, <- app_assoc. }
- by rewrite (indexOf_no_separator h partial m Hcr Hm1 Hm2).
- rewrite (indexOf_separator h _ Hcr).
unfold substring. rewrite Nat.sub_0_r, drop_0, take_app_length, Hm, Hp, Nat2Z.id.
destruct (_ <? _)%nat eqn:E; [done|]. apply Nat.ltb_ge in E.
rewrite !length_app in E. cbn [length CRLFCRLF] in E.
rewrite Hq, length_app in E. destruct missing; [done|]. cbn in E. lia.
Qed.

(** A buffer that holds complete messages followed by the beginning of
another one: the messages are handed over in order and the beginning
stays. *)
Lemma handleData_loop_frames bodies partial next fuel st :
Forall is_ascii bodies ->
is_ascii next ->
partial = [] \/ proper_prefix partial (framed next) ->
(length (concat (map framed bodies) ++ partial) < fuel)%nat ->
handleData_loop deliver fuel (concat (map framed bodies) ++ partial) st
= (partial, fold_left (fun st body => deliver body st) bodies st).
Proof.
intros Hbs Hnext Hpartial. revert fuel st.
induction Hbs as [|body bodies Hb Hbs IH]; intros fuel st Hfuel.
- cbn [map concat app fold_left]. destruct Hpartial as [->|Hp].
+ by destruct fuel.
+ by apply (handleData_loop_partial fuel partial next st Hnext).
- destruct fuel as [|fuel]; [lia|].
cbn [map concat fold_left]. rewrite <- app_assoc.
rewrite (handleData_loop_frame fuel body _ st Hb).
apply IH. cbn [map concat] in Hfuel. rewrite <- app_assoc in Hfuel.
rewrite length_app in Hfuel.
assert (0 < length (framed body))%nat.
{ destruct (header_of_parts body Hb) as (h & ds & Hh & _).
unfold framed. rewrite Hh, !length_app. cbn. lia. }
lia.
Qed.
End FramerLoop.

Lemma framed_ascii body : is_ascii body -> is_ascii (framed body).
Proof. intros H. apply Forall_app. split; [apply header_of_ascii|done]. Qed.

Lemma framed_nonempty body : framed body <> [].
Proof.
  unfold framed, header_of. intros H. apply (f_equal length) in H.
  rewrite !length_app in H. cbn in H. lia.
Qed.

Lemma stream_ascii bodies :
  Forall is_ascii bodies -> is_ascii (concat (map framed bodies)).
Proof.
  induction 1 as [|b bs Hb _ IH]; [constructor|].
  cbn. apply Forall_app. split; [by apply framed_ascii|done].
Qed.

(** Wherever a stream of messages is cut, the first part is some whole
    messages followed by the beginning of the next one. *)
Lemma stream_cut bodies x y :
  x ++ y = concat (map framed bodies) ->
  exists done remaining partial,
    bodies = done ++ remaining
    /\ x = concat (map framed done) ++ partial
    /\ partial ++ y = concat (map framed remaining)
    /\ (partial = []
        \/ exists b rs, remaining = b :: rs /\ proper_prefix partial (framed b)).
Proof.
  revert x. induction bodies as [|b bs IH]; intros x Heq.
  { cbn in Heq. apply app_eq_nil in Heq as [-> ->].
    exists [], [], []. split_and!; try done. by left. }
  cbn [map concat] in Heq.
  assert ((exists k, x = framed b ++ k /\ concat (map framed bs) = k ++ y)
          \/ exists k, k <> [] /\ framed b = x ++ k
                       /\ y = k ++ concat (map framed bs)) as [H|H].
  { apply app_eq_inv in Heq as [(k & ? & ?)|(k & Hk1 & Hk2)].
    - left. by exists k.
    - destruct k as [|c k].
      + left. exists []. rewrite app_nil_r in *. by subst.
      + right. by exists (c :: k). }
  - destruct H as (k & -> & Hk). symmetry in Hk.
    destruct (IH k Hk) as (done & remaining & partial & -> & -> & ? & ?).
    exists (b :: done), remaining, partial. split_and!; try done.
    cbn. by rewrite <- app_assoc.
  - destruct H as (k & Hne & Hk1 & ->).
    exists [], (b :: bs), x. split_and!; try done.
    right. exists b, bs. split; [done|]. by exists k.
Qed.

Lemma collect_fold (bodies out : list jsstring) :
  fold_left (fun out body => out ++ [body]) bodies out = out ++ bodies.
Proof.
  revert out. induction bodies as [|b bs IH]; intros out; cbn.
  - by rewrite app_nil_r.
  - rewrite IH. by rewrite <- app_assoc.
Qed.

Lemma feed_all_stream chunks bodies partial :
  Forall is_ascii bodies ->
  partial = []
  \/ (exists b rs, bodies = b :: rs /\ proper_prefix partial (framed b)) ->
  partial ++ concat chunks = concat (map framed bodies) ->
  feed_all partial chunks = ([], bodies).
Proof.
  revert bodies partial.
  induction chunks as [|chunk chunks IH]; intros bodies partial Hb Hp Heq.
  - cbn in Heq. rewrite app_nil_r in Heq. cbn [feed_all].
    destruct Hp as [->|(b & rs & -> & missing & Hne & Hm)].
    + destruct bodies as [|b bs]; [done|]. cbn in Heq. symmetry in Heq.
      apply app_eq_nil in Heq as [Heq _]. by apply framed_nonempty in Heq.
    + cbn in Heq. rewrite Hm in Heq. apply (f_equal length) in Heq.
      rewrite !length_app in Heq. destruct missing; [done|]. cbn in Heq. lia.
  - cbn [concat] in Heq. rewrite app_assoc in Heq.
    assert (is_ascii chunk) as Hchunk.
    { pose proof (stream_ascii bodies Hb) as Ha. rewrite <- Heq in Ha.
      apply Forall_app in Ha as [Ha _]. by apply Forall_app in Ha as [_ ?]. }
    destruct (stream_cut bodies _ _ Heq)
      as (done & remaining & partial' & -> & Hx & Hy & Hp').
    apply Forall_app in Hb as [Hdone Hrem].
    cbn [feed_all]. unfold feed, handleData_buffer.
    rewrite (utf8_decode_ascii chunk Hchunk), Hx.
    assert (exists next, is_ascii next
              /\ (partial' = [] \/ proper_prefix partial' (framed next)))
      as (next & Hnext & Hpn).
    { destruct Hp' as [->|(b & rs & -> & ?)].
      - exists []. split; [constructor|by left].
      - exists b. apply Forall_cons in Hrem as [? _]. split; [done|by right]. }
    rewrite (handleData_loop_frames _ done partial' next _ [] Hdone Hnext Hpn)
      by lia.
    rewrite collect_fold. cbn [app].
    rewrite (IH remaining partial' Hrem Hp' Hy). done.
Qed.

(** X1: the framer round trip on ASCII bodies.  When the messages
    [bodies], each framed as the client frames what it writes, are put on
    the pipe one after the other and the bytes arrive cut into chunks at
    arbitrary places, the decoder surfaces exactly [bodies], in order,
    and ends with an empty buffer. *)
Theorem feed_all_roundtrip (bodies : list jsstring) (chunks : list (list Z)) :
  Forall is_ascii bodies ->
  concat chunks = utf8_encode (concat (map framed bodies)) ->
  feed_all [] chunks = ([], bodies).
Proof.
  intros Hb Heq. rewrite (utf8_encode_ascii _ (stream_ascii bodies Hb)) in Heq.
  apply feed_all_stream; [done|by left|done].
Qed.

(** Two responses, cut in the middle of the first header, in the middle
    of the first body and in the middle of the second header. *)
Lemma feed_all_roundtrip_witness :
  let b1 := JSON_stringify (response 1 (JStr (js "one"))) in
  let b2 := JSON_stringify (response 2 (JArr [])) in
  let stream := utf8_encode (framed b1 ++ framed b2) in
  let chunks := [take 7 stream; take 30 (drop 7 stream);
                 take 40 (drop 37 stream); drop 77 stream] in
  Forall is_ascii [b1; b2]
  /\ concat chunks = stream
  /\ feed [] (take 7 stream) = (js "Content", [])
  /\ feed_all [] chunks = ([], [b1; b2]).
Proof.
  intros b1 b2 stream chunks.
  assert (Forall is_ascii [b1; b2]) as Hb.
  { unfold is_ascii. apply (bool_decide_unpack _). vm_compute. exact I. }
  assert (concat chunks = utf8_encode (concat (map framed [b1; b2]))) as Hc
    by (vm_compute; reflexivity).
  split; [exact Hb|]. split; [vm_compute; reflexivity|].
  split; [vm_compute; reflexivity|].
  exact (feed_all_roundtrip [b1; b2] chunks Hb Hc).
Defined.

(** ** The pump of the client on a stream *)

Lemma set_messageBuffer_same s : set_messageBuffer (messageBuffer s) s = s.
Proof. by destruct s. Qed.

Lemma set_messageBuffer_twice b1 b2 s :
  set_messageBuffer b1 (set_messageBuffer b2 s) = set_messageBuffer b1 s.
Proof. done. Qed.

(** [handleMessage] neither reads nor writes the buffer. *)
Lemma handleMessage_set_messageBuffer msg b s :
  handleMessage msg (set_messageBuffer b s)
  = set_messageBuffer b (handleMessage msg s).
Proof.
  unfold handleMessage. destruct (get (js "id") msg) as [id|].
  - assert (pending_get id (set_messageBuffer b s) = pending_get id s) as ->
      by by destruct id.
    destruct (pending_get id s) as [[n e]|]; [|done].
    destruct (truthy _); [destruct (remote_error _)|]; unfold settle; fields;
      try done; by destruct (promises s !! promise e).
  - destruct (get (js "method") msg); [|done]. by destruct (truthy _).
Qed.

Section PumpStream.
Variable JSON_parse : jsstring -> option json.

Lemma dispatch_set_messageBuffer body b s :
dispatch JSON_parse body (set_messageBuffer b s)
= set_messageBuffer b (dispatch JSON_parse body s).
Proof.
unfold dispatch. destruct (JSON_parse body); [|done].
apply handleMessage_set_messageBuffer.
Qed.

Lemma dispatch_all_set_messageBuffer bodies b s :
fold_left (fun s body => dispatch JSON_parse body s) bodies
(set_messageBuffer b s)
= set_messageBuffer b
(fold_left (fun s body => dispatch JSON_parse body s) bodies s).
Proof.
revert s. induction bodies as [|body bodies IH]; intros s; [done|].
cbn [fold_left]. by rewrite dispatch_set_messageBuffer, IH.
Qed.

Lemma handleData_all_stream chunks bodies s :
Forall is_ascii bodies ->
messageBuffer s = []
\/ (exists b rs, bodies = b :: rs
       /\ proper_prefix (messageBuffer s) (framed b)) ->
messageBuffer s ++ concat chunks = concat (map framed bodies) ->
handleData_all JSON_parse chunks s
= set_messageBuffer []
(fold_left (fun s body => dispatch JSON_parse body s) bodies s).
Proof.
unfold handleData_all. revert bodies s.
induction chunks as [|chunk chunks IH]; intros bodies s Hb Hp Heq.
- cbn in Heq. rewrite app_nil_r in Heq. cbn [fold_left].
destruct Hp as [Hnil|(b & rs & -> & missing & Hne & Hm)].
+ rewrite Hnil in Heq. destruct bodies as [|b bs].
* cbn. rewrite <- Hnil. by rewrite set_messageBuffer_same.
* cbn in Heq. symmetry in Heq.
apply app_eq_nil in Heq as [Heq _]. by apply framed_nonempty in Heq.
+ cbn in Heq. rewrite Hm in Heq. apply (f_equal length) in Heq.
rewrite !length_app in Heq. destruct missing; [done|]. cbn in Heq. lia.
- cbn [concat] in Heq. rewrite app_assoc in Heq.
assert (is_ascii chunk) as Hchunk.
{ pose proof (stream_ascii bodies Hb) as Ha. rewrite <- Heq in Ha.
apply Forall_app in Ha as [Ha _]. by apply Forall_app in Ha as [_ ?]. }
destruct (stream_cut bodies _ _ Heq)
as (done & remaining & partial' & -> & Hx & Hy & Hp').
apply Forall_app in Hb as [Hdone Hrem].
assert (exists next, is_ascii next
  /\ (partial' = [] \/ proper_prefix partial' (framed next)))
as (next & Hnext & Hpn).
{ destruct Hp' as [->|(b & rs & -> & ?)].
- exists []. split; [constructor|by left].
- exists b. apply Forall_cons in Hrem as [? _]. split; [done|by right]. }
cbn [fold_left].
assert (handleData JSON_parse chunk s
= set_messageBuffer partial'
    (fold_left (fun s body => dispatch JSON_parse body s) done s))
as ->.
{ unfold handleData, handleData_buffer.
rewrite (utf8_decode_ascii chunk Hchunk), Hx.
rewrite (handleData_loop_frames _ done partial' next _ s Hdone Hnext Hpn)
by lia.
done. }
rewrite (IH remaining _ Hrem); [| |done].
+ rewrite dispatch_all_set_messageBuffer, set_messageBuffer_twice.
by rewrite fold_left_app.
+ done.
Qed.

(** X2: the client's pump on ASCII messages.  When framed messages
arrive cut into chunks at arbitrary places, [handleData] called on
the chunks in order parses and dispatches each message once, in
order, as if each had arrived on its own, and leaves an empty
buffer. *)
Theorem handleData_all_dispatches_each_message
(bodies : list jsstring) (chunks : list (list Z)) (s : LSPClient) :
messageBuffer s = [] ->
Forall is_ascii bodies ->
concat chunks = utf8_encode (concat (map framed bodies)) ->
handleData_all JSON_parse chunks s
= set_messageBuffer []
(fold_left (fun s body => dispatch JSON_parse body s) bodies s).
Proof.
intros Hnil Hb Heq.
rewrite (utf8_encode_ascii _ (stream_ascii bodies Hb)) in Heq.
apply handleData_all_stream; [done|by left|by rewrite Hnil].
Qed.

(** X3: a response that arrives in pieces.  If request [id] is pending
and the bytes of its framed response (an ASCII text that
[JSON.parse] reads back) arrive in any number of chunks, the caller's
promise ends up fulfilled with the result of the response. *)
Theorem chunked_response_resolves_request
(s : LSPClient) (id : Z) (e : PendingRequest) (result : json)
(chunks : list (list Z)) :
client_inv s ->
messageBuffer s = [] ->
pendingRequests s !! id = Some e ->
is_ascii (JSON_stringify (response id result)) ->
JSON_parse (JSON_stringify (response id result)) = Some (response id result) ->
concat chunks = utf8_encode (framed (JSON_stringify (response id result))) ->
let s' := handleData_all JSON_parse chunks s in
promises s' !! promise e = Some (Resolved (Some result))
/\ pendingRequests s' !! id = None
/\ timers s' !! timeout e = None
/\ messageBuffer s' = [].
Proof.
intros Hinv Hnil He Hascii Hparse Heq s'. subst s'.
assert (is_ascii (concat (map framed [JSON_stringify (response id result)])))
as Hstream by (apply stream_ascii; by constructor).
rewrite (handleData_all_stream chunks [JSON_stringify (response id result)] s).
- cbn [fold_left]. unfold dispatch. rewrite Hparse.
rewrite (handleMessage_pending _ s id e (get_id_response _ _) He).
rewrite completion_response. cbn [settle_with].
destruct (complete_effect id e (Resolved (Some result)) s Hinv He)
as (Hp & Ht & Hpr & _).
set (s1 := settle _ _ _) in *. fields. rewrite Hp, Ht, Hpr.
by rewrite lookup_insert_eq, !lookup_delete_eq.
- by constructor.
- by left.
- rewrite Hnil, Heq. cbn [app]. rewrite <- (utf8_encode_ascii _ Hstream).
cbn [map concat]. by rewrite app_nil_r.
Qed.
End PumpStream.

(** The two responses of [feed_all_roundtrip_witness], cut at the same
    places, for a client with two requests in flight. *)
Lemma handleData_all_dispatches_each_message_witness :
  let m1 := response 1 (JStr (js "one")) in
  let m2 := response 2 (JArr []) in
  let b1 := JSON_stringify m1 in
  let b2 := JSON_stringify m2 in
  let stream := utf8_encode (framed b1 ++ framed b2) in
  let chunks := [take 7 stream; take 30 (drop 7 stream);
                 take 40 (drop 37 stream); drop 77 stream] in
  let s := run started_client
             [CallSendRequest (js "textDocument/hover") JNull 3000;
              CallSendRequest (js "textDocument/references") JNull 5000] in
  messageBuffer s = []
  /\ Forall is_ascii [b1; b2]
  /\ handleData_all (sample_parse [m1; m2]) chunks s
     = set_messageBuffer [] (handleMessage m2 (handleMessage m1 s)).
Proof.
  intros m1 m2 b1 b2 stream chunks s.
  assert (Forall is_ascii [b1; b2]) as Hb.
  { unfold is_ascii. apply (bool_decide_unpack _). vm_compute. exact I. }
  assert (concat chunks = utf8_encode (concat (map framed [b1; b2]))) as Hc
    by (vm_compute; reflexivity).
  split; [reflexivity|]. split; [exact Hb|].
  rewrite (handleData_all_dispatches_each_message (sample_parse [m1; m2])
             [b1; b2] chunks s eq_refl Hb Hc).
  vm_compute. reflexivity.
Defined.

(** The response to the only pending request, in three chunks. *)
Lemma chunked_response_resolves_request_witness :
  let m := response 1 (JStr (js "one")) in
  let stream := utf8_encode (framed (JSON_stringify m)) in
  let chunks := [take 20 stream; take 20 (drop 20 stream); drop 40 stream] in
  let s := snd (sendRequest (js "textDocument/hover") JNull 3000 started_client) in
  client_inv s
  /\ pendingRequests s !! 1 = Some {| promise := 0; timeout := 0 |}
  /\ promises (handleData_all (sample_parse [m]) chunks s) !! 0%nat
     = Some (Resolved (Some (JStr (js "one")))).
Proof.
  intros m stream chunks s.
  assert (client_inv s) as Hinv.
  { apply sendRequest_inv, set_process_inv, new_LSPClient_inv. }
  assert (pendingRequests s !! 1 = Some {| promise := 0; timeout := 0 |}) as He
    by (vm_compute; reflexivity).
  split; [exact Hinv|]. split; [exact He|].
  assert (is_ascii (JSON_stringify m)) as Ha.
  { unfold is_ascii. apply (bool_decide_unpack _). vm_compute. exact I. }
  assert (sample_parse [m] (JSON_stringify m) = Some m) as Hparse
    by (vm_compute; reflexivity).
  assert (concat chunks = utf8_encode (framed (JSON_stringify m))) as Hc
    by (vm_compute; reflexivity).
  destruct (chunked_response_resolves_request (sample_parse [m]) s 1 _
              (JStr (js "one")) chunks Hinv eq_refl He Ha Hparse Hc) as [H _].
  exact H.
Defined.

(** ** Histories *)

Section Histories.
Variable JSON_parse : jsstring -> option json.

Lemma react_inv s ev : client_inv s -> client_inv (react JSON_parse s ev).
Proof.
intros H. destruct ev; cbn [react]; [by apply step_inv|by apply handleData_inv].
Qed.

Lemma history_inv events s :
client_inv s -> client_inv (history JSON_parse s events).
Proof.
unfold history. revert s.
induction events as [|ev events IH]; intros s H; [done|].
cbn [fold_left]. by apply IH, react_inv.
Qed.

Lemma handleData_keeps_outcome data s p o :
promises s !! p = Some o ->
promises (handleData JSON_parse data s) !! p = Some o.
Proof.
intros H. unfold handleData, handleData_buffer.
assert (forall fuel buf s,
promises s !! p = Some o ->
promises (snd (handleData_loop (dispatch JSON_parse) fuel buf s)) !! p
= Some o) as Hloop.
{ induction fuel as [|fuel IH]; intros buf s0 Hs0; [done|].
cbn [handleData_loop]. destruct (indexOf _ _); [|done].
destruct (contentLengthMatch _); [|done].
destruct (_ <? _)%nat; [done|]. apply IH. unfold dispatch.
destruct (JSON_parse _) as [msg|]; [|done].
by apply (step_keeps_outcome s0 (OnMessage msg)). }
specialize (Hloop (S (length (messageBuffer s ++ utf8_decode data)))
        (messageBuffer s ++ utf8_decode data) s H).
by destruct (handleData_loop _ _ _ _).
Qed.

(** X4: the invariant of the client.  [start] spawns the child and sends
the [initialize] request.  Whatever calls, messages, bytes, timer
firings and exits the started client goes through after that, every
pending request keeps its own armed timer (whose closure holds the
request's id and promise) and its own unsettled promise, every armed
timer belongs to a pending request, and two pending requests never
share a promise. *)
Theorem client_invariant_holds (pid : Z) (rootUri : jsstring)
(initializationOptions : json) (events : list Event) :
let s := history JSON_parse
     (snd (start pid rootUri initializationOptions new_LSPClient))
     events in
(forall id e, pendingRequests s !! id = Some e ->
 id < nextRequestId s
 /\ promises s !! promise e = None
 /\ exists c, timers s !! timeout e = Some c
      /\ timer_id c = id /\ timer_reject c = promise e)
/\ (forall t c, timers s !! t = Some c ->
pendingRequests s !! timer_id c
= Some {| promise := timer_reject c; timeout := t |})
/\ (forall id1 id2 e1 e2,
pendingRequests s !! id1 = Some e1 ->
pendingRequests s !! id2 = Some e2 ->
promise e1 = promise e2 -> id1 = id2).
Proof.
intros s.
assert (client_inv (snd (start pid rootUri initializationOptions new_LSPClient)))
as Hinv by apply sendRequest_inv, set_process_inv, new_LSPClient_inv.
pose proof (history_inv events _ Hinv) as [H1 H2 H3 H4].
fold s in H1, H2, H3, H4. split_and!.
- intros id e He. destruct (H1 id e He) as (? & ? & ? & ?). by split_and!.
- intros t c Hc. by destruct (H2 t c Hc).
- exact H4.
Qed.

(** X5: a settled promise stays as it is.  Once the promise of a request
is fulfilled or rejected, no later call, message, chunk, timer or
exit changes its outcome; in particular a response that arrives
after the time-out does not turn the time-out into a result. *)
Theorem outcome_is_final (s : LSPClient) (events : list Event)
(p : nat) (o : Outcome) :
promises s !! p = Some o ->
promises (history JSON_parse s events) !! p = Some o.
Proof.
unfold history. revert s.
induction events as [|ev events IH]; intros s H; [done|].
cbn [fold_left]. apply IH. destruct ev; cbn [react].
- by apply step_keeps_outcome.
- by apply handleData_keeps_outcome.
Qed.
End Histories.

(** The client is started and asked for a hover and for references; the
    answer to [initialize] arrives in a chunk of bytes and the timer of
    the hover request fires.  The reference request, with id 3, is still
    pending, with its timer armed and its promise unsettled. *)
Lemma client_invariant_holds_witness :
  let m := response 1 (JObj []) in
  let events :=
    [Act (CallSendRequest (js "textDocument/hover") JNull 3000);
     Act (CallSendRequest (js "textDocument/references") JNull 5000);
     Data (utf8_encode (framed (JSON_stringify m)));
     Act (OnTimer 1)] in
  let s := history (sample_parse [m])
             (snd (start 42 (js "file:///project") (JObj []) new_LSPClient))
             events in
  process s = true
  /\ pendingRequests s !! 3 = Some {| promise := 2; timeout := 2 |}
  /\ promises s !! 0%nat = Some (Resolved (Some (JObj [])))
  /\ promises s !! 2%nat = None
  /\ exists c, timers s !! 2%nat = Some c
               /\ timer_id c = 3 /\ timer_reject c = 2%nat.
Proof.
  intros m events s.
  assert (pendingRequests s !! 3 = Some {| promise := 2; timeout := 2 |}) as He
    by (vm_compute; reflexivity).
  destruct (client_invariant_holds (sample_parse [m]) 42 (js "file:///project")
              (JObj []) events) as [H1 _].
  destruct (H1 3 _ He) as (_ & Hp & Hc).
  split; [vm_compute; reflexivity|]. split; [exact He|].
  split; [vm_compute; reflexivity|]. split; [exact Hp|exact Hc].
Defined.

(** A request that timed out, then its late response in a chunk of
    bytes. *)
Lemma outcome_is_final_witness :
  let m := response 1 (JStr (js "late")) in
  let s := timer_fires 0
             (snd (sendRequest (js "textDocument/hover") JNull 3000
                     started_client)) in
  let late := [Data (utf8_encode (framed (JSON_stringify m)));
               Act (OnMessage m); Act (OnTimer 0)] in
  promises s !! 0%nat
  = Some (Rejected (timed_out (js "textDocument/hover")))
  /\ promises (history (sample_parse [m]) s late) !! 0%nat
     = Some (Rejected (timed_out (js "textDocument/hover"))).
Proof.
  intros m s late.
  assert (promises s !! 0%nat
          = Some (Rejected (timed_out (js "textDocument/hover")))) as H
    by (vm_compute; reflexivity).
  split; [exact H|].
  exact (outcome_is_final (sample_parse [m]) s late 0%nat _ H).
Defined.

(** ** Edge cases of the request primitives *)

(** X6: a handled response disarms the timer.  After a message carrying
    the id of a pending request has been handled, the firing of that
    request's timer changes nothing at all. *)
Theorem response_disarms_timer (s : LSPClient) (id : Z) (e : PendingRequest)
    (msg : json) :
  client_inv s ->
  pendingRequests s !! id = Some e ->
  get (js "id") msg = Some (JNum id) ->
  timers (handleMessage msg s) !! timeout e = None
  /\ timer_fires (timeout e) (handleMessage msg s) = handleMessage msg s.
Proof.
  intros Hinv He Hid.
  rewrite (handleMessage_pending msg s id e Hid He).
  assert (timers (settle_with (promise e) (completion msg)
                    (set_pendingRequests (delete id (pendingRequests s))
                       (clearTimeout (timeout e) s))) !! timeout e = None)
    as Hnone.
  { destruct (completion msg) as [o|]; cbn [settle_with].
    - destruct (complete_effect id e o s Hinv He) as (_ & -> & _).
      apply lookup_delete_eq.
    - fields. apply lookup_delete_eq. }
  split; [done|]. unfold timer_fires. by rewrite Hnone.
Qed.

Lemma response_disarms_timer_witness :
  let s := snd (sendRequest (js "textDocument/hover") JNull 3000 started_client) in
  let msg := response 1 JNull in
  client_inv s
  /\ pendingRequests s !! 1 = Some {| promise := 0; timeout := 0 |}
  /\ timer_fires 0 (handleMessage msg s) = handleMessage msg s.
Proof.
  intros s msg.
  assert (client_inv s) as Hinv.
  { apply sendRequest_inv, set_process_inv, new_LSPClient_inv. }
  assert (pendingRequests s !! 1 = Some {| promise := 0; timeout := 0 |}) as He
    by (vm_compute; reflexivity).
  split; [exact Hinv|]. split; [exact He|].
  destruct (response_disarms_timer s 1 _ msg Hinv He eq_refl) as [_ H].
  exact H.
Defined.

(** X7: a client whose server is not running.  [sendRequest] returns a
    promise that is already rejected with "Language server not started";
    it writes nothing, allocates no id, arms no timer and registers no
    pending request.  [sendNotification] throws the same error and writes
    nothing.  Through the wrappers the caller of [findReferences] gets
    the empty list and the caller of [hover] gets [null]. *)
Theorem requests_without_server (s : LSPClient) (method : jsstring)
    (params : json) (timeoutMs : Z) (uri : jsstring) (position : Position)
    (includeDeclaration : bool) :
  client_inv s ->
  process s = false ->
  (let '(p, s') := sendRequest method params timeoutMs s in
   promises s' !! p = Some (Rejected (Error (js "Language server not started")))
   /\ stdin s' = stdin s
   /\ nextRequestId s' = nextRequestId s
   /\ pendingRequests s' = pendingRequests s
   /\ timers s' = timers s)
  /\ sendNotification method params s
     = inl (Error (js "Language server not started"))
  /\ (let '(p, s') := findReferences uri position includeDeclaration s in
      awaited findReferences_returns p s' = Some (Resolved (Some (JArr []))))
  /\ (let '(p, s') := hover uri position s in
      awaited hover_returns p s' = Some (Resolved (Some JNull))).
Proof.
  intros Hinv Hrun.
  assert (promises s !! nextPromise s = None) as Hfresh.
  { destruct (promises s !! nextPromise s) eqn:E; [|done].
    apply (inv_promises _ Hinv) in E. lia. }
  assert (forall m q t,
            let '(p, s') := sendRequest m q t s in
            promises s' !! p
            = Some (Rejected (Error (js "Language server not started")))
            /\ stdin s' = stdin s
            /\ nextRequestId s' = nextRequestId s
            /\ pendingRequests s' = pendingRequests s
            /\ timers s' = timers s) as Hsend.
  { intros m q t. unfold sendRequest. fields. rewrite Hrun. fields.
    unfold settle. fields. rewrite Hfresh. fields.
    by rewrite lookup_insert_eq. }
  split_and!.
  - apply Hsend.
  - unfold sendNotification. by rewrite Hrun.
  - unfold findReferences. specialize (Hsend (js "textDocument/references")).
    match goal with |- context [sendRequest ?m ?q ?t s] =>
      specialize (Hsend q t); destruct (sendRequest m q t s) as [p s'] end.
    destruct Hsend as [Hp _]. unfold awaited. by rewrite Hp.
  - unfold hover. specialize (Hsend (js "textDocument/hover")).
    match goal with |- context [sendRequest ?m ?q ?t s] =>
      specialize (Hsend q t); destruct (sendRequest m q t s) as [p s'] end.
    destruct Hsend as [Hp _]. unfold awaited. by rewrite Hp.
Qed.

Lemma requests_without_server_witness :
  client_inv new_LSPClient
  /\ process new_LSPClient = false
  /\ (let '(p, s') := findReferences (js "file:///project/a.ts")
                        {| line := 0; character := 0 |} false new_LSPClient in
      awaited findReferences_returns p s' = Some (Resolved (Some (JArr [])))
      /\ stdin s' = [])
  /\ sendNotification (js "exit") (JObj []) new_LSPClient
     = inl (Error (js "Language server not started")).
Proof.
  split; [exact new_LSPClient_inv|]. split; [reflexivity|].
  destruct (requests_without_server new_LSPClient (js "exit") (JObj []) 0
              (js "file:///project/a.ts") {| line := 0; character := 0 |} false
              new_LSPClient_inv eq_refl) as (_ & H2 & H3 & _).
  split; [|exact H2].
  destruct (findReferences _ _ _ _) as [p s'] eqn:E. split; [exact H3|].
  apply (f_equal snd) in E. cbn [snd] in E. rewrite <- E.
  vm_compute. reflexivity.
Defined.

(** X8: an error response.  A response that carries the id of a pending
    request and an error object rejects the caller's promise with an
    error whose message is the message supplied by the server; the code
    of the error object is dropped. *)
Theorem error_response_rejects_with_server_message
    (s : LSPClient) (id : Z) (e : PendingRequest) (code : Z) (msg : jsstring) :
  client_inv s ->
  pendingRequests s !! id = Some e ->
  let s' := handleMessage (error_response id code msg) s in
  promises s' !! promise e = Some (Rejected (Error msg))
  /\ pendingRequests s' !! id = None
  /\ emitted s' = emitted s.
Proof.
  intros Hinv He s'. subst s'.
  assert (get (js "id") (error_response id code msg) = Some (JNum id)) as Hid
    by reflexivity.
  rewrite (handleMessage_pending _ s id e Hid He).
  assert (completion (error_response id code msg)
          = Some (Rejected (Error msg))) as -> by reflexivity.
  cbn [settle_with].
  destruct (complete_effect id e (Rejected (Error msg)) s Hinv He)
    as (Hp & _ & Hpr & _ & _ & _ & _ & Hem).
  set (s' := settle _ _ _) in *. rewrite Hp, Hpr, Hem.
  by rewrite lookup_insert_eq, lookup_delete_eq.
Qed.

Lemma error_response_rejects_with_server_message_witness :
  let s := snd (sendRequest (js "textDocument/rename") JNull 3000 started_client) in
  client_inv s
  /\ pendingRequests s !! 1 = Some {| promise := 0; timeout := 0 |}
  /\ promises (handleMessage (error_response 1 (-32601) (js "Unhandled method")) s)
       !! 0%nat
     = Some (Rejected (Error (js "Unhandled method"))).
Proof.
  intros s.
  assert (client_inv s) as Hinv.
  { apply sendRequest_inv, set_process_inv, new_LSPClient_inv. }
  assert (pendingRequests s !! 1 = Some {| promise := 0; timeout := 0 |}) as He
    by (vm_compute; reflexivity).
  split; [exact Hinv|]. split; [exact He|].
  destruct (error_response_rejects_with_server_message s 1 _ (-32601)
              (js "Unhandled method") Hinv He) as [H _].
  exact H.
Defined.

(** ** Notifications *)

(** X9: a message with an id is never a notification.  Whatever else it
    carries (also a method, as a request from the server does), a message
    with an [id] field emits nothing; if the id is not that of a pending
    request the message is dropped without any effect, and if it is, the
    request is completed with the message's [result] field, which is
    [undefined] when the message has none. *)
Theorem message_with_id_is_never_notified (s : LSPClient) (msg id : json) :
  get (js "id") msg = Some id ->
  emitted (handleMessage msg s) = emitted s
  /\ (pending_get id s = None -> handleMessage msg s = s)
  /\ (forall n e,
        client_inv s ->
        id = JNum n ->
        pendingRequests s !! n = Some e ->
        truthy (get (js "error") msg) = false ->
        promises (handleMessage msg s) !! promise e
        = Some (Resolved (get (js "result") msg))).
Proof.
  intros Hid. split_and!.
  - unfold handleMessage. rewrite Hid.
    destruct (pending_get id s) as [[n e]|]; [|done].
    destruct (truthy _); [destruct (remote_error _); [|done]|];
      by rewrite (proj1 (proj2 (proj2 (proj2 (proj2 (proj2
                   (proj2 (settle_other_fields _ _ _)))))))).
  - intros Hnone. by apply (handleMessage_unknown msg s id).
  - intros n e Hinv -> He Herr.
    rewrite (handleMessage_pending msg s n e Hid He).
    unfold completion. rewrite Herr. cbn [settle_with].
    destruct (complete_effect n e (Resolved (get (js "result") msg)) s Hinv He)
      as (_ & _ & -> & _).
    apply lookup_insert_eq.
Qed.

(** A request from the server, [workspace/configuration] with id 1,
    while the client's own request 1 is pending. *)
Lemma message_with_id_is_never_notified_witness :
  let s := snd (sendRequest (js "textDocument/hover") JNull 3000 started_client) in
  let msg := JObj [(js "jsonrpc", JStr (js "2.0")); (js "id", JNum 1);
                   (js "method", JStr (js "workspace/configuration"));
                   (js "params", JObj [])] in
  get (js "id") msg = Some (JNum 1)
  /\ emitted (handleMessage msg s) = emitted s
  /\ promises (handleMessage msg s) !! 0%nat = Some (Resolved None).
Proof.
  intros s msg.
  assert (get (js "id") msg = Some (JNum 1)) as Hid by (vm_compute; reflexivity).
  destruct (message_with_id_is_never_notified s msg (JNum 1) Hid) as (H1 & _ & H3).
  split; [exact Hid|]. split; [exact H1|].
  apply (H3 1 {| promise := 0; timeout := 0 |}).
  - apply sendRequest_inv, set_process_inv, new_LSPClient_inv.
  - reflexivity.
  - vm_compute. reflexivity.
  - vm_compute. reflexivity.
Defined.

Lemma handleMessage_notification method params s :
  method <> [] ->
  handleMessage (notification method params) s
  = emit (EmitNotification (JStr method) (Some params)) s.
Proof.
  intros Hne. unfold handleMessage.
  assert (get (js "id") (notification method params) = None) as -> by reflexivity.
  assert (get (js "method") (notification method params) = Some (JStr method))
    as -> by reflexivity.
  assert (get (js "params") (notification method params) = Some params)
    as -> by reflexivity.
  by destruct method.
Qed.

(** X10: notifications are emitted in arrival order.  A sequence of
    notification messages (no id, a non-empty method) is handed to the
    listeners one by one in the order of arrival, and touches neither the
    pending requests nor the timers nor the promises; a message with
    neither an id nor a method is ignored. *)
Theorem notifications_are_emitted_in_order
    (s : LSPClient) (notes : list (jsstring * json)) (other : json) :
  Forall (fun note => fst note <> []) notes ->
  get (js "id") other = None ->
  get (js "method") other = None ->
  let s' := fold_left (fun s note => handleMessage (notification (fst note) (snd note)) s)
                      notes s in
  emitted s' = emitted s ++ map notified notes
  /\ pendingRequests s' = pendingRequests s
  /\ timers s' = timers s
  /\ promises s' = promises s
  /\ handleMessage other s = s.
Proof.
  intros Hnotes Hid Hm. cbv zeta. split_and!.
  1-4: revert s; induction Hnotes as [|note notes Hne _ IH]; intros s;
    cbn [fold_left map]; [by rewrite ?app_nil_r|];
    rewrite IH, (handleMessage_notification _ _ _ Hne); fields; try done;
    by rewrite <- app_assoc.
  unfold handleMessage. by rewrite Hid, Hm.
Qed.

Lemma notifications_are_emitted_in_order_witness :
  let notes := [(js "textDocument/publishDiagnostics", JObj []);
                (js "window/logMessage", JStr (js "ready"))] in
  Forall (fun note => fst note <> []) notes
  /\ emitted (fold_left (fun s note => handleMessage
                                         (notification (fst note) (snd note)) s)
                        notes started_client)
     = map notified notes
  /\ handleMessage (JObj [(js "jsonrpc", JStr (js "2.0"))]) started_client
     = started_client.
Proof.
  intros notes.
  assert (Forall (fun note => fst note <> []) notes) as Hn
    by (repeat constructor; discriminate).
  split; [exact Hn|].
  destruct (notifications_are_emitted_in_order started_client notes
              (JObj [(js "jsonrpc", JStr (js "2.0"))]) Hn eq_refl eq_refl)
    as (H1 & _ & _ & _ & H5).
  split; [exact H1|exact H5].
Defined.

(** ** Ranking of the similar-types findings *)

Lemma insert_by_similarity_sorted g sorted :
  StronglySorted (fun a b => similarity b <= similarity a) sorted ->
  StronglySorted (fun a b => similarity b <= similarity a)
                 (insert_by_similarity g sorted).
Proof.
  induction 1 as [|h rest Hs IH Hall]; cbn [insert_by_similarity].
  { repeat constructor. }
  destruct (similarity h <? similarity g) eqn:E; zbool.
  - constructor; [by constructor|]. constructor; [lia|].
    eapply Forall_impl; [exact Hall|]. cbn. intros; lia.
  - constructor; [done|].
    rewrite (insert_by_similarity_perm g rest). constructor; [lia|done].
Qed.

Lemma filter_none {A} (P : A -> Prop) `{forall x, Decision (P x)} (l : list A) :
  Forall (fun x => ~ P x) l -> filter P l = [].
Proof.
  induction 1 as [|x l Hx _ IH]; [done|]. by rewrite filter_cons_False.
Qed.

Lemma insert_by_similarity_filter k g sorted :
  StronglySorted (fun a b => similarity b <= similarity a) sorted ->
  filter (fun x => similarity x = k) (insert_by_similarity g sorted)
  = filter (fun x => similarity x = k) sorted
    ++ (if decide (similarity g = k) then [g] else []).
Proof.
  induction 1 as [|h rest Hs IH Hall]; cbn [insert_by_similarity].
  { rewrite filter_cons, filter_nil. by destruct (decide _). }
  destruct (similarity h <? similarity g) eqn:E; zbool.
  - rewrite (filter_cons _ g). destruct (decide (similarity g = k)) as [Hg|Hg].
    + assert (filter (fun x => similarity x = k) (h :: rest) = []) as ->; [|done].
      apply filter_none. apply Forall_cons. split; [lia|].
      eapply Forall_impl; [exact Hall|]. cbn. intros; lia.
    + by rewrite app_nil_r.
  - rewrite !(filter_cons _ h), IH. by destruct (decide (similarity h = k)).
Qed.

(** X11: the ranking of similar types.  The list returned by the
    detector holds exactly the findings pushed by the pair loop, ordered
    by decreasing similarity, and findings of equal similarity keep the
    order in which the loop pushed them. *)
Theorem similar_types_are_ranked
    (path_join : jsstring -> jsstring -> jsstring) (projectPath : jsstring)
    (fileContents : gmap jsstring jsstring) (allSymbols : list SymbolInfo) :
  let pushed :=
    snd (compare_all (collect_types path_join projectPath fileContents allSymbols)
                     (∅, [])) in
  let result := analyze_similar_types path_join projectPath fileContents allSymbols in
  result ≡ₚ pushed
  /\ StronglySorted (fun a b => similarity b <= similarity a) result
  /\ forall k, filter (fun g => similarity g = k) result
               = filter (fun g => similarity g = k) pushed.
Proof.
  intros pushed result. unfold result, analyze_similar_types. fold pushed.
  split; [apply sort_by_similarity_perm|].
  unfold sort_by_similarity.
  assert (forall acc,
            StronglySorted (fun a b => similarity b <= similarity a) acc ->
            StronglySorted (fun a b => similarity b <= similarity a)
              (fold_left (fun sorted g => insert_by_similarity g sorted) pushed acc)
            /\ forall k,
                 filter (fun g => similarity g = k)
                   (fold_left (fun sorted g => insert_by_similarity g sorted)
                              pushed acc)
                 = filter (fun g => similarity g = k) acc
                   ++ filter (fun g => similarity g = k) pushed) as H.
  { generalize pushed. clear. intros pushed.
    induction pushed as [|g pushed IH]; intros acc Hacc; cbn [fold_left].
    - split; [done|]. intros k. by rewrite filter_nil, app_nil_r.
    - destruct (IH _ (insert_by_similarity_sorted g acc Hacc)) as [H1 H2].
      split; [done|]. intros k.
      rewrite H2, (insert_by_similarity_filter k g acc Hacc), filter_cons.
      rewrite <- app_assoc. by destruct (decide _). }
  destruct (H [] (SSorted_nil _)) as [H1 H2]. split; [done|].
  intros k. by rewrite H2, filter_nil.
Qed.

(** ** [calculateSimilarity] and [pairKey] *)



Lemma js_lt_cases a b :
  (js_lt a b = true /\ js_lt b a = false)
  \/ (js_lt a b = false /\ js_lt b a = true)
  \/ a = b.
Proof.
  revert b. induction a as [|x a IH]; intros [|y b]; cbn [js_lt]; auto.
  destruct (IH b) as [[H1 H2]|[[H1 H2]| ->]]; rewrite ?H1, ?H2.
  - destruct (Z.compare_spec x y) as [->|H|H].
    + left. rewrite Z.ltb_irrefl, Z.eqb_refl. done.
    + left. rewrite (proj2 (Z.ltb_lt x y)), (proj2 (Z.ltb_ge y x)) by lia.
      rewrite (proj2 (Z.eqb_neq y x)) by lia. done.
    + right; left. rewrite (proj2 (Z.ltb_lt y x)), (proj2 (Z.ltb_ge x y)) by lia.
      rewrite (proj2 (Z.eqb_neq x y)) by lia. done.
  - destruct (Z.compare_spec x y) as [->|H|H].
    + right; left. rewrite Z.ltb_irrefl, Z.eqb_refl. done.
    + left. rewrite (proj2 (Z.ltb_lt x y)), (proj2 (Z.ltb_ge y x)) by lia.
      rewrite (proj2 (Z.eqb_neq y x)) by lia. done.
    + right; left. rewrite (proj2 (Z.ltb_lt y x)), (proj2 (Z.ltb_ge x y)) by lia.
      rewrite (proj2 (Z.eqb_neq x y)) by lia. done.
  - destruct (Z.compare_spec x y) as [->|H|H].
    + right; right. done.
    + left. rewrite (proj2 (Z.ltb_lt x y)), (proj2 (Z.ltb_ge y x)) by lia.
      rewrite (proj2 (Z.eqb_neq y x)) by lia. done.
    + right; left. rewrite (proj2 (Z.ltb_lt y x)), (proj2 (Z.ltb_ge x y)) by lia.
      rewrite (proj2 (Z.eqb_neq x y)) by lia. done.
Qed.

(** X13: the key of a pair of names.  The key does not depend on the
    order in which the two names are given; and for names that hold no
    ['|'] two pairs have the same key only if they are the same
    unordered pair. *)
Theorem pairKey_identifies_unordered_pair (a b c d : jsstring) :
  124 ∉ a -> 124 ∉ b -> 124 ∉ c -> 124 ∉ d ->
  pairKey a b = pairKey b a
  /\ (pairKey a b = pairKey c d <-> (a = c /\ b = d) \/ (a = d /\ b = c)).
Proof.
  intros Ha Hb Hc Hd.
  assert (forall x y, pairKey x y = pairKey y x) as Hsym.
  { intros x y. unfold pairKey.
    destruct (js_lt_cases x y) as [[-> ->]|[[-> ->]| ->]]; done. }
  split; [apply Hsym|]. split.
  - by apply pairKey_inj.
  - intros [[-> ->]|[-> ->]]; [done|apply Hsym].
Qed.

Lemma pairKey_identifies_unordered_pair_witness :
  pairKey (js "Widget") (js "Button") = js "Button|Widget"
  /\ pairKey (js "Button") (js "Widget") = js "Button|Widget".
Proof.
  assert (forall s : string, bool_decide (124 ∉ js s) = true -> 124 ∉ js s) as Hbar.
  { intros s. apply bool_decide_eq_true_1. }
  destruct (pairKey_identifies_unordered_pair (js "Widget") (js "Button")
              (js "Widget") (js "Button")) as [H _];
    try (apply Hbar; vm_compute; reflexivity).
  split; [vm_compute; reflexivity|]. rewrite <- H. vm_compute. reflexivity.
Defined.

(** ** Edge cases of the dead-parameter detector *)

Lemma analyze_dead_params_member path_join projectPath fileContents allSymbols d :
  d ∈ analyze_dead_params path_join projectPath fileContents allSymbols <->
  exists sym, sym ∈ allSymbols
              /\ d ∈ dead_step path_join projectPath fileContents [] sym.
Proof.
  unfold analyze_dead_params.
  assert (forall out,
            d ∈ fold_left (dead_step path_join projectPath fileContents)
                          allSymbols out <->
            d ∈ out
            \/ exists sym, sym ∈ allSymbols
                 /\ d ∈ dead_step path_join projectPath fileContents [] sym) as H.
  { induction allSymbols as [|sym syms IH]; intros out; cbn [fold_left].
    - split; [by left|]. intros [?|(s & Hs & _)]; [done|].
      by apply elem_of_nil in Hs.
    - rewrite IH, dead_step_spec. split.
      + intros [[?|Hd]|(s & ? & ?)].
        * by left.
        * right. exists sym. split; [left|]. apply dead_step_spec. by right.
        * right. exists s. split; [by right|done].
      + intros [?|(s & Hs & Hd)]; [by left; left|].
        apply elem_of_cons in Hs as [->|Hs].
        * left. apply dead_step_spec in Hd as [Hd|Hd]; [|by right].
          by apply elem_of_nil in Hd.
        * right. by exists s. }
  rewrite H. split; [|by right]. intros [Hd|?]; [|done].
  by apply elem_of_nil in Hd.
Qed.

Lemma paramRegex_test_empty param : param <> [] -> paramRegex_test param [] = false.
Proof. by destruct param. Qed.

(** X14: functions declared on one line.  When the range of a function
    or method ends on the line on which it starts, the body text that
    the detector searches is empty, so every parameter extracted from the
    declaration line other than [self], [this] and [cls] is reported as
    dead, whether or not the rest of that line uses it. *)
Theorem one_line_function_parameters_are_reported
    (path_join : jsstring -> jsstring -> jsstring) (projectPath : jsstring)
    (fileContents : gmap jsstring jsstring) (allSymbols : list SymbolInfo)
    (sym : SymbolInfo) (content inside param : jsstring) :
  sym ∈ allSymbols ->
  kindName sym = js "function" \/ kindName sym = js "method" ->
  fileContents !! path_join projectPath (file sym) = Some content ->
  content <> [] ->
  (line (range_end (range sym)) <= line (range_start (range sym)))%nat ->
  paramMatch (sigLine_of content sym) = Some inside ->
  param ∈ params_of inside ->
  is_receiver param = false ->
  bodyLines_of (split_on LF content) sym = []
  /\ dead_parameter sym param
     ∈ analyze_dead_params path_join projectPath fileContents allSymbols.
Proof.
  intros Hsym Hk Hc Hne Hline Hm Hp Hr.
  assert (bodyLines_of (split_on LF content) sym = []) as Hbody.
  { unfold bodyLines_of, slice.
    replace (_ - _)%nat with 0%nat by lia. done. }
  split; [done|].
  apply analyze_dead_params_member. exists sym. split; [done|].
  apply dead_step_spec. right. exists content, inside, param.
  split_and!; try done. rewrite Hbody.
  apply paramRegex_test_empty. by apply (params_of_word inside).
Qed.

Lemma one_line_function_parameters_are_reported_witness :
  let content := text_of ["const twice = (n) => n * 2;"] in
  let sym := sample_symbol "twice" 12 "math.ts" 0 0 in
  let files : gmap jsstring jsstring := {[ js "/project/math.ts" := content ]} in
  paramMatch (sigLine_of content sym) = Some (js "n")
  /\ dead_parameter sym (js "n")
     ∈ analyze_dead_params sample_join (js "/project") files [sym]
  /\ analyze_dead_params sample_join (js "/project") files [sym]
     = [dead_parameter sym (js "n")].
Proof.
  intros content sym files.
  assert (paramMatch (sigLine_of content sym) = Some (js "n")) as Hm
    by (vm_compute; reflexivity).
  split; [exact Hm|].
  assert (dead_parameter sym (js "n")
          ∈ analyze_dead_params sample_join (js "/project") files [sym]) as Hin.
  { apply (one_line_function_parameters_are_reported sample_join (js "/project")
             files [sym] sym content (js "n") (js "n")).
    - left.
    - left. vm_compute. reflexivity.
    - vm_compute. reflexivity.
    - vm_compute. discriminate.
    - vm_compute. lia.
    - exact Hm.
    - vm_compute. left.
    - vm_compute. reflexivity. }
  split; [exact Hin|]. vm_compute. reflexivity.
Defined.

(** ** Edge cases of the framer *)

(** X15: nothing is surfaced early.  While the buffer holds only the
    beginning of a framed ASCII message, with at least one unit missing,
    a chunk that brings nothing more surfaces no message and the buffer
    is kept as it is; the message comes out when the missing part
    arrives. *)
Theorem incomplete_message_is_kept (body partial missing : jsstring) :
  is_ascii body ->
  missing <> [] ->
  framed body = partial ++ missing ->
  feed partial [] = (partial, [])
  /\ feed [] partial = (partial, [])
  /\ feed partial missing = ([], [body]).
Proof.
  intros Hb Hne Heq.
  assert (proper_prefix partial (framed body)) as Hp by by exists missing.
  assert (is_ascii partial /\ is_ascii missing) as [Hpa Hma].
  { pose proof (framed_ascii body Hb) as Ha. rewrite Heq in Ha.
    by apply Forall_app in Ha. }
  unfold feed, handleData_buffer. split_and!.
  - cbn [utf8_decode]. rewrite app_nil_r.
    by apply (handleData_loop_partial _ _ partial body).
  - rewrite (utf8_decode_ascii partial Hpa). cbn [app].
    by apply (handleData_loop_partial _ _ partial body).
  - rewrite (utf8_decode_ascii missing Hma), <- Heq.
    pose proof (handleData_loop_frames (fun body out => out ++ [body])
                  [body] [] [] (S (length (framed body))) []) as H.
    cbn [map concat fold_left app] in H. rewrite !app_nil_r in H.
    apply H; [by constructor|constructor|by left|lia].
Qed.

Lemma incomplete_message_is_kept_witness :
  let body := JSON_stringify (response 7 (JArr [])) in
  let partial := take 30 (framed body) in
  let missing := drop 30 (framed body) in
  is_ascii body
  /\ feed [] partial = (partial, [])
  /\ feed partial missing = ([], [body]).
Proof.
  intros body partial missing.
  assert (is_ascii body) as Hb.
  { unfold is_ascii. apply (bool_decide_unpack _). vm_compute. exact I. }
  assert (missing <> []) as Hne by (vm_compute; discriminate).
  assert (framed body = partial ++ missing) as Heq by (vm_compute; reflexivity).
  destruct (incomplete_message_is_kept body partial missing Hb Hne Heq)
    as (_ & H2 & H3).
  split; [exact Hb|]. split; [exact H2|exact H3].
Defined.

(** X16: a header block without a length.  When the text before the
    first blank line of the buffer holds no [Content-Length] field, the
    whole buffer is thrown away and nothing is surfaced, also the
    complete framed messages that follow the blank line in the same
    buffer. *)
Theorem header_without_length_discards_buffer
    (buf : jsstring) (data : list Z) (noise rest : jsstring) :
  buf ++ utf8_decode data = noise ++ CRLFCRLF ++ rest ->
  CR ∉ noise ->
  contentLengthMatch noise = None ->
  feed buf data = ([], []).
Proof.
  intros Heq Hcr Hm. unfold feed, handleData_buffer. rewrite Heq.
  cbn [handleData_loop]. rewrite (indexOf_separator noise rest Hcr).
  unfold substring. by rewrite Nat.sub_0_r, drop_0, take_app_length, Hm.
Qed.

(** A line of log output and a blank line, then a complete message, in
    one chunk. *)
Lemma header_without_length_discards_buffer_witness :
  let body := JSON_stringify (response 1 JNull) in
  let noise := js "Server listening on stdio" in
  let data := utf8_encode (noise ++ CRLFCRLF ++ framed body) in
  feed [] (utf8_encode (framed body)) = ([], [body])
  /\ feed [] data = ([], []).
Proof.
  intros body noise data. split; [vm_compute; reflexivity|].
  apply (header_without_length_discards_buffer [] data noise (framed body)).
  - vm_compute. reflexivity.
  - apply (bool_decide_unpack _). vm_compute. exact I.
  - vm_compute. reflexivity.
Defined.

(** ** The flattening of outlines *)

Lemma DocumentSymbol_nested_ind (P : DocumentSymbol -> Prop) :
  (forall name kind range selectionRange detail children,
      Forall P children ->
      P (DocSym name kind range selectionRange detail children)) ->
  forall sym, P sym.
Proof.
  intros H. fix IH 1. intros [nm k r sr d children]. apply H.
  induction children as [|c cs IHcs]; constructor; [apply IH|exact IHcs].
Qed.

Lemma flattenSymbol_head uri file parentName sym :
  exists rest,
    flattenSymbol uri file parentName sym
    = symbol_info uri file (qualifier parentName ++ symbol_name sym) sym :: rest.
Proof.
  destruct sym as [nm k r sr d children]. cbn [flattenSymbol symbol_info symbol_name].
  eexists. f_equal. f_equal.
  destruct parentName as [[|c p]|]; cbn [qualifier app]; try done.
  by rewrite <- app_assoc.
Qed.

Lemma flattenSymbols_elem info symbols uri file parentName :
  info ∈ flattenSymbols symbols uri file parentName <->
  exists sym, sym ∈ symbols /\ info ∈ flattenSymbol uri file parentName sym.
Proof.
  unfold flattenSymbols. rewrite list_elem_of_In, in_concat.
  split.
  - intros (l & Hl & Hin). apply in_map_iff in Hl as (sym & <- & Hs).
    exists sym. by rewrite !list_elem_of_In.
  - intros (sym & Hs & Hin). exists (flattenSymbol uri file parentName sym).
    split; [apply in_map_iff; exists sym; by rewrite <- list_elem_of_In
           |by rewrite <- list_elem_of_In].
Qed.

Lemma flattenSymbol_children uri file parentName sym info :
  info ∈ flattenSymbols (symbol_children sym) uri file
           (Some (qualifier parentName ++ symbol_name sym)) ->
  info ∈ flattenSymbol uri file parentName sym.
Proof.
  destruct sym as [nm k r sr d children].
  cbn [flattenSymbol symbol_children symbol_name]. intros H.
  apply elem_of_cons. right. unfold flattenSymbols in H.
  destruct parentName as [[|c p]|]; cbn [qualifier app] in H; try done.
  by rewrite <- app_assoc in H.
Qed.

Lemma join_cons sep p rest :
  rest <> [] -> join sep (p :: rest) = p ++ sep ++ join sep rest.
Proof. by destruct rest. Qed.

Lemma nested_in_flattened uri file symbols ancestors sym :
  nested_in symbols ancestors sym ->
  Forall (fun a => a <> []) ancestors ->
  forall parentName,
    symbol_info uri file
      (qualifier parentName ++ join [46] (ancestors ++ [symbol_name sym])) sym
    ∈ flattenSymbols symbols uri file parentName.
Proof.
  induction 1 as [symbols sym Hin|symbols parent ancestors sym Hin Hn IH];
    intros Hne parentName.
  - apply flattenSymbols_elem. exists sym. split; [done|].
    destruct (flattenSymbol_head uri file parentName sym) as [rest ->].
    cbn [app join]. by left.
  - apply Forall_cons in Hne as [Hp Hne].
    apply flattenSymbols_elem. exists parent. split; [done|].
    apply flattenSymbol_children.
    specialize (IH Hne (Some (qualifier parentName ++ symbol_name parent))).
    assert (qualifier (Some (qualifier parentName ++ symbol_name parent))
            = qualifier parentName ++ symbol_name parent ++ [46]) as Hq.
    { destruct (qualifier parentName ++ symbol_name parent) as [|c p] eqn:E.
      - apply app_eq_nil in E as [_ E]. done.
      - cbn [qualifier]. by rewrite <- E, <- app_assoc. }
    rewrite Hq in IH. cbn [app]. rewrite join_cons by by destruct ancestors.
    rewrite <- !app_assoc in IH. exact IH.
Qed.

(** X17: qualified names.  A node of the outline that lies below
    ancestors with non-empty names has an entry in the flattened list
    whose [fullName] is the names of its ancestors and its own name joined
    by dots; the other fields of the entry are the node's own, with the
    [uri] and [file] of the call. *)
Theorem flattenSymbols_qualifies_names
    (symbols : list DocumentSymbol) (uri file : jsstring)
    (ancestors : list jsstring) (sym : DocumentSymbol) :
  nested_in symbols ancestors sym ->
  Forall (fun a => a <> []) ancestors ->
  symbol_info uri file (join [46] (ancestors ++ [symbol_name sym])) sym
  ∈ flattenSymbols symbols uri file None.
Proof.
  intros Hn Hne.
  exact (nested_in_flattened uri file symbols ancestors sym Hn Hne None).
Qed.

Lemma flattenSymbols_qualifies_names_witness :
  let entry := DocSym (js "entry") 13 (sample_range 5 5) None None [] in
  nested_in sample_outline [js "Store"; js "put"] entry
  /\ symbol_info (js "file:///p/store.ts") (js "store.ts")
       (js "Store.put.entry") entry
     ∈ flattenSymbols sample_outline (js "file:///p/store.ts") (js "store.ts")
         None.
Proof.
  intros entry.
  assert (nested_in sample_outline [js "Store"; js "put"] entry) as Hn.
  { apply (nested_below _ (DocSym (js "Store") 5 (sample_range 0 9) None None
             [DocSym (js "get") 6 (sample_range 1 3) None None [];
              DocSym (js "put") 6 (sample_range 4 8) None None [entry]]));
      [by left|].
    apply (nested_below _ (DocSym (js "put") 6 (sample_range 4 8) None None
             [entry])); [right; by left|].
    apply nested_here. by left. }
  split; [exact Hn|].
  apply (flattenSymbols_qualifies_names sample_outline
           (js "file:///p/store.ts") (js "store.ts")
           [js "Store"; js "put"] entry Hn).
  repeat constructor; vm_compute; discriminate.
Defined.

Lemma flattenSymbol_origin uri file sym :
  forall parentName info,
    info ∈ flattenSymbol uri file parentName sym ->
    exists ancestors node,
      nested_in [sym] ancestors node
      /\ info = symbol_info uri file (fullName info) node
      /\ exists before, fullName info = before ++ name info.
Proof.
  induction sym as [nm k r sr d children IH] using DocumentSymbol_nested_ind.
  intros parentName info Hin. cbn [flattenSymbol] in Hin.
  apply elem_of_cons in Hin as [->|Hin].
  - exists [], (DocSym nm k r sr d children). split; [constructor; by left|].
    split; [done|]. cbn [fullName name].
    destruct parentName as [[|c p]|]; [by exists []| |by exists []].
    exists ((c :: p) ++ [46]). by rewrite <- app_assoc.
  - rewrite list_elem_of_In, in_concat in Hin. destruct Hin as (l & Hl & Hin).
    apply in_map_iff in Hl as (child & <- & Hc).
    rewrite Forall_forall in IH. apply list_elem_of_In in Hc.
    rewrite <- list_elem_of_In in Hin.
    destruct (IH child Hc _ info Hin) as (ancestors & node & Hn & Hinfo & Hsuf).
    exists (nm :: ancestors), node. split; [|done].
    apply (nested_below [DocSym nm k r sr d children]
             (DocSym nm k r sr d children)); [by left|].
    cbn [symbol_children]. clear -Hn Hc.
    remember [child] as one eqn:E. revert Hc. induction Hn as [? ? Hin|? ? ? ? Hin Hn' _]; subst.
    + apply list_elem_of_singleton in Hin as ->. intros. by constructor.
    + apply list_elem_of_singleton in Hin as ->. intros.
      by apply nested_below.
Qed.

Lemma flattenSymbol_length uri file sym :
  forall parentName,
    length (flattenSymbol uri file parentName sym) = count_symbols sym.
Proof.
  induction sym as [nm k r sr d children IH] using DocumentSymbol_nested_ind.
  intros parentName. cbn [flattenSymbol count_symbols length]. f_equal.
  generalize (Some match parentName with
                   | Some (c :: p) => (c :: p) ++ [46] ++ nm
                   | _ => nm
                   end).
  intros pn. induction IH as [|c cs Hc _ IHcs]; [done|].
  cbn [map concat list_sum]. by rewrite length_app, Hc, IHcs.
Qed.

(** X18: the flattened list has exactly one entry per node of the outline.
    Its length is the number of nodes, and every entry is the entry of
    some node: it carries that node's name, kind, ranges and detail, the
    [uri] and [file] of the call, the kind name of the table (or
    [unknown]), and a [fullName] that ends with the node's name. *)
Theorem flattenSymbols_one_entry_per_node
    (symbols : list DocumentSymbol) (docUri relativePath : jsstring)
    (parentName : option jsstring) :
  length (flattenSymbols symbols docUri relativePath parentName)
  = list_sum (map count_symbols symbols)
  /\ forall info,
       info ∈ flattenSymbols symbols docUri relativePath parentName ->
       (exists ancestors node,
           nested_in symbols ancestors node
           /\ info = symbol_info docUri relativePath (fullName info) node)
       /\ uri info = docUri
       /\ file info = relativePath
       /\ kindName info = default (js "unknown") (SYMBOL_KINDS (kind info))
       /\ exists before, fullName info = before ++ name info.
Proof.
  split.
  - unfold flattenSymbols. induction symbols as [|s ss IH]; [done|].
    cbn [map concat list_sum]. by rewrite length_app, flattenSymbol_length, IH.
  - intros info Hin. apply flattenSymbols_elem in Hin as (sym & Hs & Hin).
    destruct (flattenSymbol_origin docUri relativePath sym parentName info Hin)
      as (ancestors & node & Hn & Hinfo & Hsuf).
    assert (nested_in symbols ancestors node) as Hn'.
    { clear -Hn Hs. remember [sym] as one eqn:E.
      destruct Hn as [? ? Hin|? ? ? ? Hin Hn]; subst;
        apply list_elem_of_singleton in Hin as ->; by constructor. }
    split; [by exists ancestors, node|].
    split_and!; [rewrite Hinfo; by destruct node..|exact Hsuf].
Qed.

Lemma flattenSymbols_one_entry_per_node_witness :
  let flat := flattenSymbols sample_outline (js "file:///p/store.ts")
                (js "store.ts") None in
  length flat = 5%nat
  /\ Forall (fun info => file info = js "store.ts") flat.
Proof.
  intros flat.
  destruct (flattenSymbols_one_entry_per_node sample_outline
              (js "file:///p/store.ts") (js "store.ts") None) as [Hlen Hall].
  split; [exact Hlen|].
  apply Forall_forall. intros info Hin.
  by destruct (Hall info Hin) as (_ & _ & Hfile & _).
Defined.

(** ** The property scanner *)

Lemma propMatch_word text p :
  propMatch text = Some p -> p <> [] /\ Forall (fun c => is_word c = true) p.
Proof.
  unfold propMatch.
  pose proof (span_spec is_word (snd (span is_space text))) as (_ & Hall & _).
  destruct (span is_word (snd (span is_space text))) as [w r1].
  cbn [fst] in Hall. destruct w as [|c w]; [done|].
  intros H. assert (p = c :: w) as -> by (repeat case_match; congruence).
  split; [done|exact Hall].
Qed.

Lemma extract_loop_spec lines :
  forall braceCount started props,
  exists found,
    extract_loop lines braceCount started props = props ++ found
    /\ (length found <= length lines)%nat
    /\ Forall (fun p => exists text, text ∈ lines /\ propMatch text = Some p)
         found.
Proof.
  induction lines as [|text rest IH]; intros braceCount started props.
  { exists []. cbn [extract_loop length]. rewrite app_nil_r.
    split_and!; [done|lia|constructor]. }
  cbn [extract_loop].
  set (started1 := started || includes_char 123 text).
  set (braceCount1 := if includes_char 123 text
                      then braceCount + count_char 123 text else braceCount).
  set (braceCount2 := if includes_char 125 text
                      then braceCount1 - count_char 125 text else braceCount1).
  assert (exists here,
             (if started1 && (0 <? braceCount2)
              then match propMatch text with
                   | Some p => props ++ [p]
                   | None => props
                   end
              else props) = props ++ here
             /\ (length here <= 1)%nat
             /\ Forall (fun p => propMatch text = Some p) here)
    as (here & -> & Hlen & Hhere).
  { destruct (started1 && (0 <? braceCount2));
      [|exists []; rewrite app_nil_r; split_and!; [done|cbn; lia|constructor]].
    destruct (propMatch text) as [p|] eqn:E;
      [|exists []; rewrite app_nil_r; split_and!; [done|cbn; lia|constructor]].
    exists [p]. split_and!; [done|cbn; lia|by constructor]. }
  assert (Forall (fun p => exists t, t ∈ text :: rest /\ propMatch t = Some p)
            here) as Hhere'.
  { eapply Forall_impl; [exact Hhere|]. intros p Hp. exists text.
    split; [by left|done]. }
  destruct (started1 && (braceCount2 =? 0)).
  - exists here. split; [done|]. split; [cbn [length]; lia|done].
  - destruct (IH braceCount2 started1 (props ++ here))
      as (found & -> & Hl & Hf).
    exists (here ++ found). split; [by rewrite app_assoc|].
    split; [rewrite length_app; cbn [length]; lia|].
    apply Forall_app. split; [done|].
    eapply Forall_impl; [exact Hf|]. intros p (t & Ht & Hp). exists t.
    split; [by right|done].
Qed.

(** X19: what the property scanner can return.  At most fifty names, at
    most one for each line from [startLine] on; every name is a non-empty
    run of word characters, captured by the property pattern from one of
    the fifty lines that start at [startLine].  In particular nothing is
    returned when [startLine] is past the end of the file. *)
Theorem extractTypeProperties_reads_fifty_lines
    (content : jsstring) (startLine : nat) (name : jsstring) :
  let props := extractTypeProperties content startLine name in
  (length props <= 50)%nat
  /\ (length props <= length (split_on LF content) - startLine)%nat
  /\ forall p,
       p ∈ props ->
       p <> []
       /\ Forall (fun c => is_word c = true) p
       /\ exists i text,
            (startLine <= i < startLine + 50)%nat
            /\ split_on LF content !! i = Some text
            /\ propMatch text = Some p.
Proof.
  unfold extractTypeProperties.
  destruct (extract_loop_spec (take 50 (drop startLine (split_on LF content)))
              0 false []) as (found & -> & Hlen & Hall).
  cbn [app]. rewrite length_take, length_drop in Hlen.
  split; [lia|]. split; [lia|]. intros p Hp.
  rewrite Forall_forall in Hall. destruct (Hall p Hp) as (text & Hin & Hm).
  destruct (propMatch_word text p Hm) as [Hne Hw]. split; [done|].
  split; [done|].
  apply list_elem_of_lookup in Hin as [k Hk].
  apply lookup_take_Some in Hk as [Hk Hlt]. rewrite lookup_drop in Hk.
  exists (startLine + k)%nat, text. split; [lia|done].
Qed.

Lemma includes_char_count c s :
  includes_char c s = true <-> 0 < count_char c s.
Proof.
  unfold includes_char, count_char.
  induction s as [|x s IH]; cbn [existsb]; [done|].
  destruct (decide (x = c)) as [->|Hne].
  - rewrite Z.eqb_refl, filter_cons_True by done. cbn [orb length]. lia.
  - rewrite filter_cons_False by done.
    assert ((c =? x) = false) as -> by (apply Z.eqb_neq; congruence).
    exact IH.
Qed.

(** X20: a type written on one line.  When the line at [startLine] holds
    an opening brace and as many closing braces as opening ones, the scan
    ends on that line and no property is returned, whatever the line
    declares. *)
Theorem one_line_type_has_no_properties
    (content : jsstring) (startLine : nat) (name text : jsstring) :
  split_on LF content !! startLine = Some text ->
  includes_char 123 text = true ->
  count_char 125 text = count_char 123 text ->
  extractTypeProperties content startLine name = [].
Proof.
  intros Hl Ho Hc. unfold extractTypeProperties.
  rewrite (drop_S _ _ _ Hl). cbn [take extract_loop].
  assert (includes_char 125 text = true) as ->.
  { apply includes_char_count. rewrite Hc. by apply includes_char_count. }
  rewrite Ho, Hc. cbn [orb andb].
  replace (0 + count_char 123 text - count_char 123 text) with 0 by lia.
  reflexivity.
Qed.

Lemma one_line_type_has_no_properties_witness :
  let text := js "interface Point { x: number; y: number }" in
  split_on LF (text_of ["// a point"; "interface Point { x: number; y: number }"])
    !! 1%nat = Some text
  /\ extractTypeProperties
       (text_of ["// a point"; "interface Point { x: number; y: number }"])
       1 (js "Point") = [].
Proof.
  intros text.
  assert (split_on LF
            (text_of ["// a point"; "interface Point { x: number; y: number }"])
            !! 1%nat = Some text) as Hl by (vm_compute; reflexivity).
  split; [exact Hl|].
  apply (one_line_type_has_no_properties _ 1 (js "Point") text Hl).
  - vm_compute. reflexivity.
  - vm_compute. reflexivity.
Defined.

(** ** The life cycle of the client *)

Ltac lifecycle :=
  cbn [fst snd negb process messageBuffer nextRequestId pendingRequests
       initialized stdin timers nextTimer promises nextPromise emitted
       set_process set_messageBuffer set_nextRequestId set_pendingRequests
       set_initialized write].

Lemma set_initialized_inv b s : client_inv s -> client_inv (set_initialized b s).
Proof. intros [H1 H2 H3 H4]. by split. Qed.

Lemma set_process_keeps_inv b s : client_inv s -> client_inv (set_process b s).
Proof. intros [H1 H2 H3 H4]. by split. Qed.

Lemma write_keeps_inv text s : client_inv s -> client_inv (write text s).
Proof. intros [H1 H2 H3 H4]. by split. Qed.

Lemma settle_quiet p o s :
  process (settle p o s) = process s /\ stdin (settle p o s) = stdin s
  /\ initialized (settle p o s) = initialized s.
Proof. unfold settle. by destruct (promises s !! p). Qed.

Lemma handleMessage_quiet msg s :
  process (handleMessage msg s) = process s
  /\ stdin (handleMessage msg s) = stdin s
  /\ initialized (handleMessage msg s) = initialized s.
Proof.
  unfold handleMessage. destruct (get (js "id") msg) as [id|].
  - destruct (pending_get id s) as [[n pending]|]; [|done].
    destruct (truthy _); [destruct (remote_error _); [|done]|];
      match goal with |- context [settle ?p ?o ?t] =>
        destruct (settle_quiet p o t) as (-> & -> & ->) end; done.
  - destruct (get (js "method") msg) as [m|]; [|done].
    by destruct (truthy _).
Qed.

Lemma timer_fires_quiet t s :
  process (timer_fires t s) = process s /\ stdin (timer_fires t s) = stdin s
  /\ initialized (timer_fires t s) = initialized s.
Proof.
  unfold timer_fires. destruct (timers s !! t) as [c|]; [|done].
  match goal with |- context [settle ?p ?o ?t] =>
    destruct (settle_quiet p o t) as (-> & -> & ->) end. done.
Qed.

(** Without a child nothing is written, whatever happens to the client. *)
Lemma step_stopped s a :
  process s = false ->
  process (step s a) = false /\ stdin (step s a) = stdin s
  /\ initialized (step s a) = initialized s.
Proof.
  intros Hp. destruct a as [m q t|m q|msg|t|code]; cbn [step].
  - unfold sendRequest. fields. rewrite Hp. fields.
    match goal with |- context [settle ?p ?o ?t] =>
      destruct (settle_quiet p o t) as (-> & -> & ->) end. by fields.
  - unfold sendNotification. by rewrite Hp.
  - destruct (handleMessage_quiet msg s) as (-> & -> & ->). done.
  - destruct (timer_fires_quiet t s) as (-> & -> & ->). done.
  - done.
Qed.

Section Stopped.
Variable JSON_parse : jsstring -> option json.

Lemma dispatch_quiet body s :
process (dispatch JSON_parse body s) = process s
/\ stdin (dispatch JSON_parse body s) = stdin s
/\ initialized (dispatch JSON_parse body s) = initialized s.
Proof.
unfold dispatch. destruct (JSON_parse body); [|done].
apply handleMessage_quiet.
Qed.

Lemma handleData_quiet data s :
process (handleData JSON_parse data s) = process s
/\ stdin (handleData JSON_parse data s) = stdin s
/\ initialized (handleData JSON_parse data s) = initialized s.
Proof.
unfold handleData, handleData_buffer.
assert (forall fuel buf s0,
  let r := snd (handleData_loop (dispatch JSON_parse) fuel buf s0) in
  process r = process s0 /\ stdin r = stdin s0
  /\ initialized r = initialized s0) as H.
{ induction fuel as [|fuel IH]; intros buf s0; [done|].
cbn [handleData_loop]. destruct (indexOf _ _); [|done].
destruct (contentLengthMatch _); [|done].
destruct (_ <? _)%nat; [done|]. cbn zeta.
match goal with |- context [handleData_loop _ fuel ?b ?t] =>
destruct (IH b t) as (-> & -> & ->) end.
apply dispatch_quiet. }
specialize (H (S (length (messageBuffer s ++ utf8_decode data)))
      (messageBuffer s ++ utf8_decode data) s).
destruct (handleData_loop _ _ _ _) as [buf s']. exact H.
Qed.

Lemma history_stopped events s :
process s = false ->
process (history JSON_parse s events) = false
/\ stdin (history JSON_parse s events) = stdin s
/\ initialized (history JSON_parse s events) = initialized s.
Proof.
unfold history. revert s.
induction events as [|ev events IH]; intros s Hp; [done|].
cbn [fold_left].
assert (process (react JSON_parse s ev) = false
/\ stdin (react JSON_parse s ev) = stdin s
/\ initialized (react JSON_parse s ev) = initialized s)
as (H1 & H2 & H3).
{ destruct ev as [a|data]; cbn [react]; [by apply step_stopped|].
destruct (handleData_quiet data s) as (-> & -> & ->). done. }
destruct (IH _ H1) as (-> & -> & ->). done.
Qed.

(** X21: shutdown is final.  Once [shutdown] has run to its end, on an
answer of the server or on the rejection of its request, the client
has no child and is not initialized; the [exit] notification was
written exactly when the request was answered and the child was still
there; requests in flight keep their timers.  From then on nothing is
written any more, whatever requests and notifications are sent and
whatever arrives, and a second [shutdown] returns at once. *)
Theorem shutdown_is_final (o : Outcome) (s : LSPClient) (events : list Event) :
client_inv s ->
let s' := shutdown_resumes o s in
let later := history JSON_parse s' events in
client_inv s'
/\ process s' = false /\ initialized s' = false
/\ stdin s'
 = stdin s
 ++ match o with
| Resolved _ =>
    if process s
    then utf8_encode (framed (notification_content (js "exit") (JObj [])))
    else []
| Rejected _ => []
end
/\ pendingRequests s' = pendingRequests s
/\ timers s' = timers s
/\ stdin later = stdin s'
/\ process later = false
/\ shutdown later = (None, later).
Proof.
intros Hinv s' later.
assert (process s' = false /\ initialized s' = false) as [Hp Hi] by done.
destruct (history_stopped events s' Hp) as (Hlp & Hls & Hli).
split_and!; try done.
- unfold s', shutdown_resumes. apply set_initialized_inv, set_process_keeps_inv.
destruct o as [v|e]; [|done]. unfold sendNotification.
destruct (process s); [|done]. by apply write_keeps_inv.
- unfold s', shutdown_resumes. destruct o as [v|e]; lifecycle;
[|by rewrite app_nil_r].
unfold sendNotification. destruct (process s); lifecycle;
[done|by rewrite app_nil_r].
- unfold s', shutdown_resumes. destruct o as [v|e]; [|done].
unfold sendNotification. by destruct (process s).
- unfold s', shutdown_resumes. destruct o as [v|e]; [|done].
unfold sendNotification. by destruct (process s).
- unfold shutdown, later. by rewrite Hli, Hi.
Qed.
End Stopped.

Lemma shutdown_is_final_witness :
  let s := set_initialized true started_client in
  let events := [Act (CallSendRequest (js "textDocument/hover") JNull 3000);
                 Data (utf8_encode (framed (JSON_stringify (response 1 JNull))))] in
  let s' := shutdown_resumes (Resolved (Some JNull)) s in
  client_inv s
  /\ stdin s' = utf8_encode (framed (notification_content (js "exit") (JObj [])))
  /\ stdin (history (sample_parse [response 1 JNull]) s' events) = stdin s'.
Proof.
  intros s events s'.
  assert (client_inv s) as Hinv.
  { apply set_initialized_inv, set_process_keeps_inv, new_LSPClient_inv. }
  destruct (shutdown_is_final (sample_parse [response 1 JNull])
              (Resolved (Some JNull)) s events Hinv)
    as (_ & _ & _ & H4 & _ & _ & H7 & _).
  split; [exact Hinv|]. split; [|exact H7].
  etransitivity; [exact H4|]. unfold s, started_client. lifecycle.
  cbn [new_LSPClient stdin process app]. reflexivity.
Defined.

(** X22: the handshake of [start].  A fresh client that is started sends
    the [initialize] request with id 1; when the answer arrives, the
    promise of the request is fulfilled with its result, the
    [initialized] notification is written after the request, the client is
    marked initialized and no request or timer is left.  If the request
    times out instead, [start] fails with the time-out error and the
    client is not marked initialized, so that a later [shutdown] does
    nothing and leaves the child as it is. *)
Theorem start_handshake (pid : Z) (rootUri : jsstring)
    (initializationOptions result : json) :
  let '(p, s1) := start pid rootUri initializationOptions new_LSPClient in
  let answered := handleMessage (response 1 result) s1 in
  let failed := timer_fires 0 s1 in
  promises answered !! p = Some (Resolved (Some result))
  /\ (exists s3,
        start_resumes (Resolved (Some result)) answered = inr s3
        /\ initialized s3 = true /\ process s3 = true
        /\ pendingRequests s3 = ∅ /\ timers s3 = ∅
        /\ stdin s3
           = utf8_encode
               (framed (request_content 1 (js "initialize")
                          (initialize_params pid rootUri initializationOptions)))
             ++ utf8_encode
                  (framed (notification_content (js "initialized") (JObj []))))
  /\ promises failed !! p = Some (Rejected (timed_out (js "initialize")))
  /\ start_resumes (Rejected (timed_out (js "initialize"))) failed
     = inl (timed_out (js "initialize"))
  /\ initialized failed = false
  /\ shutdown failed = (None, failed)
  /\ process failed = true.
Proof.
  unfold start.
  assert (client_inv (set_process true new_LSPClient)) as Hinv
    by apply set_process_keeps_inv, new_LSPClient_inv.
  pose proof (sendRequest_started (js "initialize")
                (initialize_params pid rootUri initializationOptions) 10000
                (set_process true new_LSPClient) eq_refl) as Hs.
  pose proof (sendRequest_then_complete (js "initialize")
                (initialize_params pid rootUri initializationOptions) 10000
                (set_process true new_LSPClient) Hinv eq_refl) as Hc.
  pose proof (sendRequest_inv (js "initialize")
                (initialize_params pid rootUri initializationOptions) 10000
                (set_process true new_LSPClient) Hinv) as Hinv1.
  assert (stdin (snd (sendRequest (js "initialize")
                (initialize_params pid rootUri initializationOptions) 10000
                (set_process true new_LSPClient)))
          = utf8_encode
               (framed (request_content 1 (js "initialize")
                          (initialize_params pid rootUri initializationOptions))))
    as Hw by reflexivity.
  assert (initialized (snd (sendRequest (js "initialize")
                (initialize_params pid rootUri initializationOptions) 10000
                (set_process true new_LSPClient))) = false) as Hi by reflexivity.
  destruct (sendRequest _ _ _ _) as [p s1]. cbn [snd] in *.
  destruct Hs as (-> & Hpend & Htim & Hprom & Hid & Hnt & Hnp & Hproc & Hem).
  destruct Hc as [Hfail Hok]. cbn [nextTimer set_process new_LSPClient] in Hfail.
  specialize (Hok (response 1 result) (get_id_response 1 result)).
  rewrite completion_response in Hok.
  assert (pendingRequests s1 !! 1
          = Some {| promise := nextPromise (set_process true new_LSPClient);
                    timeout := 0%nat |}) as He.
  { rewrite Hpend. apply lookup_insert_eq. }
  destruct (handleMessage_quiet (response 1 result) s1) as (Hq1 & Hq2 & Hq3).
  destruct (timer_fires_quiet 0 s1) as (Hf1 & Hf2 & Hf3).
  cbn zeta. split_and!.
  - exact Hok.
  - unfold start_resumes, sendNotification. rewrite Hq1, Hproc. cbn [negb].
    exists (set_initialized true
              (write (framed (notification_content (js "initialized") (JObj [])))
                     (handleMessage (response 1 result) s1))).
    split; [reflexivity|]. lifecycle. rewrite Hq1, Hq2, Hproc, Hw.
    split_and!; try done.
    + rewrite (handleMessage_pending _ s1 1 _ (get_id_response _ _) He).
      rewrite completion_response. cbn [settle_with].
      match goal with |- pendingRequests (settle ?a ?b ?c) = _ =>
        destruct (complete_effect 1 _ b s1 Hinv1 He) as (-> & _) end.
      rewrite Hpend. fields. cbn [new_LSPClient pendingRequests nextRequestId].
      by rewrite delete_insert_eq, delete_empty.
    + rewrite (handleMessage_pending _ s1 1 _ (get_id_response _ _) He).
      rewrite completion_response. cbn [settle_with].
      match goal with |- timers (settle ?a ?b ?c) = _ =>
        destruct (complete_effect 1 _ b s1 Hinv1 He) as (_ & -> & _) end.
      rewrite Htim. fields. cbn [new_LSPClient timers nextTimer].
      by rewrite delete_insert_eq, delete_empty.
  - exact Hfail.
  - done.
  - by rewrite Hf3.
  - unfold shutdown. by rewrite Hf3, Hi.
  - by rewrite Hf1.
Qed.

(** ** Sorting in descending order *)

Section SortDescendingFacts.
Context {A : Type} (key : A -> Z).

Lemma insert_descending_perm x sorted :
insert_descending key x sorted ≡ₚ x :: sorted.
Proof.
induction sorted as [|h rest IH]; cbn [insert_descending]; [done|].
destruct (_ <? _); [done|]. rewrite IH. apply perm_swap.
Qed.

Lemma insert_descending_sorted x sorted :
StronglySorted (fun a b => key b <= key a) sorted ->
StronglySorted (fun a b => key b <= key a) (insert_descending key x sorted).
Proof.
induction 1 as [|h rest Hs IH Hall]; cbn [insert_descending].
{ repeat constructor. }
destruct (key h <? key x) eqn:E; zbool.
- constructor; [by constructor|]. constructor; [lia|].
eapply Forall_impl; [exact Hall|]. cbn. intros; lia.
- constructor; [done|].
rewrite (insert_descending_perm x rest). constructor; [lia|done].
Qed.

Lemma insert_descending_filter k x sorted :
StronglySorted (fun a b => key b <= key a) sorted ->
filter (fun y => key y = k) (insert_descending key x sorted)
= filter (fun y => key y = k) sorted
++ (if decide (key x = k) then [x] else []).
Proof.
induction 1 as [|h rest Hs IH Hall]; cbn [insert_descending].
{ rewrite filter_cons, filter_nil. by destruct (decide _). }
destruct (key h <? key x) eqn:E; zbool.
- rewrite (filter_cons _ x). destruct (decide (key x = k)) as [Hg|Hg].
+ assert (filter (fun y => key y = k) (h :: rest) = []) as ->; [|done].
apply filter_none. apply Forall_cons. split; [lia|].
eapply Forall_impl; [exact Hall|]. cbn. intros; lia.
+ by rewrite app_nil_r.
- rewrite !(filter_cons _ h), IH. by destruct (decide (key h = k)).
Qed.

(** The sort keeps exactly the elements it is given, puts them in
descending order of the key, and keeps elements of equal key in the
order in which they came. *)
Lemma sort_descending_spec xs :
sort_descending key xs ≡ₚ xs
/\ StronglySorted (fun a b => key b <= key a) (sort_descending key xs)
/\ forall k, filter (fun y => key y = k) (sort_descending key xs)
   = filter (fun y => key y = k) xs.
Proof.
unfold sort_descending.
assert (forall acc,
StronglySorted (fun a b => key b <= key a) acc ->
fold_left (fun sorted x => insert_descending key x sorted) xs acc
≡ₚ acc ++ xs
/\ StronglySorted (fun a b => key b <= key a)
     (fold_left (fun sorted x => insert_descending key x sorted) xs acc)
/\ forall k,
     filter (fun y => key y = k)
       (fold_left (fun sorted x => insert_descending key x sorted) xs acc)
     = filter (fun y => key y = k) acc
       ++ filter (fun y => key y = k) xs) as H.
{ induction xs as [|x xs IH]; intros acc Hacc; cbn [fold_left].
- split_and!; [by rewrite app_nil_r|done|].
intros k. by rewrite filter_nil, app_nil_r.
- destruct (IH _ (insert_descending_sorted x acc Hacc)) as (H1 & H2 & H3).
split_and!; [|done|].
+ rewrite H1, insert_descending_perm. apply Permutation_middle.
+ intros k. rewrite H3, (insert_descending_filter k x acc Hacc), filter_cons.
rewrite <- app_assoc. by destruct (decide _). }
destruct (H [] (SSorted_nil _)) as (H1 & H2 & H3).
split_and!; [done|done|]. intros k. by rewrite H3, filter_nil.
Qed.
End SortDescendingFacts.

Lemma StronglySorted_weaken {A} (R S : A -> A -> Prop) (l : list A) :
  (forall a b, R a b -> S a b) -> StronglySorted R l -> StronglySorted S l.
Proof.
  intros HRS. induction 1 as [|x l _ IH Hall]; constructor; [done|].
  eapply Forall_impl; [exact Hall|]. intros b. apply HRS.
Qed.

Lemma filter_of_nat {A} (f : A -> nat) (n : nat) (l : list A) :
  filter (fun h => Z.of_nat (f h) = Z.of_nat n) l = filter (fun h => f h = n) l.
Proof.
  induction l as [|a l IH]; [done|]. rewrite !filter_cons, IH.
  destruct (decide (Z.of_nat (f a) = Z.of_nat n)), (decide (f a = n));
    try done; lia.
Qed.

(** ** The hotspot detector *)

Lemma Set_values_spec xs :
  NoDup (Set_values xs) /\ forall x, x ∈ Set_values xs <-> x ∈ xs.
Proof.
  unfold Set_values.
  assert (forall seen,
            NoDup seen ->
            NoDup (fold_left (fun seen x => if bool_decide (x ∈ seen)
                                            then seen else seen ++ [x]) xs seen)
            /\ forall x,
                 x ∈ fold_left (fun seen x => if bool_decide (x ∈ seen)
                                              then seen else seen ++ [x]) xs seen
                 <-> x ∈ seen \/ x ∈ xs) as H.
  { induction xs as [|y xs IH]; intros seen Hnd; cbn [fold_left].
    - split; [done|]. intros x. rewrite elem_of_nil. tauto.
    - destruct (bool_decide_reflect (y ∈ seen)) as [Hy|Hy].
      + destruct (IH seen Hnd) as [H1 H2]. split; [done|]. intros x.
        rewrite H2, elem_of_cons. split; [tauto|].
        intros [?|[->|?]]; tauto.
      + assert (NoDup (seen ++ [y])) as Hnd'.
        { apply NoDup_app. split_and!; [done| |apply NoDup_singleton].
          intros x Hx Hx'. apply list_elem_of_singleton in Hx' as ->. done. }
        destruct (IH _ Hnd') as [H1 H2]. split; [done|]. intros x.
        rewrite H2, elem_of_app, list_elem_of_singleton, elem_of_cons. tauto. }
  destruct (H [] (NoDup_nil_2)) as [H1 H2]. split; [done|].
  intros x. rewrite H2, elem_of_nil. tauto.
Qed.

Lemma hotspot_step_candidate refs rel root qs out sym :
  hotspot_candidate sym ->
  let query := unused_query sym in
  hotspot_step refs rel root (qs, out) sym
  = (qs ++ [query],
     if (HOTSPOT_THRESHOLD <=? length (refs (length qs) query))%nat
     then out ++ [hotspot_finding rel root sym (refs (length qs) query)]
     else out).
Proof.
  intros [Hk Hn] query. unfold hotspot_step.
  assert (bool_decide (kindName sym = js "function")
          || bool_decide (kindName sym = js "class")
          || bool_decide (kindName sym = js "interface") = true) as ->.
  { destruct Hk as [Hk|[Hk|Hk]]; rewrite Hk.
    - done.
    - done.
    - done. }
  rewrite Hn. cbn [negb]. fold (unused_query sym). fold query.
  by destruct (_ <=? _)%nat.
Qed.

Lemma hotspot_step_other refs rel root st sym :
  ~ hotspot_candidate sym -> hotspot_step refs rel root st sym = st.
Proof.
  intros Hn. destruct st as [qs out]. unfold hotspot_step.
  destruct (bool_decide_reflect (kindName sym = js "function")) as [H1|H1];
    [|destruct (bool_decide_reflect (kindName sym = js "class")) as [H2|H2];
      [|destruct (bool_decide_reflect (kindName sym = js "interface")) as [H3|H3];
        [|done]]];
    cbn [orb negb];
    (destruct (startsWith (name sym) (js "_")) eqn:E; [done|]);
    exfalso; apply Hn; split; tauto.
Qed.

Lemma hotspots_fold refs rel root syms qs out :
  let '(qs', out') := fold_left (hotspot_step refs rel root) syms (qs, out) in
  qs' = qs ++ map unused_query (filter hotspot_candidate syms)
  /\ forall h,
       h ∈ out' <->
       h ∈ out \/
       exists k sym,
         filter hotspot_candidate syms !! k = Some sym
         /\ (HOTSPOT_THRESHOLD
             <= length (refs (length qs + k)%nat (unused_query sym)))%nat
         /\ h = hotspot_finding rel root sym
                  (refs (length qs + k)%nat (unused_query sym)).
Proof.
  revert qs out. induction syms as [|sym syms IH]; intros qs out.
  { cbn. split; [by rewrite app_nil_r|]. intros h. split; [by left|].
    intros [?|(k & sym & Hk & _)]; [done|]. by rewrite lookup_nil in Hk. }
  cbn [fold_left]. destruct (decide (hotspot_candidate sym)) as [Hc|Hc].
  - rewrite (hotspot_step_candidate refs rel root qs out sym Hc).
    rewrite filter_cons_True by done.
    specialize (IH (qs ++ [unused_query sym])
                   (if (HOTSPOT_THRESHOLD
                        <=? length (refs (length qs) (unused_query sym)))%nat
                    then out ++ [hotspot_finding rel root sym
                                   (refs (length qs) (unused_query sym))]
                    else out)).
    destruct (fold_left _ _ _) as [qs' out']. destruct IH as [-> IH].
    split; [by rewrite <- app_assoc|]. intros h. rewrite IH.
    rewrite length_app. cbn [length].
    split.
    + intros [Hin|(k & s & Hk & Hge & ->)].
      * destruct (_ <=? _)%nat eqn:E; [|by left].
        apply elem_of_app in Hin as [Hin|Hin]; [by left|].
        apply list_elem_of_singleton in Hin as ->. right.
        exists 0%nat, sym. rewrite Nat.add_0_r. apply Nat.leb_le in E.
        by split_and!.
      * right. exists (S k), s.
        replace (length qs + S k)%nat with (length qs + 1 + k)%nat by lia.
        by split_and!.
    + intros [Hin|(k & s & Hk & Hge & ->)].
      * left. destruct (_ <=? _)%nat; [|done]. apply elem_of_app. by left.
      * destruct k as [|k].
        -- cbn in Hk. injection Hk as <-. rewrite Nat.add_0_r in Hge |- *.
           left. apply Nat.leb_le in Hge. rewrite Hge.
           apply elem_of_app. right. by apply list_elem_of_singleton.
        -- right. exists k, s. cbn in Hk.
           replace (length qs + 1 + k)%nat with (length qs + S k)%nat by lia.
           by split_and!.
  - rewrite (hotspot_step_other refs rel root (qs, out) sym Hc).
    rewrite filter_cons_False by done. apply IH.
Qed.

(** X23: the hotspot detector.  The detector asks the server once for
    every function, class or interface whose name does not start with an
    underscore, in the order of the symbol list, for references without
    the declaration; it asks about nothing else (methods are not asked
    about).  A finding is reported exactly for the symbols with ten or
    more references, with the number of references as its count. *)
Theorem hotspots_detector
    (client_findReferences : nat -> Query -> list Location)
    (path_relative : jsstring -> jsstring -> jsstring) (projectPath : jsstring)
    (allSymbols : list SymbolInfo) :
  let '(queries, hotspots) :=
    analyze_hotspots client_findReferences path_relative projectPath allSymbols in
  queries = map unused_query (filter hotspot_candidate allSymbols)
  /\ forall h,
       h ∈ hotspots <->
       exists k sym,
         filter hotspot_candidate allSymbols !! k = Some sym
         /\ (10 <= length (client_findReferences k (unused_query sym)))%nat
         /\ h = hotspot_finding path_relative projectPath sym
                  (client_findReferences k (unused_query sym)).
Proof.
  unfold analyze_hotspots.
  pose proof (hotspots_fold client_findReferences path_relative projectPath
                allSymbols [] []) as H.
  destruct (fold_left _ _ _) as [qs out]. destruct H as [-> H].
  split; [done|]. intros h.
  destruct (sort_descending_spec (fun h => Z.of_nat (hotspot_referenceCount h)) out)
    as (Hperm & _).
  rewrite Hperm, H. cbn [length Nat.add]. rewrite elem_of_nil. unfold HOTSPOT_THRESHOLD.
  tauto.
Qed.

(** X24: what a reported hotspot looks like.  The list of hotspots is
    in descending order of the reference count, and hotspots with the same
    count keep the order of the symbol list.  Every hotspot has at least
    ten references; its referencing files are pairwise distinct, at least
    one and at most as many as the references. *)
Theorem hotspots_are_ranked
    (client_findReferences : nat -> Query -> list Location)
    (path_relative : jsstring -> jsstring -> jsstring) (projectPath : jsstring)
    (allSymbols : list SymbolInfo) :
  let hotspots :=
    snd (analyze_hotspots client_findReferences path_relative projectPath
           allSymbols) in
  let pushed :=
    snd (fold_left (hotspot_step client_findReferences path_relative projectPath)
           allSymbols ([], [])) in
  StronglySorted
    (fun a b => (hotspot_referenceCount b <= hotspot_referenceCount a)%nat)
    hotspots
  /\ (forall n, filter (fun h => hotspot_referenceCount h = n) hotspots
                = filter (fun h => hotspot_referenceCount h = n) pushed)
  /\ Forall (fun h =>
               (10 <= hotspot_referenceCount h)%nat
               /\ NoDup (referencingFiles h)
               /\ (1 <= length (referencingFiles h)
                   <= hotspot_referenceCount h)%nat)
            hotspots.
Proof.
  intros hotspots pushed. unfold hotspots, analyze_hotspots. fold pushed.
  pose proof (hotspots_fold client_findReferences path_relative projectPath
                allSymbols [] []) as H.
  unfold pushed. destruct (fold_left _ _ _) as [qs out]. cbn [snd].
  destruct H as [_ H].
  destruct (sort_descending_spec (fun h => Z.of_nat (hotspot_referenceCount h)) out)
    as (Hperm & Hsorted & Hstable).
  split_and!.
  - eapply StronglySorted_weaken; [|exact Hsorted]. cbn. intros; lia.
  - intros n. specialize (Hstable (Z.of_nat n)).
    by rewrite !(filter_of_nat hotspot_referenceCount) in Hstable.
  - rewrite Hperm. apply Forall_forall. intros h Hin.
    apply H in Hin as [Hin|(k & sym & Hk & Hge & ->)]; [by apply elem_of_nil in Hin|].
    cbn [length Nat.add] in *. unfold HOTSPOT_THRESHOLD in Hge.
    set (refs := client_findReferences k (unused_query sym)) in *.
    cbn [hotspot_finding hotspot_referenceCount referencingFiles].
    destruct (Set_values_spec
                (map (fun r => path_relative projectPath
                                 (uriToPath (location_uri r))) refs))
      as [Hnd Hmem].
    split; [done|]. split; [done|]. split.
    + destruct refs as [|r refs']; [cbn in Hge; lia|].
      assert (path_relative projectPath (uriToPath (location_uri r))
              ∈ Set_values
                  (map (fun r => path_relative projectPath
                                   (uriToPath (location_uri r))) (r :: refs')))
        as Hr by (apply Hmem; by left).
      destruct (Set_values _); [by apply elem_of_nil in Hr|cbn; lia].
    + rewrite <- (length_map (fun r => path_relative projectPath
                                        (uriToPath (location_uri r))) refs).
      apply submseteq_length, NoDup_submseteq; [done|].
      intros x. apply Hmem.
Qed.

(** A function referenced twelve times from three files. *)
Lemma hotspots_detector_witness :
  let sym := sample_symbol "render" 12 "ui.ts" 3 9 in
  let refs := fun (_ : nat) (_ : Query) => sample_references in
  let finding := hotspot_finding sample_relative (js "/project") sym
                   sample_references in
  finding ∈ snd (analyze_hotspots refs sample_relative (js "/project") [sym])
  /\ hotspot_referenceCount finding = 12%nat
  /\ referencingFiles finding = [js "a.ts"; js "b.ts"; js "c.ts"].
Proof.
  intros sym refs finding.
  pose proof (hotspots_detector refs sample_relative (js "/project") [sym]) as H.
  destruct (analyze_hotspots _ _ _ _) as [qs hs]. destruct H as [_ H].
  split; [|split; vm_compute; reflexivity].
  cbn [snd]. apply H. exists 0%nat, sym. split_and!.
  - vm_compute. reflexivity.
  - vm_compute. lia.
  - reflexivity.
Defined.

(** ** Signatures *)

Lemma collapse_spaces_head s c :
  head (collapse_spaces true s) = Some c -> is_space c = false.
Proof.
  induction s as [|x s IH]; cbn [collapse_spaces]; [done|].
  destruct (is_space x) eqn:E; [exact IH|]. by intros [= <-].
Qed.

Lemma collapse_spaces_single s :
  forall in_run i c,
    collapse_spaces in_run s !! i = Some c ->
    is_space c = true ->
    c = 32
    /\ forall d, collapse_spaces in_run s !! S i = Some d -> is_space d = false.
Proof.
  induction s as [|x s IH]; intros in_run i c; cbn [collapse_spaces]; [done|].
  destruct (is_space x) eqn:E.
  - destruct in_run; [apply IH|].
    destruct i as [|i]; [|apply IH].
    intros [= <-] _. split; [done|]. intros d Hd.
    apply (collapse_spaces_head s d). cbn in Hd.
    by destruct (collapse_spaces true s); simplify_eq/=.
  - destruct i as [|i]; [|apply IH].
    intros [= <-] Hc. congruence.
Qed.

(** [trim] removes a run of white space at each end and leaves a text
    that neither starts nor ends with white space. *)
Lemma trim_spec s :
  exists l r,
    s = l ++ trim s ++ r
    /\ (forall c, head (trim s) = Some c -> is_space c = false)
    /\ (forall c, last (trim s) = Some c -> is_space c = false).
Proof.
  unfold trim.
  destruct (span_spec is_space s) as (Hs & _ & Hv).
  set (l := fst (span is_space s)) in *.
  set (v := snd (span is_space s)) in *.
  destruct (span_spec is_space (rev v)) as (Hr & _ & Hw).
  set (r' := fst (span is_space (rev v))) in *.
  set (w := snd (span is_space (rev v))) in *.
  assert (v = rev w ++ rev r') as Hv'.
  { rewrite <- rev_app_distr, <- Hr. by rewrite rev_involutive. }
  exists l, (rev r'). split_and!.
  - by rewrite <- Hv'.
  - intros c Hc. destruct (rev w) as [|x m] eqn:E; [done|].
    injection Hc as ->. apply (Hv c (m ++ rev r')). by rewrite Hv'.
  - intros c Hc. destruct w as [|x w']; [done|].
    cbn [rev] in Hc. rewrite last_snoc in Hc. injection Hc as ->.
    by apply (Hw c w').
Qed.

(** X25: signatures are normalised for white space.  Whatever the hover
    text, the signature extracted from it neither starts nor ends with
    white space, and every white-space character in it is a plain space
    standing alone between two other characters. *)
Theorem extractSignature_is_single_spaced (detail : option jsstring) :
  let sig := extractSignature detail in
  (forall c, head sig = Some c -> is_space c = false)
  /\ (forall c, last sig = Some c -> is_space c = false)
  /\ forall i c,
       sig !! i = Some c ->
       is_space c = true ->
       c = 32 /\ exists d, sig !! S i = Some d /\ is_space d = false.
Proof.
  unfold extractSignature.
  assert (forall t,
            let sig := trim (collapse_spaces false t) in
            (forall c, head sig = Some c -> is_space c = false)
            /\ (forall c, last sig = Some c -> is_space c = false)
            /\ forall i c,
                 sig !! i = Some c ->
                 is_space c = true ->
                 c = 32 /\ exists d, sig !! S i = Some d /\ is_space d = false)
    as H.
  { intros t sig. destruct (trim_spec (collapse_spaces false t))
      as (l & r & Hu & Hhead & Hlast).
    fold sig in Hu, Hhead, Hlast. split; [done|]. split; [done|].
    intros i c Hi Hc.
    assert (collapse_spaces false t !! (length l + i)%nat = Some c) as Hi'.
    { rewrite Hu, lookup_app_r by lia.
      replace (length l + i - length l)%nat with i by lia.
      by apply lookup_app_l_Some. }
    destruct (collapse_spaces_single t false _ c Hi' Hc) as [-> Hnext].
    split; [done|].
    destruct (sig !! S i) as [d|] eqn:Hd.
    - exists d. split; [done|]. apply Hnext.
      replace (S (length l + i)) with (length l + S i)%nat by lia.
      rewrite Hu, lookup_app_r by lia.
      replace (length l + S i - length l)%nat with (S i) by lia.
      by apply lookup_app_l_Some.
    - exfalso. apply lookup_ge_None in Hd. apply lookup_lt_Some in Hi as Hlt.
      assert (last sig = Some 32) as Hl.
      { rewrite last_lookup. replace (pred (length sig)) with i by lia. done. }
      by apply Hlast in Hl. }
  assert (let sig := js "unknown" in
          (forall c, head sig = Some c -> is_space c = false)
          /\ (forall c, last sig = Some c -> is_space c = false)
          /\ forall i c,
               sig !! i = Some c ->
               is_space c = true ->
               c = 32 /\ exists d, sig !! S i = Some d /\ is_space d = false)
    as Hunknown.
  { assert (Forall (fun x => is_space x = false) (js "unknown")) as Hall
      by (vm_compute; repeat constructor).
    intros sig. split_and!.
    - intros c Hc. rewrite head_lookup in Hc.
      exact (Forall_lookup_1 _ _ _ _ Hall Hc).
    - intros c Hc. rewrite last_lookup in Hc.
      exact (Forall_lookup_1 _ _ _ _ Hall Hc).
    - intros i c Hc Hs. pose proof (Forall_lookup_1 _ _ _ _ Hall Hc). congruence. }
  destruct detail as [[|c d]|]; [exact Hunknown|apply H|exact Hunknown].
Qed.

(** ** The signature detector *)

Lemma functions_with_snoc sig entries k f :
  functions_with sig (entries ++ [(k, f)])
  = functions_with sig entries ++ (if decide (k = sig) then [f] else []).
Proof.
  unfold functions_with. rewrite filter_app, map_app. f_equal.
  rewrite filter_cons, filter_nil. cbn [fst]. by destruct (decide (k = sig)).
Qed.

Lemma signatureMap_push_keys k f m :
  map fst (signatureMap_push k f m)
  = map fst m ++ (if decide (k ∈ map fst m) then [] else [k]).
Proof.
  induction m as [|[k' fs] m IH]; cbn [signatureMap_push map fst app].
  { destruct (decide (k ∈ [])) as [H|_]; [by apply elem_of_nil in H|done]. }
  destruct (decide (k' = k)) as [->|Hne]; cbn [map fst app].
  - destruct (decide (k ∈ k :: map fst m)) as [_|H];
      [by rewrite app_nil_r|]. exfalso. apply H. by left.
  - rewrite IH. f_equal.
    destruct (decide (k ∈ map fst m)) as [H|H],
             (decide (k ∈ k' :: map fst m)) as [H'|H']; try done.
    + exfalso. apply H'. by right.
    + exfalso. apply elem_of_cons in H' as [?|?]; [congruence|done].
Qed.

Lemma signatureMap_push_elem k f m :
  NoDup (map fst m) ->
  forall k' fs',
    (k', fs') ∈ signatureMap_push k f m <->
    (k' <> k /\ (k', fs') ∈ m)
    \/ (k' = k
        /\ ((exists fs, (k, fs) ∈ m /\ fs' = fs ++ [f])
            \/ ((k ∉ map fst m) /\ fs' = [f]))).
Proof.
  induction m as [|[k0 fs0] m IH]; intros Hnd k' fs';
    cbn [signatureMap_push map fst].
  { rewrite list_elem_of_singleton. split.
    - intros [= -> ->]. right. split; [done|]. right. split; [|done].
      apply not_elem_of_nil.
    - intros [[_ H]|[-> [(fs & H & _)|[_ ->]]]]; try done;
        by apply elem_of_nil in H. }
  cbn [map fst] in Hnd. apply NoDup_cons in Hnd as [Hk0 Hnd].
  destruct (decide (k0 = k)) as [->|Hne].
  - split.
    + intros Hin. apply elem_of_cons in Hin as [Heq|Hin].
      * injection Heq as -> ->. right. split; [done|]. left. exists fs0.
        split; [by left|done].
      * left. split; [|by right]. intros ->. apply Hk0.
        apply list_elem_of_fmap. by exists (k, fs').
    + intros [[Hk Hin]|[-> [(fs & Hin & ->)|[Hin _]]]].
      * apply elem_of_cons in Hin as [Heq|Hin];
          [injection Heq as ? ?; congruence|by right].
      * apply elem_of_cons in Hin as [Heq|Hin];
          [injection Heq as ->; by left|].
        exfalso. apply Hk0. apply list_elem_of_fmap. by exists (k, fs).
      * exfalso. apply Hin. by left.
  - split.
    + intros Hin. apply elem_of_cons in Hin as [Heq|Hin].
      * injection Heq as -> ->. left. split; [done|by left].
      * apply (IH Hnd) in Hin
          as [[Hk Hin]|[-> [(fs & Hin & ->)|[Hin ->]]]].
        -- left. split; [done|by right].
        -- right. split; [done|]. left. exists fs. split; [by right|done].
        -- right. split; [done|]. right. split; [|done].
           intros H. apply elem_of_cons in H as [?|?]; [congruence|done].
    + intros H. apply elem_of_cons.
      destruct H as [[Hk Hin]|[-> [(fs & Hin & ->)|[Hin ->]]]].
      * apply elem_of_cons in Hin as [Heq|Hin]; [by left|].
        right. apply (IH Hnd). by left.
      * apply elem_of_cons in Hin as [Heq|Hin];
          [injection Heq as ? ?; congruence|].
        right. apply (IH Hnd). right. split; [done|]. left. by exists fs.
      * right. apply (IH Hnd). right. split; [done|]. right. split; [|done].
        intros H. apply Hin. by right.
Qed.

Lemma signatureMap_of_nil : signatureMap_of [] [].
Proof.
  split; [constructor|]. intros k fs. split.
  - intros H. by apply elem_of_nil in H.
  - intros [-> H]. done.
Qed.

Lemma signatureMap_of_push m es k f :
  signatureMap_of m es ->
  signatureMap_of (signatureMap_push k f m) (es ++ [(k, f)]).
Proof.
  intros [Hnd Hm].
  assert (k ∈ map fst m <-> functions_with k es <> []) as Hkey.
  { split.
    - intros H. apply list_elem_of_fmap in H as (kv & Hk & Hin).
      destruct kv as [k0 fs]. cbn [fst] in Hk. subst k0.
      apply Hm in Hin as [Heq Hne]. by rewrite <- Heq.
    - intros H. apply list_elem_of_fmap. exists (k, functions_with k es).
      split; [done|]. by apply Hm. }
  split.
  - rewrite signatureMap_push_keys. destruct (decide (k ∈ map fst m)) as [H|H];
      [by rewrite app_nil_r|].
    apply NoDup_app. split_and!; [done| |apply NoDup_singleton].
    intros x Hx Hx'. apply list_elem_of_singleton in Hx' as ->. done.
  - intros k' fs'. rewrite (signatureMap_push_elem k f m Hnd).
    rewrite functions_with_snoc. split.
    + intros [[Hk Hin]|[-> [(fs & Hin & ->)|[Hin ->]]]].
      * apply Hm in Hin as [-> Hne].
        destruct (decide (k = k')); [congruence|]. by rewrite app_nil_r.
      * apply Hm in Hin as [-> Hne].
        destruct (decide (k = k)); [|done]. split; [done|].
        by destruct (functions_with k es).
      * destruct (decide (k = k)); [|done].
        destruct (functions_with k es) as [|x l] eqn:E; [done|].
        exfalso. apply Hin, Hkey. done.
    + intros [-> Hne]. destruct (decide (k = k')) as [->|Hk].
      * right. split; [done|].
        destruct (decide (k' ∈ map fst m)) as [Hin|Hin].
        -- left. exists (functions_with k' es). split; [|done].
           apply Hm. split; [done|]. by apply Hkey.
        -- right. split; [done|].
           destruct (functions_with k' es) as [|x l] eqn:E; [done|].
           exfalso. apply Hin, Hkey. done.
      * left. split; [congruence|]. rewrite app_nil_r in Hne |- *.
        by apply Hm.
Qed.

Lemma signatureMap_of_fold es :
  forall m done,
    signatureMap_of m done ->
    signatureMap_of
      (fold_left (fun m e => signatureMap_push (fst e) (snd e) m) es m)
      (done ++ es).
Proof.
  induction es as [|[k f] es IH]; intros m done Hm; cbn [fold_left].
  - by rewrite app_nil_r.
  - replace (done ++ (k, f) :: es) with ((done ++ [(k, f)]) ++ es)
      by by rewrite <- app_assoc.
    apply IH. by apply signatureMap_of_push.
Qed.

Lemma signature_step_candidate hov calls m sym :
  signature_candidate sym ->
  signature_step hov (calls, m) sym
  = (S calls,
     if decide (signature_kept (signature_at hov calls sym, signature_function sym))
     then signatureMap_push (signature_at hov calls sym) (signature_function sym) m
     else m).
Proof.
  intros [Hk Hn]. unfold signature_step.
  assert (bool_decide (kindName sym = js "function")
          || bool_decide (kindName sym = js "method") = true) as ->.
  { destruct Hk as [Hk|Hk]; rewrite Hk; done. }
  rewrite Hn. cbn [negb]. fold (signature_at hov calls sym).
  fold (signature_function sym). unfold signature_kept. cbn [fst].
  destruct (bool_decide_reflect (signature_at hov calls sym = [])) as [H1|H1];
    destruct (bool_decide_reflect (signature_at hov calls sym = js "unknown"))
      as [H2|H2]; cbn [negb andb];
    destruct (decide _) as [[? ?]|Hd]; try done.
  exfalso. by apply Hd.
Qed.

Lemma signature_step_other hov st sym :
  ~ signature_candidate sym -> signature_step hov st sym = st.
Proof.
  intros Hn. destruct st as [calls m]. unfold signature_step.
  destruct (bool_decide_reflect (kindName sym = js "function")) as [H1|H1];
    [|destruct (bool_decide_reflect (kindName sym = js "method")) as [H2|H2];
      [|done]];
    cbn [orb negb];
    (destruct (startsWith (name sym) (js "_")) eqn:E; [done|]);
    exfalso; apply Hn; split; tauto.
Qed.

Lemma signatures_fold hov syms :
  forall calls m,
    snd (fold_left (signature_step hov) syms (calls, m))
    = fold_left (fun m e => signatureMap_push (fst e) (snd e) m)
        (filter signature_kept
           (signature_entries hov calls (filter signature_candidate syms)))
        m.
Proof.
  induction syms as [|sym syms IH]; intros calls m; [done|].
  cbn [fold_left]. destruct (decide (signature_candidate sym)) as [Hc|Hc].
  - rewrite (signature_step_candidate hov calls m sym Hc).
    rewrite filter_cons_True by done. cbn [signature_entries].
    rewrite IH, filter_cons. by destruct (decide _).
  - rewrite (signature_step_other hov (calls, m) sym Hc).
    rewrite filter_cons_False by done. apply IH.
Qed.

Lemma functions_with_kept sig es :
  sig <> [] -> sig <> js "unknown" ->
  functions_with sig (filter signature_kept es) = functions_with sig es.
Proof.
  intros H1 H2. unfold functions_with. f_equal.
  induction es as [|e es IH]; [done|].
  rewrite (filter_cons signature_kept).
  destruct (decide (signature_kept e)) as [Hk|Hk].
  - rewrite !filter_cons, IH. done.
  - rewrite IH, (filter_cons _ e). destruct (decide (fst e = sig)) as [<-|]; [|done].
    exfalso. by apply Hk.
Qed.

Lemma functions_with_dropped sig es :
  sig = [] \/ sig = js "unknown" ->
  functions_with sig (filter signature_kept es) = [].
Proof.
  intros Hs. unfold functions_with.
  rewrite filter_none; [done|]. apply Forall_forall. intros e He.
  apply list_elem_of_filter in He as [[H1 H2] _]. intros <-. tauto.
Qed.

(** X26: the signature detector.  The groups reported are exactly the
    signatures, other than the empty one and [unknown], that the hover
    answers give to two or more candidates (functions and methods whose
    name does not start with an underscore); a group lists all the
    candidates with its signature, in the order of the symbol list.  No
    two groups have the same signature, and the groups are ordered by
    decreasing size. *)
Theorem signatures_detector
    (client_hover : nat -> jsstring * Position -> option json)
    (allSymbols : list SymbolInfo) :
  let groups := analyze_signatures client_hover allSymbols in
  let entries :=
    signature_entries client_hover 0
      (filter signature_candidate allSymbols) in
  NoDup (map signature groups)
  /\ StronglySorted
       (fun a b => (length (functions b) <= length (functions a))%nat) groups
  /\ forall g,
       g ∈ groups <->
       signature g <> [] /\ signature g <> js "unknown"
       /\ functions g = functions_with (signature g) entries
       /\ (2 <= length (functions g))%nat.
Proof.
  intros groups entries. unfold groups, analyze_signatures.
  rewrite signatures_fold. fold entries.
  pose proof (signatureMap_of_fold (filter signature_kept entries) [] []
                signatureMap_of_nil) as [Hnd Hm].
  cbn [app] in Hm, Hnd.
  set (m := fold_left _ (filter signature_kept entries) []) in *.
  destruct (sort_descending_spec (fun g => Z.of_nat (length (functions g)))
              (map (fun kv => {| signature := fst kv; functions := snd kv |})
                   (filter (fun kv => (2 <= length (snd kv))%nat) m)))
    as (Hperm & Hsorted & _).
  split_and!.
  - rewrite Hperm, map_map. cbn [signature].
    induction m as [|[k fs] m IH]; [constructor|].
    cbn [map fst] in Hnd. apply NoDup_cons in Hnd as [Hk Hnd].
    rewrite filter_cons. cbn [snd].
    assert (NoDup (map (fun kv : jsstring * list SignatureFunction => fst kv)
                     (filter (fun kv => (2 <= length (snd kv))%nat) m))) as Hrest.
    { clear -Hnd. induction m as [|[k fs] m IH]; [constructor|].
      cbn [map fst] in Hnd. apply NoDup_cons in Hnd as [Hk Hnd].
      rewrite filter_cons. destruct (decide _); [|by apply IH].
      cbn [map fst]. apply NoDup_cons. split; [|by apply IH].
      intros H. apply Hk. apply list_elem_of_fmap in H as (kv & -> & Hin).
      apply list_elem_of_filter in Hin as [_ Hin].
      apply list_elem_of_fmap. by exists kv. }
    destruct (decide _); [|done]. cbn [map fst]. apply NoDup_cons.
    split; [|done]. intros H. apply Hk.
    apply list_elem_of_fmap in H as (kv & -> & Hin).
    apply list_elem_of_filter in Hin as [_ Hin].
    apply list_elem_of_fmap. by exists kv.
  - eapply StronglySorted_weaken; [|exact Hsorted]. cbn. intros; lia.
  - intros g. rewrite Hperm, list_elem_of_fmap. split.
    + intros ([k fs] & -> & Hin). cbn [signature functions fst snd].
      apply list_elem_of_filter in Hin as [Hlen Hin]. cbn [snd] in Hlen.
      apply Hm in Hin as [-> Hne].
      destruct (decide (k = [])) as [->|H1].
      { rewrite functions_with_dropped in Hne by by left. done. }
      destruct (decide (k = js "unknown")) as [->|H2].
      { rewrite functions_with_dropped in Hne by by right. done. }
      rewrite (functions_with_kept k entries H1 H2) in Hlen |- *. done.
    + intros (H1 & H2 & Hf & Hlen). exists (signature g, functions g).
      split; [by destruct g|]. apply list_elem_of_filter. split; [done|].
      apply Hm. rewrite (functions_with_kept _ entries H1 H2).
      split; [done|]. destruct (functions g); [cbn in Hlen; lia|done].
Qed.

(** Three functions, two of which differ in the names of their parameters
    only. *)
Lemma signatures_detector_witness :
  let syms := [sample_symbol "area" 12 "shapes.ts" 0 2;
               sample_symbol "label" 12 "shapes.ts" 4 6;
               sample_symbol "volume" 12 "solids.ts" 0 2] in
  let hov := fun (k : nat) (_ : jsstring * Position) =>
               match k with
               | 0%nat => sample_hover "(w: number, h: number) => number"
               | 1%nat => sample_hover "(text: string) => string"
               | _ => sample_hover "(a: number,  b: number) => number"
               end in
  {| signature := js "(number, number) => number";
     functions := [{| sf_name := js "area"; sf_file := js "shapes.ts";
                      sf_line := 1 |};
                   {| sf_name := js "volume"; sf_file := js "solids.ts";
                      sf_line := 1 |}] |}
  ∈ analyze_signatures hov syms.
Proof.
  intros syms hov.
  destruct (signatures_detector hov syms) as (_ & _ & H).
  apply H. cbn [signature functions]. split_and!.
  - vm_compute. discriminate.
  - vm_compute. discriminate.
  - vm_compute. reflexivity.
  - cbn [length]. lia.
Defined.

(** ** Maps in insertion order *)

Lemma Set_values_snoc xs x : Set_values (xs ++ [x]) = Set_add x (Set_values xs).
Proof. unfold Set_values. by rewrite fold_left_app. Qed.

Lemma events_for_snoc {E} k (es : list (jsstring * E)) k' e :
  events_for k (es ++ [(k', e)])
  = events_for k es ++ (if decide (k' = k) then [e] else []).
Proof.
  unfold events_for. rewrite filter_app, map_app. f_equal.
  rewrite filter_cons, filter_nil. cbn [fst]. by destruct (decide (k' = k)).
Qed.

Lemma events_for_app {E} k (es1 es2 : list (jsstring * E)) :
  events_for k (es1 ++ es2) = events_for k es1 ++ events_for k es2.
Proof. unfold events_for. by rewrite filter_app, map_app. Qed.

Lemma events_for_keys {E} k (es : list (jsstring * E)) :
  events_for k es <> [] <-> k ∈ map fst es.
Proof.
  unfold events_for. induction es as [|[k' e] es IH]; cbn [map fst].
  { rewrite filter_nil. split; [done|]. intros H. by apply elem_of_nil in H. }
  rewrite filter_cons, elem_of_cons. cbn [fst].
  destruct (decide (k' = k)) as [->|Hne]; cbn [map]; [by split; [left|]|].
  rewrite IH. split; [by right|]. intros [?|?]; [congruence|done].
Qed.

Section MapUpdate.
Context {V : Type}.

Lemma Map_update_keys (upd : V -> V) empty k m :
map fst (Map_update upd empty k m) = Set_add k (map fst m).
Proof.
unfold Set_add. induction m as [|[k' v] m IH]; cbn [Map_update map fst].
{ destruct (bool_decide_reflect (k ∈ [])) as [H|_];
[by apply elem_of_nil in H|done]. }
destruct (decide (k' = k)) as [->|Hne]; cbn [map fst].
- destruct (bool_decide_reflect (k ∈ k :: map fst m)) as [_|H]; [done|].
exfalso. apply H. by left.
- rewrite IH.
destruct (bool_decide_reflect (k ∈ map fst m)) as [H|H],
   (bool_decide_reflect (k ∈ k' :: map fst m)) as [H'|H']; try done.
+ exfalso. apply H'. by right.
+ exfalso. apply elem_of_cons in H' as [?|?]; [congruence|done].
Qed.

Lemma Map_update_elem (upd : V -> V) empty k m :
NoDup (map fst m) ->
forall k' v',
(k', v') ∈ Map_update upd empty k m <->
(k' <> k /\ (k', v') ∈ m)
\/ (k' = k
/\ ((exists v, (k, v) ∈ m /\ v' = upd v)
  \/ ((k ∉ map fst m) /\ v' = upd empty))).
Proof.
induction m as [|[k0 v0] m IH]; intros Hnd k' v'; cbn [Map_update map fst].
{ rewrite list_elem_of_singleton. split.
- intros [= -> ->]. right. split; [done|]. right. split; [|done].
apply not_elem_of_nil.
- intros [[_ H]|[-> [(v & H & _)|[_ ->]]]]; try done;
by apply elem_of_nil in H. }
cbn [map fst] in Hnd. apply NoDup_cons in Hnd as [Hk0 Hnd].
destruct (decide (k0 = k)) as [->|Hne].
- split.
+ intros Hin. apply elem_of_cons in Hin as [Heq|Hin].
* injection Heq as -> ->. right. split; [done|]. left. exists v0.
split; [by left|done].
* left. split; [|by right]. intros ->. apply Hk0.
apply list_elem_of_fmap. by exists (k, v').
+ intros [[Hk Hin]|[-> [(v & Hin & ->)|[Hin _]]]].
* apply elem_of_cons in Hin as [Heq|Hin];
[injection Heq as ? ?; congruence|by right].
* apply elem_of_cons in Hin as [Heq|Hin];
[injection Heq as ->; by left|].
exfalso. apply Hk0. apply list_elem_of_fmap. by exists (k, v).
* exfalso. apply Hin. by left.
- split.
+ intros Hin. apply elem_of_cons in Hin as [Heq|Hin].
* injection Heq as -> ->. left. split; [done|by left].
* apply (IH Hnd) in Hin
as [[Hk Hin]|[-> [(v & Hin & ->)|[Hin ->]]]].
-- left. split; [done|by right].
-- right. split; [done|]. left. exists v. split; [by right|done].
-- right. split; [done|]. right. split; [|done].
 intros H. apply elem_of_cons in H as [?|?]; [congruence|done].
+ intros H. apply elem_of_cons.
destruct H as [[Hk Hin]|[-> [(v & Hin & ->)|[Hin ->]]]].
* apply elem_of_cons in Hin as [Heq|Hin]; [by left|].
right. apply (IH Hnd). by left.
* apply elem_of_cons in Hin as [Heq|Hin];
[injection Heq as ? ?; congruence|].
right. apply (IH Hnd). right. split; [done|]. left. by exists v.
* right. apply (IH Hnd). right. split; [done|]. right. split; [|done].
intros H. apply Hin. by right.
Qed.

Context {E : Type} (acc : V -> E -> V) (empty : V).

Lemma Map_of_nil : Map_of acc empty [] [].
Proof.
split; [done|]. intros k v. split.
- intros H. by apply elem_of_nil in H.
- intros [_ H]. done.
Qed.

Lemma Map_of_update m es k e :
Map_of acc empty m es ->
Map_of acc empty (Map_update (fun v => acc v e) empty k m) (es ++ [(k, e)]).
Proof.
intros [Hkeys Hm].
assert (NoDup (map fst m)) as Hnd.
{ rewrite Hkeys. apply Set_values_spec. }
assert (k ∈ map fst m <-> events_for k es <> []) as Hkey.
{ rewrite Hkeys, events_for_keys. apply Set_values_spec. }
split.
- rewrite Map_update_keys, map_app. cbn [map fst].
by rewrite Set_values_snoc, Hkeys.
- intros k' v'. rewrite (Map_update_elem _ empty k m Hnd).
rewrite events_for_snoc. split.
+ intros [[Hk Hin]|[-> [(v & Hin & ->)|[Hin ->]]]].
* apply Hm in Hin as [-> Hne].
destruct (decide (k = k')); [congruence|]. by rewrite app_nil_r.
* apply Hm in Hin as [-> Hne].
destruct (decide (k = k)); [|done]. rewrite fold_left_app.
split; [done|]. by destruct (events_for k es).
* destruct (decide (k = k)); [|done].
destruct (events_for k es) as [|x l] eqn:Hev; [done|].
exfalso. apply Hin, Hkey. done.
+ intros [-> Hne]. destruct (decide (k = k')) as [->|Hk].
* right. split; [done|]. rewrite fold_left_app. cbn [fold_left].
destruct (decide (k' ∈ map fst m)) as [Hin|Hin].
-- left. exists (fold_left acc (events_for k' es) empty). split; [|done].
 apply Hm. split; [done|]. by apply Hkey.
-- right. split; [done|].
 destruct (events_for k' es) as [|x l] eqn:Hev; [done|].
 exfalso. apply Hin, Hkey. done.
* left. split; [congruence|]. rewrite app_nil_r in Hne |- *.
by apply Hm.
Qed.

Lemma Map_of_fold es :
forall m done,
Map_of acc empty m done ->
Map_of acc empty
(fold_left (fun m ev => Map_update (fun v => acc v (snd ev)) empty (fst ev) m)
       es m)
(done ++ es).
Proof.
induction es as [|[k e] es IH]; intros m done Hm; cbn [fold_left].
- by rewrite app_nil_r.
- replace (done ++ (k, e) :: es) with ((done ++ [(k, e)]) ++ es)
by by rewrite <- app_assoc.
apply IH. by apply Map_of_update.
Qed.
End MapUpdate.

(** ** The co-occurrence detector *)

Lemma cooccurrence_fold syms :
  forall m,
    fold_left cooccurrence_step syms m
    = fold_left
        (fun m ev => Map_update (fun v => Set_add (snd ev) v) [] (fst ev) m)
        (declarations syms) m.
Proof.
  unfold declarations.
  induction syms as [|sym syms IH]; intros m; [done|].
  cbn [fold_left]. rewrite IH. unfold cooccurrence_step at 1.
  destruct (decide (cooccurrence_candidate sym)) as [Hc|Hc].
  - rewrite filter_cons_True by done. cbn [map fold_left fst snd].
    assert (bool_decide (kindName sym = js "function")
            || bool_decide (kindName sym = js "class")
            || bool_decide (kindName sym = js "interface") = true) as ->.
    { destruct Hc as [Hk|[Hk|Hk]]; rewrite Hk; done. }
    done.
  - rewrite filter_cons_False by done.
    assert (bool_decide (kindName sym = js "function")
            || bool_decide (kindName sym = js "class")
            || bool_decide (kindName sym = js "interface") = false) as ->; [|done].
    destruct (bool_decide_reflect (kindName sym = js "function")) as [H1|H1];
      [exfalso; apply Hc; by left|].
    destruct (bool_decide_reflect (kindName sym = js "class")) as [H2|H2];
      [exfalso; apply Hc; right; by left|].
    destruct (bool_decide_reflect (kindName sym = js "interface")) as [H3|H3];
      [exfalso; apply Hc; right; by right|done].
Qed.

Lemma pairCounts_fold m1 :
  forall pc,
    fold_left pairCounts_file m1 pc
    = fold_left
        (fun pc ev => Map_update (fun d => count_pair (snd ev) d) ([], 0%nat)
                                 (fst ev) pc)
        (pair_events m1) pc.
Proof.
  unfold pair_events.
  induction m1 as [|[f names] m1 IH]; intros pc; [done|].
  cbn [fold_left flat_map]. rewrite fold_left_app, IH. f_equal.
  unfold pairCounts_file. cbn [fst snd].
  generalize (pairs_of names). intros ps. revert pc.
  induction ps as [|ab ps IHps]; intros pc; [done|].
  cbn [map fold_left fst snd]. by rewrite IHps.
Qed.

Lemma count_pair_fold files :
  forall seen n,
    fold_left (fun d f => count_pair f d) files (seen, n)
    = (fold_left (fun seen x => Set_add x seen) files seen,
       (n + length files)%nat).
Proof.
  induction files as [|f files IH]; intros seen n; cbn [fold_left length].
  - by rewrite Nat.add_0_r.
  - unfold count_pair at 2. cbn [fst snd]. rewrite IH. f_equal. lia.
Qed.

Lemma symbolsByFile_of syms :
  Map_of (fun names n => Set_add n names) []
         (fold_left cooccurrence_step syms []) (declarations syms).
Proof.
  rewrite cooccurrence_fold.
  exact (Map_of_fold (fun names n => Set_add n names) [] (declarations syms)
           [] [] (Map_of_nil _ _)).
Qed.

Lemma pairCounts_of m1 :
  Map_of (fun d f => count_pair f d) ([], 0%nat)
         (fold_left pairCounts_file m1 []) (pair_events m1).
Proof.
  rewrite pairCounts_fold.
  exact (Map_of_fold (fun d f => count_pair f d) ([], 0%nat) (pair_events m1)
           [] [] (Map_of_nil _ _)).
Qed.

(** The groups of the detector, read off the updates of [pairCounts]. *)
Lemma cooccurrence_groups syms g :
  g ∈ analyze_cooccurrence syms <->
  exists k,
    let files := events_for k (pair_events (fold_left cooccurrence_step syms [])) in
    files <> [] /\ (3 <= length (Set_values files))%nat
    /\ g = cooccurrence_group (k, (Set_values files, length files)).
Proof.
  unfold analyze_cooccurrence.
  destruct (pairCounts_of (fold_left cooccurrence_step syms [])) as [_ Hm].
  set (evs := pair_events _) in *. set (pc := fold_left pairCounts_file _ _) in *.
  destruct (sort_descending_spec (fun g => Z.of_nat (occurrenceCount g))
              (map cooccurrence_group
                   (filter (fun kv => (3 <= length (fst (snd kv)))%nat) pc)))
    as (Hperm & _). rewrite Hperm, list_elem_of_fmap. split.
  - intros ([k [files n]] & -> & Hin).
    apply list_elem_of_filter in Hin as [Hlen Hin]. cbn [fst snd] in Hlen.
    apply Hm in Hin as [Heq Hne]. rewrite count_pair_fold in Heq.
    injection Heq as -> ->. exists k. cbn zeta. split; [done|]. split; [done|].
    done.
  - intros (k & Hne & Hlen & ->).
    exists (k, (Set_values (events_for k evs), length (events_for k evs))).
    split; [done|]. apply list_elem_of_filter. split; [done|].
    apply Hm. split; [|done]. by rewrite count_pair_fold.
Qed.

Lemma Set_values_length xs : (length (Set_values xs) <= length xs)%nat.
Proof.
  destruct (Set_values_spec xs) as [Hnd Hmem].
  apply submseteq_length, NoDup_submseteq; [done|]. intros x. apply Hmem.
Qed.

Lemma pair_events_files m1 k f :
  f ∈ events_for k (pair_events m1) -> f ∈ map fst m1.
Proof.
  unfold events_for, pair_events. intros H.
  apply list_elem_of_fmap in H as ([k' f'] & -> & H).
  apply list_elem_of_filter in H as [_ H]. cbn [snd].
  apply list_elem_of_In, in_flat_map in H as (entry & He & H).
  apply in_map_iff in H as (ab & [= _ <-] & _).
  apply list_elem_of_fmap. exists entry. split; [done|].
  by apply list_elem_of_In.
Qed.

(** X27: what a reported co-occurrence looks like.  The groups are in
    descending order of the occurrence count.  The files of a group are
    pairwise distinct, at least three, and never more than the
    occurrence count; each of them holds a function, a class or an
    interface. *)
Theorem cooccurrence_groups_are_ranked (allSymbols : list SymbolInfo) :
  let groups := analyze_cooccurrence allSymbols in
  StronglySorted (fun a b => (occurrenceCount b <= occurrenceCount a)%nat) groups
  /\ Forall (fun g =>
               NoDup (co_files g)
               /\ (3 <= length (co_files g) <= occurrenceCount g)%nat
               /\ forall f, f ∈ co_files g -> f ∈ candidate_files allSymbols)
            groups.
Proof.
  intros groups. split.
  - unfold groups, analyze_cooccurrence.
    match goal with |- context [sort_descending ?key ?xs] =>
      destruct (sort_descending_spec key xs) as (_ & Hsorted & _) end.
    eapply StronglySorted_weaken; [|exact Hsorted]. cbn. intros; lia.
  - apply Forall_forall. intros g Hg.
    apply cooccurrence_groups in Hg as (k & Hne & Hlen & ->).
    cbn [cooccurrence_group co_files occurrenceCount fst snd].
    set (files := events_for k _) in *.
    destruct (Set_values_spec files) as [Hnd Hmem].
    split; [done|]. split; [split; [done|apply Set_values_length]|].
    intros f Hf. apply Hmem in Hf. apply pair_events_files in Hf.
    destruct (symbolsByFile_of allSymbols) as [Hkeys _].
    rewrite Hkeys in Hf. unfold candidate_files.
    unfold declarations in Hf. by rewrite map_map in Hf.
Qed.

Lemma filter_ext_in {A} (P Q : A -> Prop) `{forall x, Decision (P x)}
    `{forall x, Decision (Q x)} (l : list A) :
  (forall x, x ∈ l -> P x <-> Q x) -> filter P l = filter Q l.
Proof.
  induction l as [|x l IH]; intros Hl; [done|].
  rewrite !filter_cons, IH by (intros y Hy; apply Hl; by right).
  assert (P x <-> Q x) as Hx by (apply Hl; by left).
  destruct (decide (P x)) as [Hp|Hp], (decide (Q x)) as [Hq|Hq]; try done;
    exfalso; tauto.
Qed.

Lemma js_lt_irrefl a : js_lt a a = false.
Proof.
  induction a as [|x a IH]; [done|]. cbn [js_lt].
  by rewrite Z.ltb_irrefl, Z.eqb_refl, IH.
Qed.

Lemma split_on_bar a b :
  124 ∉ a -> 124 ∉ b -> split_on 124 (a ++ [124] ++ b) = [a; b].
Proof.
  intros Ha Hb.
  assert (split_on 124 b = [b]) as Hsb.
  { clear Ha. induction b as [|x b IH]; [done|]. cbn [split_on].
    apply not_elem_of_cons in Hb as [Hx Hb].
    destruct (x =? 124) eqn:E; [apply Z.eqb_eq in E; congruence|].
    by rewrite (IH Hb). }
  induction a as [|x a IH]; cbn [app split_on].
  - by rewrite Hsb.
  - apply not_elem_of_cons in Ha as [Hx Ha].
    destruct (x =? 124) eqn:E; [apply Z.eqb_eq in E; congruence|].
    cbn [app] in IH. by rewrite (IH Ha).
Qed.

(** The pairs of a list without repetition. *)
Lemma pairs_of_elem names x y :
  NoDup names ->
  (x, y) ∈ pairs_of names -> x ∈ names /\ y ∈ names /\ x <> y.
Proof.
  induction names as [|n names IH]; intros Hnd Hin; cbn [pairs_of] in Hin.
  { by apply elem_of_nil in Hin. }
  apply NoDup_cons in Hnd as [Hn Hnd].
  apply elem_of_app in Hin as [Hin|Hin].
  - apply list_elem_of_fmap in Hin as (z & [= -> ->] & Hz).
    split_and!; [by left|by right|]. intros ->. done.
  - destruct (IH Hnd Hin) as (Hx & Hy & Hne).
    split_and!; [by right|by right|done].
Qed.

Lemma pairs_of_once names a b :
  NoDup names -> a <> b ->
  length (filter (fun xy => xy = (a, b) \/ xy = (b, a)) (pairs_of names))
  = if decide (a ∈ names /\ b ∈ names) then 1%nat else 0%nat.
Proof.
  intros Hnd Hab. induction names as [|n names IH]; cbn [pairs_of].
  { rewrite filter_nil. destruct (decide _) as [[H _]|_]; [|done].
    by apply elem_of_nil in H. }
  apply NoDup_cons in Hnd as [Hn Hnd]. specialize (IH Hnd).
  rewrite filter_app, length_app, IH.
  assert (forall c d, c <> d -> c ∉ names ->
            length (filter (fun xy => xy = (c, d) \/ xy = (d, c))
                           (map (pair c) names))
            = if decide (d ∈ names) then 1%nat else 0%nat) as Hhere.
  { intros c d Hcd Hc. clear -Hnd Hcd Hc.
    induction names as [|m names IH]; cbn [map].
    { rewrite filter_nil. destruct (decide _) as [H|_]; [|done].
      by apply elem_of_nil in H. }
    apply NoDup_cons in Hnd as [Hm Hnd].
    apply not_elem_of_cons in Hc as [Hcm Hc].
    specialize (IH Hnd Hc). rewrite filter_cons.
    destruct (decide (m = d)) as [->|Hmd].
    - destruct (decide ((c, d) = (c, d) \/ (c, d) = (d, c))) as [_|H];
        [|exfalso; apply H; by left].
      cbn [length]. rewrite IH.
      destruct (decide (d ∈ names)) as [?|_]; [done|].
      destruct (decide (d ∈ d :: names)) as [_|H]; [done|].
      exfalso. apply H. by left.
    - destruct (decide ((c, m) = (c, d) \/ (c, m) = (d, c))) as [[H|H]|_];
        [congruence|congruence|].
      rewrite IH.
      destruct (decide (d ∈ names)) as [H|H],
               (decide (d ∈ m :: names)) as [H'|H']; try done.
      + exfalso. apply H'. by right.
      + apply elem_of_cons in H' as [?|?]; [congruence|done]. }
  assert (forall c,
            c <> a -> c <> b ->
            filter (fun xy => xy = (a, b) \/ xy = (b, a)) (map (pair c) names)
            = []) as Hnone.
  { intros c Hca Hcb. apply filter_none, Forall_forall. intros xy Hxy.
    apply list_elem_of_fmap in Hxy as (z & -> & _).
    intros [H|H]; congruence. }
  destruct (decide (n = a)) as [->|Hna]; [|destruct (decide (n = b)) as [->|Hnb]].
  - rewrite (Hhere a b Hab Hn).
    destruct (decide (a ∈ names /\ b ∈ names)) as [[? _]|_]; [done|].
    destruct (decide (b ∈ names)) as [Hb|Hb],
             (decide (a ∈ a :: names /\ b ∈ a :: names)) as [H'|H']; try done.
    + exfalso. apply H'. split; [by left|by right].
    + destruct H' as [_ H']. apply elem_of_cons in H' as [?|?]; [congruence|done].
  - rewrite (list_filter_iff _ (fun xy => xy = (b, a) \/ xy = (a, b)))
      by (intros; tauto).
    rewrite (Hhere b a (not_eq_sym Hab) Hn).
    destruct (decide (a ∈ names /\ b ∈ names)) as [[_ ?]|_]; [done|].
    destruct (decide (a ∈ names)) as [Ha|Ha],
             (decide (a ∈ b :: names /\ b ∈ b :: names)) as [H'|H']; try done.
    + exfalso. apply H'. split; [by right|by left].
    + destruct H' as [H' _]. apply elem_of_cons in H' as [?|?]; [congruence|done].
  - rewrite (Hnone n Hna Hnb). cbn [length Nat.add].
    destruct (decide (a ∈ names /\ b ∈ names)) as [[H1 H2]|H],
             (decide (a ∈ n :: names /\ b ∈ n :: names)) as [[H1' H2']|H'];
      try done.
    + exfalso. apply H'. split; by right.
    + exfalso. apply H. apply elem_of_cons in H1' as [?|?]; [congruence|].
      apply elem_of_cons in H2' as [?|?]; [congruence|done].
Qed.

(** The updates of [pairCounts] for the key of one pair, when no name
    holds a bar: one for each file that declares both names. *)
Lemma pair_events_shared (N : jsstring -> list jsstring) files a b :
  (forall f x, f ∈ files -> x ∈ N f -> 124 ∉ x) ->
  (forall f, f ∈ files -> NoDup (N f)) ->
  124 ∉ a -> 124 ∉ b -> a <> b ->
  events_for (pairKey a b) (pair_events (map (fun f => (f, N f)) files))
  = filter (fun f => a ∈ N f /\ b ∈ N f) files.
Proof.
  intros Hbar Hnd Ha Hb Hab. unfold pair_events.
  induction files as [|f files IH]; [done|].
  cbn [map flat_map fst snd]. rewrite events_for_app, IH; cycle 1.
  { intros f' x Hf'. apply Hbar. by right. }
  { intros f' Hf'. apply Hnd. by right. }
  rewrite filter_cons.
  assert (events_for (pairKey a b)
            (map (fun ab => (pairKey (fst ab) (snd ab), f)) (pairs_of (N f)))
          = if decide (a ∈ N f /\ b ∈ N f) then [f] else []) as ->;
    [|by destruct (decide _)].
  pose proof (pairs_of_once (N f) a b (Hnd f (list_elem_of_here _ _)) Hab) as Hlen.
  rewrite (filter_ext_in _ (fun xy => pairKey (fst xy) (snd xy) = pairKey a b))
    in Hlen; cycle 1.
  { intros [x y] Hxy. cbn [fst snd].
    destruct (pairs_of_elem (N f) x y (Hnd f (list_elem_of_here _ _)) Hxy)
      as (Hx & Hy & _).
    pose proof (Hbar f x (list_elem_of_here _ _) Hx) as Hx'.
    pose proof (Hbar f y (list_elem_of_here _ _) Hy) as Hy'.
    split.
    - intros [[= -> ->]|[= -> ->]]; [done|].
      unfold pairKey. destruct (js_lt_cases a b) as [[-> ->]|[[-> ->]| ->]]; done.
    - intros H. apply pairKey_inj in H as [[-> ->]|[-> ->]]; tauto. }
  unfold events_for.
  generalize dependent (pairs_of (N f)). intros ps Hlen.
  assert (forall ps',
            map snd (filter (fun e : jsstring * jsstring => fst e = pairKey a b)
                       (map (fun ab => (pairKey (fst ab) (snd ab), f)) ps'))
            = replicate
                (length (filter (fun xy => pairKey (fst xy) (snd xy) = pairKey a b)
                                ps')) f) as Hrep.
  { induction ps' as [|xy ps' IH']; [done|]. cbn [map].
    rewrite !filter_cons. cbn [fst].
    destruct (decide (pairKey (fst xy) (snd xy) = pairKey a b));
      cbn [map snd length replicate]; by rewrite IH'. }
  rewrite Hrep, Hlen. by destruct (decide _).
Qed.

Lemma Map_of_values {V} (F : jsstring -> V) (m : list (jsstring * V)) :
  (forall k v, (k, v) ∈ m -> v = F k) ->
  m = map (fun k => (k, F k)) (map fst m).
Proof.
  induction m as [|[k v] m IH]; intros H; [done|]. cbn [map fst].
  rewrite (H k v) by by left. f_equal. apply IH. intros k' v' Hin.
  apply H. by right.
Qed.

Lemma declarations_in syms f :
  events_for f (declarations syms) = declared_in syms f.
Proof.
  unfold events_for, declarations, declared_in.
  induction syms as [|sym syms IH]; [done|].
  rewrite !filter_cons.
  destruct (decide (cooccurrence_candidate sym)) as [Hc|Hc].
  - cbn [map]. rewrite filter_cons. cbn [fst].
    destruct (decide (file sym = f)) as [Hf|Hf].
    + rewrite decide_True by done. cbn [map snd]. by rewrite IH.
    + rewrite decide_False by tauto. done.
  - rewrite decide_False by tauto. done.
Qed.

(** The names recorded for a file, and the table as a whole. *)
Lemma symbolsByFile_entries syms :
  fold_left cooccurrence_step syms []
  = map (fun f => (f, Set_values (declared_in syms f))) (candidate_files syms).
Proof.
  destruct (symbolsByFile_of syms) as [Hkeys Hm].
  assert (map fst (fold_left cooccurrence_step syms []) = candidate_files syms)
    as Hk.
  { rewrite Hkeys. unfold candidate_files, declarations. by rewrite map_map. }
  rewrite <- Hk. apply Map_of_values. intros k v Hin.
  apply Hm in Hin as [-> _]. by rewrite declarations_in.
Qed.

Lemma Set_values_NoDup xs : NoDup xs -> Set_values xs = xs.
Proof.
  unfold Set_values.
  assert (forall seen,
            NoDup (seen ++ xs) ->
            fold_left (fun seen x => if bool_decide (x ∈ seen)
                                     then seen else seen ++ [x]) xs seen
            = seen ++ xs) as H.
  { induction xs as [|x xs IH]; intros seen Hnd; cbn [fold_left].
    - by rewrite app_nil_r.
    - apply NoDup_app in Hnd as Hnd'. destruct Hnd' as (_ & Hdis & _).
      destruct (bool_decide_reflect (x ∈ seen)) as [Hin|Hin].
      + exfalso. apply (Hdis x Hin). by left.
      + rewrite IH; rewrite <- app_assoc; done. }
  intros Hnd. by apply (H []).
Qed.

Lemma pairKey_comm a b : pairKey a b = pairKey b a.
Proof.
  unfold pairKey. destruct (js_lt_cases a b) as [[-> ->]|[[-> ->]| ->]]; done.
Qed.

Lemma declared_in_elem syms f x :
  x ∈ declared_in syms f <->
  exists sym, sym ∈ syms /\ cooccurrence_candidate sym
              /\ file sym = f /\ name sym = x.
Proof.
  unfold declared_in. rewrite list_elem_of_fmap. split.
  - intros (sym & -> & Hin). apply list_elem_of_filter in Hin as [[Hc Hf] Hin].
    by exists sym.
  - intros (sym & Hin & Hc & Hf & <-). exists sym. split; [done|].
    by apply list_elem_of_filter.
Qed.

(** X28: the co-occurrence detector.  When no function, class or
    interface has a bar in its name, a group is reported exactly for the
    pairs of different names that are declared together (as a function,
    a class or an interface) in three files or more.  The two names are
    given in the order of the default sort, the files are the files that
    declare both, in the order in which the files first appear in the
    symbol list, and the occurrence count is the number of these files. *)
Theorem cooccurrence_detector (allSymbols : list SymbolInfo) :
  (forall sym, sym ∈ allSymbols -> cooccurrence_candidate sym ->
               124 ∉ name sym) ->
  forall g,
    g ∈ analyze_cooccurrence allSymbols <->
    exists a b,
      js_lt a b = true
      /\ co_symbols g = (Some a, Some b)
      /\ co_files g = shared_files allSymbols a b
      /\ occurrenceCount g = length (co_files g)
      /\ (3 <= length (co_files g))%nat.
Proof.
  intros Hbar g. rewrite cooccurrence_groups, symbolsByFile_entries.
  set (N := fun f => Set_values (declared_in allSymbols f)).
  set (files := candidate_files allSymbols).
  assert (forall f x, x ∈ N f <-> x ∈ declared_in allSymbols f) as HN.
  { intros f x. apply Set_values_spec. }
  assert (forall f, NoDup (N f)) as Hnd.
  { intros f. apply Set_values_spec. }
  assert (forall f x, x ∈ N f -> 124 ∉ x) as HbarN.
  { intros f x Hx. apply HN, declared_in_elem in Hx as (sym & Hin & Hc & _ & <-).
    by apply Hbar. }
  assert (NoDup files) as Hfiles by apply Set_values_spec.
  assert (forall a b,
            124 ∉ a -> 124 ∉ b -> a <> b ->
            events_for (pairKey a b)
              (pair_events (map (fun f => (f, N f)) files))
            = shared_files allSymbols a b) as Hshared.
  { intros a b Ha Hb Hab.
    rewrite (pair_events_shared N files a b); try done.
    - unfold shared_files. fold files. apply filter_ext_in.
      intros f _. by rewrite !HN.
    - intros f x _. apply HbarN. }
  assert (forall a b, NoDup (shared_files allSymbols a b)) as Hsnd.
  { intros a b. unfold shared_files. by apply NoDup_filter. }
  assert (forall a b,
            124 ∉ a -> 124 ∉ b -> js_lt a b = true ->
            cooccurrence_group
              (pairKey a b, (shared_files allSymbols a b,
                             length (shared_files allSymbols a b)))
            = {| co_symbols := (Some a, Some b);
                 co_files := shared_files allSymbols a b;
                 occurrenceCount := length (shared_files allSymbols a b) |})
    as Hgroup.
  { intros a b Ha Hb Hlt. unfold cooccurrence_group. cbn [fst snd].
    assert (pairKey a b = a ++ [124] ++ b) as ->.
    { unfold pairKey. destruct (js_lt_cases a b) as [[_ ->]|[[H _]|H]]; [done|..].
      - congruence.
      - subst b. by rewrite js_lt_irrefl in Hlt. }
    by rewrite (split_on_bar a b Ha Hb). }
  subst N files. cbn beta in *. split.
  - intros (k & Hne & Hlen & ->).
    apply events_for_keys in Hne. apply list_elem_of_fmap in Hne as ([k' f] & -> & Hin).
    unfold pair_events in Hin.
    apply list_elem_of_In, in_flat_map in Hin as ([f' names] & Hentry & Hin).
    apply in_map_iff in Hin as ([x y] & [= <- <-] & Hxy). cbn [fst snd] in *.
    apply in_map_iff in Hentry as (f0 & [= <- <-] & _).
    apply list_elem_of_In in Hxy.
    destruct (pairs_of_elem _ x y (Hnd f0) Hxy) as (Hx & Hy & Hne).
    apply HbarN in Hx, Hy.
    assert (exists a b, (124 ∉ a) /\ (124 ∉ b) /\ js_lt a b = true
                        /\ pairKey x y = pairKey a b) as (a & b & Ha & Hb & Hlt & Hk).
    { destruct (js_lt_cases x y) as [[H _]|[[_ H]|H]]; [..|done].
      - by exists x, y.
      - exists y, x. split_and!; try done. apply pairKey_comm. }
    assert (a <> b) as Hab.
    { intros ->. by rewrite js_lt_irrefl in Hlt. }
    cbn zeta in Hlen.
    rewrite Hk, (Hshared a b Ha Hb Hab), (Set_values_NoDup _ (Hsnd a b)) in Hlen.
    rewrite Hk, (Hshared a b Ha Hb Hab), (Set_values_NoDup _ (Hsnd a b)).
    rewrite (Hgroup a b Ha Hb Hlt). cbn [co_symbols co_files occurrenceCount].
    by exists a, b.
  - intros (a & b & Hlt & Hsym & Hf & Hcount & Hlen).
    assert (a <> b) as Hab.
    { intros ->. by rewrite js_lt_irrefl in Hlt. }
    assert ((124 ∉ a) /\ (124 ∉ b)) as [Ha Hb].
    { rewrite Hf in Hlen. destruct (shared_files allSymbols a b) as [|f l] eqn:E;
        [cbn in Hlen; lia|].
      assert (f ∈ shared_files allSymbols a b) as Hin by (rewrite E; by left).
      apply list_elem_of_filter in Hin as [[H1 H2] _].
      apply HN, HbarN in H1. apply HN, HbarN in H2. done. }
    exists (pairKey a b). cbn zeta. rewrite (Hshared a b Ha Hb Hab).
    rewrite (Set_values_NoDup _ (Hsnd a b)), (Hgroup a b Ha Hb Hlt).
    rewrite <- Hf. split; [by destruct (co_files g); [cbn in Hlen; lia|]|].
    split; [done|]. destruct g as [s fs n]. cbn in *. by subst.
Qed.

(** Two names declared together in three files, a third name in one. *)
Lemma cooccurrence_detector_witness :
  let syms := [sample_symbol "load" 12 "a.ts" 0 2;
               sample_symbol "Cache" 5 "a.ts" 4 9;
               sample_symbol "Cache" 5 "b.ts" 0 5;
               sample_symbol "load" 12 "b.ts" 7 9;
               sample_symbol "load" 12 "c.ts" 0 2;
               sample_symbol "save" 12 "c.ts" 4 6;
               sample_symbol "Cache" 5 "c.ts" 8 12] in
  {| co_symbols := (Some (js "Cache"), Some (js "load"));
     co_files := [js "a.ts"; js "b.ts"; js "c.ts"];
     occurrenceCount := 3 |}
  ∈ analyze_cooccurrence syms.
Proof.
  intros syms.
  assert (forall sym, sym ∈ syms -> cooccurrence_candidate sym ->
                      124 ∉ name sym) as Hbar.
  { intros sym Hin _. revert sym Hin. apply Forall_forall.
    repeat constructor; apply (bool_decide_unpack _); vm_compute; exact I. }
  apply (cooccurrence_detector syms Hbar).
  exists (js "Cache"), (js "load"). cbn [co_symbols co_files occurrenceCount].
  split_and!.
  - vm_compute. reflexivity.
  - reflexivity.
  - vm_compute. reflexivity.
  - reflexivity.
  - cbn [length]. lia.
Defined.

(** ** Diagnostics *)

Lemma diagnostics_fold notes :
  forall m,
    fold_left diagnostics_listener notes m
    = fold_left
        (fun m ev => Map_update (fun _ => snd ev) [] (fst ev) m)
        (publications notes) m.
Proof.
  unfold publications.
  induction notes as [|note notes IH]; intros m; [done|].
  cbn [fold_left]. rewrite IH. unfold diagnostics_listener at 1.
  rewrite filter_cons.
  destruct (bool_decide_reflect
              (published_method note = js "textDocument/publishDiagnostics"))
    as [Hm|Hm].
  - rewrite decide_True by done. cbn [map fold_left fst snd]. f_equal.
    generalize (default [] (published_diagnostics note)),
               (published_uri note). clear.
    intros diags key. induction m as [|[k v] m IH]; [done|].
    cbn [Map_update]. destruct (decide (k = key)); [done|]. by rewrite IH.
  - by rewrite decide_False by done.
Qed.

Lemma fold_left_last {A} (es : list A) (d : A) :
  fold_left (fun _ e => e) es d = default d (last es).
Proof.
  revert d. induction es as [|e es IH]; intros d; [done|].
  cbn [fold_left]. rewrite IH. destruct es as [|e' es']; [reflexivity|].
  rewrite last_cons_cons. destruct (last (e' :: es')) eqn:Hl; [done|].
  by apply last_None in Hl.
Qed.

(** X29: only the last publication counts.  The diagnostics reported
    come from the [publishDiagnostics] notifications alone; for every
    document they are the diagnostics of the last such notification for
    that document (none if that notification carries no list or an empty
    one), in their order, with the line counted from one and the severity
    named [error] for 1, [warning] for 2 and [info] otherwise; the
    documents follow each other in the order of their first
    notification. *)
Theorem diagnostics_of_last_publication
    (path_relative : jsstring -> jsstring -> jsstring) (projectPath : jsstring)
    (notes : list Published) :
  analyze_diagnostics path_relative projectPath notes
  = flat_map
      (fun uri => map (report_diagnostic path_relative projectPath uri)
                      (last_published notes uri))
      (Set_values (map fst (publications notes))).
Proof.
  unfold analyze_diagnostics. rewrite diagnostics_fold.
  pose proof (Map_of_fold (fun (_ : list Diagnostic) e => e) []
                (publications notes) [] [] (Map_of_nil _ _)) as [Hkeys Hm].
  cbn [app] in Hkeys, Hm.
  set (m := fold_left _ (publications notes) []) in *.
  rewrite <- Hkeys.
  assert (forall k v, (k, v) ∈ m -> v = last_published notes k) as Hval.
  { intros k v Hin. apply Hm in Hin as [-> _]. unfold last_published.
    apply fold_left_last. }
  clear -Hval. unfold collect_diagnostics.
  induction m as [|[k v] m IH]; [done|]. cbn [map flat_map fst snd].
  rewrite (Hval k v) by by left. f_equal. apply IH.
  intros k' v' Hin. apply Hval. by right.
Qed.

(** Two publications for one document, a publication for another one
    and an unrelated notification: the first publication is forgotten. *)
Lemma diagnostics_of_last_publication_witness :
  let publish uri ds :=
    {| published_method := js "textDocument/publishDiagnostics";
       published_uri := js uri; published_diagnostics := ds |} in
  let notes :=
    [publish "file:///project/a.ts" (Some [sample_diagnostic 3 1 "first"]);
     publish "file:///project/b.ts" (Some [sample_diagnostic 0 2 "unused"]);
     {| published_method := js "window/logMessage";
        published_uri := js "file:///project/a.ts";
        published_diagnostics := Some [sample_diagnostic 9 1 "noise"] |};
     publish "file:///project/a.ts" (Some [sample_diagnostic 7 4 "second"])] in
  analyze_diagnostics sample_relative (js "/project") notes
  = [{| reported_file := js "a.ts"; reported_line := 8;
        reported_severity := js "info"; reported_message := js "second";
        reported_code := None |};
     {| reported_file := js "b.ts"; reported_line := 1;
        reported_severity := js "warning"; reported_message := js "unused";
        reported_code := None |}].
Proof.
  intros publish notes.
  rewrite (diagnostics_of_last_publication sample_relative (js "/project") notes).
  vm_compute. reflexivity.
Defined.

(** ** The client of [lsp_client.ts]: requests without a time-out *)

Section ClientTs.
Import lsp_client_ts_messages.

Lemma ts_started_inv : client_inv started_client_ts.
Proof. split; cbn; intros *; rewrite ?lookup_empty; done. Qed.

Lemma ts_step_inv s a : client_inv s -> client_inv (step s a).
Proof.
intros [H1 H2 H3]. destruct a as [m q|m q|msg]; cbn [step].
- unfold lsp_client_ts.sendRequest.
destruct (lsp_client_ts.process s); cbn [negb snd].
+ split; cbn.
* intros id p Hl. destruct (decide (id = lsp_client_ts.nextRequestId s))
as [->|Hne].
-- rewrite lookup_insert_eq in Hl. injection Hl as <-.
 split_and!; [lia|lia|].
 destruct (lsp_client_ts.promises s !! lsp_client_ts.nextPromise s)
   eqn:E; [|done]. apply H2 in E. lia.
-- rewrite lookup_insert_ne in Hl by done.
 destruct (H1 id p Hl) as (? & ? & ?). split_and!; [lia|lia|done].
* intros p o Hl. apply H2 in Hl. lia.
* intros id1 id2 p Hl1 Hl2.
destruct (decide (id1 = lsp_client_ts.nextRequestId s)) as [->|Hn1],
       (decide (id2 = lsp_client_ts.nextRequestId s)) as [->|Hn2];
try done.
-- rewrite lookup_insert_eq in Hl1. injection Hl1 as <-.
 rewrite lookup_insert_ne in Hl2 by done.
 destruct (H1 _ _ Hl2) as (_ & ? & _). lia.
-- rewrite lookup_insert_eq in Hl2. injection Hl2 as <-.
 rewrite lookup_insert_ne in Hl1 by done.
 destruct (H1 _ _ Hl1) as (_ & ? & _). lia.
-- rewrite lookup_insert_ne in Hl1, Hl2 by done. by eapply H3.
+ split; cbn.
* intros id p Hl. destruct (H1 id p Hl) as (? & ? & ?).
split_and!; [done|lia|]. rewrite lookup_insert_ne by lia. done.
* intros p o Hl.
destruct (decide (p = lsp_client_ts.nextPromise s)) as [->|Hne]; [lia|].
rewrite lookup_insert_ne in Hl by done. apply H2 in Hl. lia.
* exact H3.
- unfold lsp_client_ts.sendNotification.
destruct (lsp_client_ts.process s); cbn [negb]; by split.
- unfold handleMessage.
destruct (get (js "id") msg) as [[| |n| | |]|]; cbn [fst];
try (by split);
[|destruct (get (js "method") msg) as [m|]; [|by split];
destruct (truthy (Some m)); by split].
destruct (lsp_client_ts.pendingRequests s !! n) as [p|] eqn:Hp; [|by split].
destruct (H1 n p Hp) as (Hn & Hlt & Hfresh).
assert (forall o,
    client_inv
      (settle p o
         {| lsp_client_ts.process := lsp_client_ts.process s;
            lsp_client_ts.nextRequestId := lsp_client_ts.nextRequestId s;
            lsp_client_ts.pendingRequests :=
              delete n (lsp_client_ts.pendingRequests s);
            lsp_client_ts.stdin := lsp_client_ts.stdin s;
            lsp_client_ts.promises := lsp_client_ts.promises s;
            lsp_client_ts.nextPromise := lsp_client_ts.nextPromise s |}))
as Hs.
{ intros o. unfold settle. cbn. rewrite Hfresh. split; cbn.
- intros id q Hl. apply lookup_delete_Some in Hl as [Hne Hl].
destruct (H1 id q Hl) as (? & ? & ?). split_and!; [done|done|].
rewrite lookup_insert_ne; [done|]. intros ->. apply Hne.
by apply (H3 n id q).
- intros q o' Hl. destruct (decide (q = p)) as [->|Hne]; [done|].
rewrite lookup_insert_ne in Hl by done. by apply H2 in Hl.
- intros id1 id2 q Hl1 Hl2. apply lookup_delete_Some in Hl1 as [_ Hl1].
apply lookup_delete_Some in Hl2 as [_ Hl2]. by eapply H3. }
destruct (truthy _); [destruct (remote_error _)|]; cbn [fst]; try apply Hs.
split; cbn.
+ intros id q Hl. apply lookup_delete_Some in Hl as [Hne Hl].
by apply H1.
+ exact H2.
+ intros id1 id2 q Hl1 Hl2. apply lookup_delete_Some in Hl1 as [_ Hl1].
apply lookup_delete_Some in Hl2 as [_ Hl2]. by eapply H3.
Qed.

Lemma ts_step_waits s a id p :
client_inv s ->
lsp_client_ts.pendingRequests s !! id = Some p ->
not_answering id a ->
lsp_client_ts.pendingRequests (step s a) !! id = Some p
/\ lsp_client_ts.promises (step s a) !! p = None.
Proof.
intros [H1 H2 H3] Hp Ha. destruct (H1 id p Hp) as (Hid & Hlt & Hfresh).
destruct a as [m q|m q|msg]; cbn [step].
- unfold lsp_client_ts.sendRequest.
destruct (lsp_client_ts.process s); cbn [negb snd]; cbn.
+ rewrite lookup_insert_ne by lia. done.
+ rewrite lookup_insert_ne by lia. done.
- unfold lsp_client_ts.sendNotification.
by destruct (lsp_client_ts.process s).
- cbn [not_answering] in Ha. unfold handleMessage.
destruct (get (js "id") msg) as [[| |n| | |]|]; cbn [fst]; try done;
[|destruct (get (js "method") msg) as [m|]; [|done];
by destruct (truthy (Some m))].
destruct (lsp_client_ts.pendingRequests s !! n) as [q|] eqn:Hq; [|done].
assert (n <> id) as Hne by congruence.
assert (q <> p) as Hqp.
{ intros ->. apply Hne. by apply (H3 n id p). }
destruct (H1 n q Hq) as (_ & _ & Hqfresh).
destruct (truthy _); [destruct (remote_error _)|]; cbn [fst];
unfold settle; cbn; rewrite ?Hqfresh; cbn;
by rewrite lookup_delete_ne, ?lookup_insert_ne.
Qed.

(** X30: a request of [lsp_client.ts] waits for its response for ever.
This client arms no timer: as long as no message carries the id of a
pending request, whatever else is sent and received, the request
stays pending and its promise stays unsettled; the response, when it
comes, fulfils the promise with its result. *)
Theorem request_waits_for_its_response
(s : lsp_client_ts.LSPClient) (id : Z) (p : nat) (actions : list Action)
(result : json) :
client_inv s ->
lsp_client_ts.pendingRequests s !! id = Some p ->
Forall (not_answering id) actions ->
let s' := run s actions in
lsp_client_ts.pendingRequests s' !! id = Some p
/\ lsp_client_ts.promises s' !! p = None
/\ lsp_client_ts.promises (fst (handleMessage (response id result) s')) !! p
 = Some (Resolved (Some result)).
Proof.
intros Hinv Hp Hall.
assert (client_inv (run s actions)
  /\ lsp_client_ts.pendingRequests (run s actions) !! id = Some p
  /\ lsp_client_ts.promises (run s actions) !! p = None)
as (Hinv' & Hp' & Hfresh).
{ unfold run. revert s Hinv Hp.
induction Hall as [|a actions Ha _ IH]; intros s Hinv Hp; cbn [fold_left].
- split; [done|]. split; [done|]. by destruct (inv_pending s Hinv id p Hp) as (_ & _ & ?).
- destruct (ts_step_waits s a id p Hinv Hp Ha) as [Hp1 _].
apply IH; [by apply ts_step_inv|done]. }
cbn zeta. split; [done|]. split; [done|].
unfold handleMessage. rewrite get_id_response, Hp', get_error_response,
get_result_response. cbn [truthy fst]. unfold settle. cbn.
rewrite Hfresh. cbn. by rewrite lookup_insert_eq.
Qed.

End ClientTs.

(** Two requests; the second one is answered, a notification arrives
    and a notification is sent, and the first one is still waiting. *)
Lemma request_waits_for_its_response_witness :
  let s := snd (lsp_client_ts.sendRequest (js "textDocument/hover") JNull
                  started_client_ts) in
  let actions :=
    [lsp_client_ts_messages.CallSendRequest (js "textDocument/definition") JNull;
     lsp_client_ts_messages.OnMessage (response 2 (JArr []));
     lsp_client_ts_messages.OnMessage
       (notification (js "window/logMessage") JNull);
     lsp_client_ts_messages.CallSendNotification (js "initialized") (JObj [])] in
  let s' := lsp_client_ts_messages.run s actions in
  lsp_client_ts.pendingRequests s' !! 1 = Some 0%nat
  /\ lsp_client_ts.promises s' !! 0%nat = None
  /\ lsp_client_ts.promises s' !! 1%nat = Some (Resolved (Some (JArr []))).
Proof.
  intros s actions s'.
  assert (lsp_client_ts_messages.client_inv s) as Hinv.
  { apply (ts_step_inv started_client_ts
             (lsp_client_ts_messages.CallSendRequest (js "textDocument/hover") JNull)).
    apply ts_started_inv. }
  assert (lsp_client_ts.pendingRequests s !! 1 = Some 0%nat) as Hp
    by (vm_compute; reflexivity).
  assert (Forall (lsp_client_ts_messages.not_answering 1) actions) as Hall.
  { repeat constructor; vm_compute; discriminate. }
  destruct (request_waits_for_its_response s 1 0 actions JNull
              Hinv Hp Hall) as (H1 & H2 & _).
  split; [exact H1|]. split; [exact H2|]. vm_compute. reflexivity.
Defined.
